(** * Permit normalization and geocoding cache

    A shallow embedding of [src/processors/prepare_permits.py]
    (class [PermitProcessor] and [normalize_and_geocode_permits]) and the
    properties of it that the specification states.  The later parts
    embed the document loop of [src/database/upload_to_chroma.py], the two
    fetchers of [src/data_fetchers] and the pipeline of [main.py], which
    call it or feed it, with properties of theirs.

    Python strings are sequences of Unicode code points; they are modelled
    as lists of code points ([N]).  White space is that of CPython on every
    code point.  The tables of word characters and of case mappings are
    those of CPython for the Basic Latin block U+0000..U+007F and for the
    two letters U+FB06 and U+01F0, whose case mappings are longer than one
    character; every other code point is taken there as a caseless
    character that is no word character, which CPython agrees with for
    U+030C, the only other code point that appears below.  Every theorem
    whose statement depends on these two tables (the cleaning of an
    address, its cache-key form) takes its text in Basic Latin; the
    counterexamples use U+FB06 and U+01F0.  Floats are binary64 numbers,
    given by their value, and [float] rounds as CPython does. *)

From stdpp Require Import gmap list strings.
From Stdlib Require Import ZArith NArith QArith Ascii DecimalString.
From Stdlib Require DecimalPos.

Local Open Scope N_scope.
Local Open Scope list_scope.

(** ** Characters *)

Abbreviation pystr := (list N).

(** A Rocq string literal as a Python string (one code point per byte of the
    literal; the literals of this file are Basic Latin). *)
Fixpoint str (s : string) : pystr :=
  match s with
  | EmptyString => []
  | String a s' => Ascii.N_of_ascii a :: str s'
  end.

Definition in_range (lo hi c : N) : bool := (lo <=? c) && (c <=? hi).

Definition is_ascii (c : N) : bool := c <? 128.
Definition is_upper (c : N) : bool := in_range 65 90 c.
Definition is_lower (c : N) : bool := in_range 97 122 c.
Definition is_alpha (c : N) : bool := is_upper c || is_lower c.
Definition is_digit (c : N) : bool := in_range 48 57 c.

(** U+FB06 LATIN SMALL LIGATURE ST: a lower-case letter whose upper-case
    form is the two letters "ST" and whose title-case form is "St". *)
Definition lig_st : N := 64262.

(** U+01F0 LATIN SMALL LETTER J WITH CARON: a lower-case letter whose
    upper-case and title-case forms are "J" followed by U+030C COMBINING
    CARON. *)
Definition small_j_caron : N := 496.
Definition combining_caron : N := 780.

(** [str.isspace], which [str.strip] and the regex class [\s] follow, on
    every code point: TAB..CR, FS..US and SPACE of Basic Latin, and beyond
    it U+0085, U+00A0, U+1680, U+2000..U+200A, U+2028, U+2029, U+202F,
    U+205F and U+3000. *)
Definition is_space (c : N) : bool :=
  in_range 9 13 c || in_range 28 32 c
  || (c =? 133) || (c =? 160) || (c =? 5760) || in_range 8192 8202 c
  || (c =? 8232) || (c =? 8233) || (c =? 8239) || (c =? 8287)
  || (c =? 12288).

(** The regex class [\w] on Basic Latin, alphanumerics and the underscore,
    and on the two letters above. *)
Definition is_word (c : N) : bool :=
  is_alpha c || is_digit c || (c =? 95) || (c =? lig_st)
  || (c =? small_j_caron).

(** Characters with case ([str.title] looks at this), on Basic Latin and on
    the two letters above. *)
Definition is_cased (c : N) : bool :=
  is_alpha c || (c =? lig_st) || (c =? small_j_caron).

(** The simple case mappings of Basic Latin. *)
Definition upper1 (c : N) : N := if is_lower c then c - 32 else c.
Definition lower1 (c : N) : N := if is_upper c then c + 32 else c.

(** Full case mappings: one character may map to several.  They are those
    of CPython on Basic Latin and on the two letters above; the statements
    that depend on them are about Basic Latin text. *)
Definition upper_char (c : N) : pystr :=
  if c =? lig_st then [83; 84]
  else if c =? small_j_caron then [74; combining_caron]
  else [upper1 c].
Definition lower_char (c : N) : pystr := [lower1 c].
Definition title_char (c : N) : pystr :=
  if c =? lig_st then [83; 116]
  else if c =? small_j_caron then [74; combining_caron]
  else [upper1 c].

(** ** String methods *)

(** [s.upper()] *)
Definition py_upper (s : pystr) : pystr := flat_map upper_char s.

(** [s.lower()] *)
Definition py_lower (s : pystr) : pystr := flat_map lower_char s.

(** [s.title()]: a character that follows a cased character is lower-cased,
    any other is title-cased. *)
Fixpoint title_go (prev_cased : bool) (s : pystr) : pystr :=
  match s with
  | [] => []
  | c :: s' =>
      (if prev_cased then lower_char c else title_char c)
        ++ title_go (is_cased c) s'
  end.

Definition py_title (s : pystr) : pystr := title_go false s.

(** [s.lstrip(chars)], [s.rstrip(chars)], [s.strip(chars)] with the set of
    characters to remove given as a predicate. *)
Fixpoint lstrip_by (p : N → bool) (s : pystr) : pystr :=
  match s with
  | [] => []
  | c :: s' => if p c then lstrip_by p s' else s
  end.

Fixpoint rstrip_by (p : N → bool) (s : pystr) : pystr :=
  match s with
  | [] => []
  | c :: s' =>
      match rstrip_by p s' with
      | [] => if p c then [] else [c]
      | r => c :: r
      end
  end.

Definition strip_by (p : N → bool) (s : pystr) : pystr :=
  rstrip_by p (lstrip_by p s).

(** [s.strip()] *)
Definition py_strip (s : pystr) : pystr := strip_by is_space s.

(** [s.strip(", ")] *)
Definition is_comma_space (c : N) : bool := (c =? 44) || (c =? 32).
Definition strip_comma_space (s : pystr) : pystr := strip_by is_comma_space s.

(** [s.replace(old, "")] for a one-character [old]. *)
Definition remove_char (old : N) (s : pystr) : pystr :=
  filter (λ c, c ≠ old) s.

(** [sep.join(parts)] *)
Fixpoint join (sep : pystr) (parts : list pystr) : pystr :=
  match parts with
  | [] => []
  | [p] => p
  | p :: ps => p ++ sep ++ join sep ps
  end.

(** ** The two regular-expression forms the program uses *)

(** [re.sub(r'\s+', ' ', s)]: every maximal run of white space becomes one
    space.  [in_run] tells that the previous character was white space. *)
Fixpoint collapse_go (in_run : bool) (s : pystr) : pystr :=
  match s with
  | [] => []
  | c :: s' =>
      if is_space c
      then (if in_run then collapse_go true s' else 32 :: collapse_go true s')
      else c :: collapse_go false s'
  end.

Definition re_sub_spaces (s : pystr) : pystr := collapse_go false s.

(** Comparison of a pattern character with a text character, with or without
    [re.IGNORECASE]. *)
Definition char_matches (ignorecase : bool) (k c : N) : bool :=
  if ignorecase then lower1 k =? lower1 c else k =? c.

(** The literal [key] matched at the head of [s]: the word-ness of the last
    character passed ([prev_word] when the key is empty) and the text left
    after the match. *)
Fixpoint lit_match (ignorecase : bool) (key : pystr) (prev_word : bool)
    (s : pystr) : option (bool * pystr) :=
  match key with
  | [] => Some (prev_word, s)
  | k :: key' =>
      match s with
      | [] => None
      | c :: s' =>
          if char_matches ignorecase k c
          then lit_match ignorecase key' (is_word c) s'
          else None
      end
  end.

Definition head_is_word (s : pystr) : bool :=
  match s with
  | [] => false
  | c :: _ => is_word c
  end.

(** [\b] between a character whose word-ness is [prev_word] (false at the
    start of the text) and the text [s] that follows. *)
Definition at_boundary (prev_word : bool) (s : pystr) : bool :=
  xorb prev_word (head_is_word s).

(** Does [\bkey\b] match at the head of [s]? *)
Definition match_at (ignorecase : bool) (key : pystr) (prev_word : bool)
    (s : pystr) : bool :=
  at_boundary prev_word s &&
  match lit_match ignorecase key prev_word s with
  | Some (last_word, rest) => at_boundary last_word rest
  | None => false
  end.

(** [re.sub(r'\bkey\b', repl, s, flags)] for a non-empty literal [key]:
    the text is scanned left to right, a match is replaced and the scan
    resumes after it ([skip] counts the matched characters still to pass). *)
Fixpoint sub_go (ignorecase : bool) (key repl : pystr) (prev_word : bool)
    (skip : nat) (s : pystr) : pystr :=
  match s with
  | [] => []
  | c :: s' =>
      match skip with
      | S k => sub_go ignorecase key repl (is_word c) k s'
      | O =>
          if match_at ignorecase key prev_word s
          then repl ++ sub_go ignorecase key repl (is_word c)
                         (pred (length key)) s'
          else c :: sub_go ignorecase key repl (is_word c) O s'
      end
  end.

Definition re_sub_word (ignorecase : bool) (key repl s : pystr) : pystr :=
  sub_go ignorecase key repl false O s.

(** ** Address cleaning *)

Definition directional_map : list (pystr * pystr) :=
  [ (str "NORTH", str "N"); (str "SOUTH", str "S");
    (str "EAST", str "E"); (str "WEST", str "W");
    (str "NORTHEAST", str "NE"); (str "NORTHWEST", str "NW");
    (str "SOUTHEAST", str "SE"); (str "SOUTHWEST", str "SW") ].

Definition street_types : list (pystr * pystr) :=
  [ (str "STREET", str "ST"); (str "AVENUE", str "AVE");
    (str "BOULEVARD", str "BLVD"); (str "DRIVE", str "DR");
    (str "ROAD", str "RD"); (str "LANE", str "LN");
    (str "COURT", str "CT"); (str "PLACE", str "PL") ].

(** [for full, abbrev in table.items(): address = re.sub(...)] *)
Definition sub_table (ignorecase : bool) (table : list (pystr * pystr))
    (s : pystr) : pystr :=
  fold_left (λ a kv, re_sub_word ignorecase kv.1 kv.2 a) table s.

(** ** Python values *)

(** The values a raw record can hold.  [VObj] stands for any other object
    (a float, a list, a nested dict, ...) seen through the only three
    observations the program makes of a raw value: whether it can be hashed,
    its truth value, and its [str()].  An integer is one that [str()]
    prints, which by default is one of at most 4300 digits. *)
Inductive pyval :=
| VNone
| VBool (b : bool)
| VInt (z : Z)
| VStr (s : pystr)
| VObj (hashable truthy : bool) (text : pystr).

#[global] Instance pyval_eq_dec : EqDecision pyval.
Proof. solve_decision. Defined.

(** [bool(v)] *)
Definition truthy (v : pyval) : bool :=
  match v with
  | VNone => false
  | VBool b => b
  | VInt z => negb (z =? 0)%Z
  | VStr s => match s with [] => false | _ => true end
  | VObj _ t _ => t
  end.

(** [str(v)] *)
Definition py_str (v : pyval) : pystr :=
  match v with
  | VNone => str "None"
  | VBool true => str "True"
  | VBool false => str "False"
  | VInt z => str (DecimalString.NilZero.string_of_int (Z.to_int z))
  | VStr s => s
  | VObj _ _ text => text
  end.

(** Can [v] be used as a dictionary key? *)
Definition hashable (v : pyval) : bool :=
  match v with
  | VObj h _ _ => h
  | _ => true
  end.

(** [PermitProcessor.clean_address] *)
Definition clean_address (address : pyval) : pystr :=
  if negb (truthy address) then []
  else
    let address := re_sub_spaces (py_strip (py_str address)) in
    let address := sub_table true directional_map address in
    let address := sub_table true street_types address in
    py_upper address.

(** The substitutions of [clean_address_for_cache], in program order. *)
Definition cache_abbreviations : list (pystr * pystr) :=
  [ (str "Fl", str "FL"); (str "Rd", str "Rd"); (str "St", str "St");
    (str "Ave", str "Ave"); (str "Dr", str "Dr"); (str "Ln", str "Ln");
    (str "Ct", str "Ct"); (str "Pl", str "Pl"); (str "Blvd", str "Blvd") ].

(** [PermitProcessor.clean_address_for_cache] *)
Definition clean_address_for_cache (address : pyval) : pystr :=
  if negb (truthy address) then []
  else
    let address := re_sub_spaces (py_strip (py_str address)) in
    let address := py_title address in
    sub_table false cache_abbreviations address.

(** ** Floats and [float(s)] *)

(** A Python float: a finite float given by its value [FNum q], which is a
    binary64 number (the sign of a zero is not kept), an infinity, or a
    NaN. *)
Inductive pyfloat :=
| FNum (q : Q)
| FInf (negative : bool)
| FNan.

(** The float nearest to the rational [q], ties to the even significand,
    as the conversion of a decimal text rounds: binary64 has 53 bits of
    precision, exponents up to 1023 and subnormal numbers down to
    [2^-1074]; from [2^1024] on the result is an infinity. *)
Definition binary64_of (q : Q) : pyfloat :=
  let n := Z.abs (Qnum q) in
  let d := Zpos (Qden q) in
  if (n =? 0)%Z then FNum 0
  else
    let e0 := (Z.log2 n - Z.log2 d)%Z in
    let e := if (n * 2 ^ Z.max 0 (- e0) <? d * 2 ^ Z.max 0 e0)%Z
             then (e0 - 1)%Z else e0 in
    let t := Z.max (e - 52) (-1074) in
    let num := (n * 2 ^ Z.max 0 (- t))%Z in
    let den := (d * 2 ^ Z.max 0 t)%Z in
    let m := (num / den)%Z in
    let r := (num mod den)%Z in
    let m := if (2 * r <? den)%Z then m
             else if (2 * r =? den)%Z && Z.even m then m
             else (m + 1)%Z in
    if (2 ^ 1024 <=? m * 2 ^ Z.max 0 t)%Z then FInf (Qnum q <? 0)%Z
    else FNum (Qred (Qmake ((if (Qnum q <? 0)%Z then - m else m)
                              * 2 ^ Z.max 0 t)
                       (Z.to_pos (2 ^ Z.max 0 (- t))))).

Definition head_is_digit (s : pystr) : bool :=
  match s with
  | [] => false
  | c :: _ => is_digit c
  end.

(** [digit (["_"] digit)*] read from the head of [s]: the digits as a number,
    how many there were, and the text that follows. *)
Fixpoint digitpart_go (acc : N) (n : nat) (s : pystr) : N * nat * pystr :=
  match s with
  | [] => (acc, n, [])
  | c :: s' =>
      if is_digit c then digitpart_go (acc * 10 + (c - 48)) (S n) s'
      else if (c =? 95) && head_is_digit s' then digitpart_go acc n s'
      else (acc, n, s)
  end.

Definition digitpart (s : pystr) : option (N * nat * pystr) :=
  if head_is_digit s then Some (digitpart_go 0 0 s) else None.

(** [number ::= [digitpart] "." digitpart | digitpart ["."]]: the digits
    with the point removed, the number of digits after the point, the rest. *)
Definition number (s : pystr) : option (N * nat * pystr) :=
  match digitpart s with
  | Some (i, _, rest) =>
      match rest with
      | 46 :: rest' =>
          match digitpart rest' with
          | Some (_, _, _) =>
              let '(m, n, rest'') := digitpart_go i 0 rest' in
              Some (m, n, rest'')
          | None => Some (i, 0%nat, rest')
          end
      | _ => Some (i, 0%nat, rest)
      end
  | None =>
      match s with
      | 46 :: rest' => digitpart rest'
      | _ => None
      end
  end.

(** [sign ::= "+" | "-"], optional: is it negative, and the rest. *)
Definition sign (s : pystr) : bool * pystr :=
  match s with
  | 43 :: s' => (false, s')
  | 45 :: s' => (true, s')
  | _ => (false, s)
  end.

(** [exponent ::= ("e" | "E") [sign] digitpart], optional and last. *)
Definition exponent (s : pystr) : option Z :=
  match s with
  | [] => Some 0%Z
  | c :: s' =>
      if (c =? 101) || (c =? 69) then
        let '(neg, s'') := sign s' in
        match digitpart s'' with
        | Some (e, _, []) => Some (if neg then (- Z.of_N e)%Z else Z.of_N e)
        | _ => None
        end
      else None
  end.

(** The value [m * 10 ^ e] of a decimal. *)
Definition decimal_value (negative : bool) (m : N) (e : Z) : Q :=
  let q := if (0 <=? e)%Z
           then Qmake (Z.of_N m * 10 ^ e) 1
           else Qmake (Z.of_N m) (Z.to_pos (10 ^ (- e))) in
  Qred (if negative then Qopp q else q).

(** The white space that [float] passes over at both ends of its argument:
    that of [str.isspace] except FS..US. *)
Definition is_float_space (c : N) : bool :=
  is_space c && negb (in_range 28 31 c).

(** [float(s)] on a string; [None] is [ValueError].  Decimal digits other
    than those of Basic Latin, which [float] reads as well, are not in this
    model: it is that of [float] on every text without such digits. *)
Definition py_float (s : pystr) : option pyfloat :=
  let '(neg, body) := sign (strip_by is_float_space s) in
  let word := py_lower body in
  if bool_decide (word = str "inf") || bool_decide (word = str "infinity")
  then Some (FInf neg)
  else if bool_decide (word = str "nan") then Some FNan
  else
    match number body with
    | Some (m, n, rest) =>
        match exponent rest with
        | Some e => Some (binary64_of (decimal_value neg m (e - Z.of_nat n)))
        | None => None
        end
    | None => None
    end.

(** ** Dates *)

Record datetime := {
  year : N; month : N; day : N;
  hour : N; minute : N; second : N; microsecond : N
}.

Definition decimal (n : N) : pystr :=
  str (NilZero.string_of_uint (N.to_uint n)).

(** [n] in decimal, padded with zeros on the left to [width] characters. *)
Definition zero_pad (width : nat) (n : N) : pystr :=
  let d := decimal n in
  replicate (width - length d) 48 ++ d.

(** [dt.strftime('%m/%d/%Y')] *)
Definition strftime_mdY (dt : datetime) : pystr :=
  zero_pad 2 (month dt) ++ str "/" ++ zero_pad 2 (day dt) ++ str "/"
    ++ decimal (year dt).

(** A date of the calendar with a year of four digits. *)
Definition calendar_date (dt : datetime) : bool :=
  in_range 1 12 (month dt) && in_range 1 31 (day dt)
  && in_range 1000 9999 (year dt).

(** The date as the specification words it, MM/DD/YYYY, digit by digit:
    the two digits of the month, a slash, the two digits of the day, a
    slash, the four digits of the year. *)
Definition mdY_as_specified (dt : datetime) : pystr :=
  [ 48 + month dt / 10; 48 + month dt mod 10; 47;
    48 + day dt / 10; 48 + day dt mod 10; 47;
    48 + year dt / 1000; 48 + year dt / 100 mod 10;
    48 + year dt / 10 mod 10; 48 + year dt mod 10 ].

(** [dt.isoformat()] *)
Definition isoformat (dt : datetime) : pystr :=
  zero_pad 4 (year dt) ++ str "-" ++ zero_pad 2 (month dt) ++ str "-"
    ++ zero_pad 2 (day dt) ++ str "T" ++ zero_pad 2 (hour dt) ++ str ":"
    ++ zero_pad 2 (minute dt) ++ str ":" ++ zero_pad 2 (second dt)
    ++ (if microsecond dt =? 0 then []
        else str "." ++ zero_pad 6 (microsecond dt)).

(** ** The processor, its environment and its mutable state *)

(** A cache entry as the JSON file has it: [[lat, lng]] or [null]. *)
Abbreviation cache_entry := (option (pyfloat * pyfloat)).

(** What one request to the geocoding service comes to: an exception
    anywhere between the request and the decoding of the answer, an answer
    without results, or a location. *)
Inductive api_response :=
| ApiError
| ApiEmpty
| ApiFound (lat lng : pyfloat).

(** What writing the cache file comes to: the file holds the mapping; or
    an exception, which [save_geocoding_cache] logs and swallows, raised
    before the file was opened, which leaves it as it was, or raised after,
    which leaves a file that cannot be read. *)
Inductive write_outcome :=
| Written
| FailedUntouched
| FailedTruncated.

(** What is outside the program: the environment variable holding the API
    key, the geocoding service (its answer may depend on how many requests
    were made before), the clock (indexed by the number of earlier
    readings) and the file system (what a write of the cache file comes
    to, indexed by the number of earlier writes). *)
Record environment := {
  api_key_env : option pystr;
  service : nat → pystr → api_response;
  clock : nat → datetime;
  cache_write : nat → write_outcome
}.

(** The immutable attributes of a [PermitProcessor]. *)
Record processor := {
  enable_geocoding : bool;
  google_api_key : option pystr
}.

Inductive event :=
| EvApiCall (address : pystr)
| EvFlush (contents : gmap pystr cache_entry).

(** The mutable state: the cache file ([None]: there is none, or it
    cannot be read), the processor's [geocode_cache],
    the number of clock readings, and the external effects so far (oldest
    first). *)
Record world := {
  disk : option (gmap pystr cache_entry);
  geocode_cache : gmap pystr cache_entry;
  ticks : nat;
  trace : list event
}.

Definition is_api_call (e : event) : bool :=
  match e with EvApiCall _ => true | EvFlush _ => false end.
Definition is_flush (e : event) : bool :=
  match e with EvFlush _ => true | EvApiCall _ => false end.

Definition api_calls (tr : list event) : nat :=
  length (List.filter is_api_call tr).
Definition flushes (tr : list event) : nat :=
  length (List.filter is_flush tr).

(** Computations that read and change the [world] and may raise. *)
Inductive exn := TypeError.

Inductive outcome (A : Type) :=
| Ok (a : A)
| Raise (e : exn).
Arguments Ok {A} a.
Arguments Raise {A} e.

Definition M (A : Type) : Type := world → outcome A * world.

Definition ret {A} (a : A) : M A := λ w, (Ok a, w).
Definition raise {A} (e : exn) : M A := λ w, (Raise e, w).
Definition bind {A B} (m : M A) (k : A → M B) : M B :=
  λ w, match m w with
       | (Ok a, w') => k a w'
       | (Raise e, w') => (Raise e, w')
       end.
(** [try: body except Exception: handler]; the state changes made before the
    exception stay. *)
Definition try_except {A} (body : M A) (handler : exn → M A) : M A :=
  λ w, match body w with
       | (Ok a, w') => (Ok a, w')
       | (Raise e, w') => handler e w'
       end.

#[global] Instance M_ret : MRet M := @ret.
#[global] Instance M_bind : MBind M := λ A B k m, bind m k.

Definition get_cache : M (gmap pystr cache_entry) :=
  λ w, (Ok (geocode_cache w), w).

(** [self.geocode_cache[key] = entry] *)
Definition cache_put (key : pystr) (entry : cache_entry) : M unit :=
  λ w, (Ok tt, {| disk := disk w;
                  geocode_cache := <[key := entry]> (geocode_cache w);
                  ticks := ticks w; trace := trace w |}).

(** The file after a write of [contents] over the file [old]. *)
Definition written_file (outcome : write_outcome)
    (old : option (gmap pystr cache_entry))
    (contents : gmap pystr cache_entry) : option (gmap pystr cache_entry) :=
  match outcome with
  | Written => Some contents
  | FailedUntouched => old
  | FailedTruncated => None
  end.

(** [PermitProcessor.save_geocoding_cache]: when the write goes through,
    the whole mapping replaces the file; an exception is swallowed.  The
    trace records the call with the mapping it was to write. *)
Definition save_geocoding_cache (env : environment) : M unit :=
  λ w, (Ok tt, {| disk := written_file (cache_write env (flushes (trace w)))
                            (disk w) (geocode_cache w);
                  geocode_cache := geocode_cache w;
                  ticks := ticks w;
                  trace := trace w ++ [EvFlush (geocode_cache w)] |}).

(** [PermitProcessor.load_geocoding_cache]: a missing or unreadable file is
    an empty cache. *)
Definition load_geocoding_cache (w : world) : gmap pystr cache_entry :=
  default ∅ (disk w).

(** The request to the service inside the [try] of [geocode_address]. *)
Definition call_service (env : environment) (address : pystr)
  : M api_response :=
  λ w, (Ok (service env (api_calls (trace w)) address),
        {| disk := disk w; geocode_cache := geocode_cache w;
           ticks := ticks w; trace := trace w ++ [EvApiCall address] |}).

(** [datetime.now()] *)
Definition datetime_now (env : environment) : M datetime :=
  λ w, (Ok (clock env (ticks w)),
        {| disk := disk w; geocode_cache := geocode_cache w;
           ticks := S (ticks w); trace := trace w |}).

(** The loop over [cache_keys]: the first key whose entry is a pair. *)
Fixpoint cache_lookup (cache : gmap pystr cache_entry) (keys : list pystr)
  : option (pyfloat * pyfloat) :=
  match keys with
  | [] => None
  | key :: keys' =>
      match cache !! key with
      | Some (Some found) => Some found
      | _ => cache_lookup cache keys'
      end
  end.

Definition key_usable (key : option pystr) : bool :=
  match key with
  | Some (_ :: _) => true
  | _ => false
  end.

(** [f"{address}, {city}, FL {zipcode}".strip(", ")], or the stripped
    address when there is neither city nor zip code. *)
Definition full_address_of (address : pystr) (city zipcode : pyval) : pystr :=
  if truthy city || truthy zipcode
  then strip_comma_space
         (address ++ str ", " ++ py_str city ++ str ", FL " ++ py_str zipcode)
  else py_strip address.

(** [PermitProcessor.geocode_address] *)
Definition geocode_address (self : processor) (env : environment)
    (address : pystr) (city zipcode : pyval)
  : M (option (pyfloat * pyfloat)) :=
  if negb (enable_geocoding self) then ret None
  else
    let full_address := full_address_of address city zipcode in
    let normalized_address := clean_address_for_cache (VStr full_address) in
    cache ← get_cache;
    match cache_lookup cache [full_address; normalized_address] with
    | Some found => ret (Some found)
    | None =>
        if negb (key_usable (google_api_key self)) then ret None
        else
          response ← call_service env full_address;
          match response with
          | ApiFound lat lng =>
              cache_put full_address (Some (lat, lng));;
              save_geocoding_cache env;;
              ret (Some (lat, lng))
          | ApiEmpty =>
              cache_put full_address None;;
              save_geocoding_cache env;;
              ret None
          | ApiError => ret None
          end
    end.

(** ** Normalization of one record *)

Record NormalizedPermit := {
  permit_id : pyval;
  source_county : pyval;
  permit_type : pyval;
  description : pyval;
  address : pyval;
  city : pyval;
  zipcode : pyval;
  coordinates : option (pyfloat * pyfloat);
  applicant_name : pyval;
  contractor_name : pyval;
  permit_value : option pyfloat;
  issue_date : pyval;
  expiration_date : pyval;
  status : pyval;
  last_updated : pystr
}.

(** The per-county tables, each in the order it is written. *)
Definition miami_dade_mapping : list (pystr * pystr) :=
  [ (str "permit_id", str "FOLIO");
    (str "permit_type", str "PERMIT_TYPE");
    (str "description", str "DESC1");
    (str "address", str "ADDRESS");
    (str "city", str "CITY");
    (str "zipcode", str "ZIP");
    (str "applicant_name", str "APPLICANT");
    (str "contractor_name", str "CONTRACTOR");
    (str "permit_value", str "JOB_VAL");
    (str "issue_date", str "ISSUDATE");
    (str "expiration_date", str "EXPRDATE");
    (str "status", str "STATUS") ].

Definition hillsborough_mapping : list (pystr * pystr) :=
  [ (str "permit_id", str "Record Number");
    (str "permit_type", str "Record Type");
    (str "description", str "Description");
    (str "address", str "Address");
    (str "city", str "City");
    (str "zipcode", str "Zip");
    (str "applicant_name", str "Applicant Name");
    (str "contractor_name", str "Contractor Name");
    (str "permit_value", str "Estimated Value");
    (str "issue_date", str "Date");
    (str "expiration_date", str "Expiration Date");
    (str "status", str "Status") ].

Definition field_mappings : gmap pystr (list (pystr * pystr)) :=
  <[str "miami-dade" := miami_dade_mapping]>
    (<[str "hillsborough" := hillsborough_mapping]> ∅).

(** [self.field_mappings.get(county, {})]: the key is hashed first. *)
Definition mapping_of (county : pyval) : M (list (pystr * pystr)) :=
  if negb (hashable county) then raise TypeError
  else
    match county with
    | VStr name => ret (default [] (field_mappings !! name))
    | _ => ret []
    end.

(** The loop over [mapping.items()]. *)
Definition extract_fields (raw_permit : gmap pystr pyval)
    (mapping : list (pystr * pystr)) (normalized_data : gmap pystr pyval)
  : gmap pystr pyval :=
  fold_left
    (λ data item,
       match raw_permit !! item.2 with
       | Some VNone | None => data
       | Some value => <[item.1 := value]> data
       end)
    mapping normalized_data.

(** [f'DESC{i}' for i in range(1, 11)] *)
Definition desc_fields : list pystr :=
  map (λ i, str "DESC" ++ decimal (N.of_nat i)) (seq 1 10).

(** The parts collected from [DESC1] .. [DESC10]. *)
Definition desc_parts (raw_permit : gmap pystr pyval) : list pystr :=
  omap (λ desc_field,
          match raw_permit !! desc_field with
          | Some value =>
              if truthy value then Some (py_strip (py_str value)) else None
          | None => None
          end)
       desc_fields.

(** The conversion of [permit_value]: [None] is Python's [None]. *)
Definition convert_permit_value (value : pyval) : option pyfloat :=
  let value_str := py_strip (remove_char 44 (remove_char 36 (py_str value))) in
  match value_str with
  | [] => None
  | _ => py_float value_str
  end.

Definition required_defaults : list (pystr * pyval) :=
  [ (str "permit_id", VStr (str "UNKNOWN"));
    (str "permit_type", VStr (str "UNKNOWN"));
    (str "description", VStr []);
    (str "address", VStr []);
    (str "city", VStr []);
    (str "zipcode", VStr []) ].

(** The loop over [required_defaults.items()]. *)
Definition fill_defaults (normalized_data : gmap pystr pyval)
  : gmap pystr pyval :=
  fold_left
    (λ data item,
       match data !! item.1 with
       | Some value => if truthy value then data else <[item.1 := item.2]> data
       | None => <[item.1 := item.2]> data
       end)
    required_defaults normalized_data.

(** [normalized_data.get(key, default)] *)
Definition dict_get (data : gmap pystr pyval) (key : pystr) (dflt : pyval)
  : pyval :=
  default dflt (data !! key).

(** [PermitProcessor.normalize_permit].  The dictionary [normalized_data]
    holds the text fields; its entries [permit_value] (a float after the
    conversion) and [coordinates], which nothing reads back before the
    record is built, are carried next to it with their own types. *)
Definition normalize_permit (self : processor) (env : environment)
    (raw_permit : gmap pystr pyval) : M NormalizedPermit :=
  let county := dict_get raw_permit (str "source_county") (VStr (str "unknown")) in
  mapping ← mapping_of county;
  let normalized_data : gmap pystr pyval := {[ str "source_county" := county ]} in
  let normalized_data := extract_fields raw_permit mapping normalized_data in
  let normalized_data :=
    if bool_decide (county = VStr (str "miami-dade")) then
      match desc_parts raw_permit with
      | [] => normalized_data
      | parts =>
          <[str "description" := VStr (join (str " | ") parts)]> normalized_data
      end
    else normalized_data in
  let value :=
    match normalized_data !! str "permit_value" with
    | Some v => convert_permit_value v
    | None => None
    end in
  let normalized_data :=
    match normalized_data !! str "address" with
    | Some a => <[str "address" := VStr (clean_address a)]> normalized_data
    | None => normalized_data
    end in
  now ← datetime_now env;
  let normalized_data :=
    <[str "issue_date" := VStr (strftime_mdY now)]> normalized_data in
  coords ←
    (if enable_geocoding self
        && truthy (dict_get normalized_data (str "address") VNone)
     then geocode_address self env
            (py_str (dict_get normalized_data (str "address") (VStr [])))
            (dict_get normalized_data (str "city") (VStr []))
            (dict_get normalized_data (str "zipcode") (VStr []))
     else ret None);
  let normalized_data := fill_defaults normalized_data in
  stamp ← datetime_now env;
  ret {| permit_id := dict_get normalized_data (str "permit_id") VNone;
         source_county := dict_get normalized_data (str "source_county") VNone;
         permit_type := dict_get normalized_data (str "permit_type") VNone;
         description := dict_get normalized_data (str "description") VNone;
         address := dict_get normalized_data (str "address") VNone;
         city := dict_get normalized_data (str "city") VNone;
         zipcode := dict_get normalized_data (str "zipcode") VNone;
         coordinates := coords;
         applicant_name := dict_get normalized_data (str "applicant_name") VNone;
         contractor_name := dict_get normalized_data (str "contractor_name") VNone;
         permit_value := value;
         issue_date := dict_get normalized_data (str "issue_date") VNone;
         expiration_date := dict_get normalized_data (str "expiration_date") VNone;
         status := dict_get normalized_data (str "status") VNone;
         last_updated := isoformat stamp |}.

(** ** Batches *)

(** The loop of [PermitProcessor.process_permits]: a record that raises is
    logged and passed over. *)
Fixpoint process_loop (self : processor) (env : environment)
    (raw_permits : list (gmap pystr pyval))
    (normalized_permits : list NormalizedPermit)
  : M (list NormalizedPermit) :=
  match raw_permits with
  | [] => ret normalized_permits
  | raw_permit :: rest =>
      normalized_permits' ←
        try_except
          (normalized ← normalize_permit self env raw_permit;
           ret (normalized_permits ++ [normalized]))
          (λ _, ret normalized_permits);
      process_loop self env rest normalized_permits'
  end.

(** [PermitProcessor.process_permits] *)
Definition process_permits (self : processor) (env : environment)
    (raw_permits : list (gmap pystr pyval)) : M (list NormalizedPermit) :=
  process_loop self env raw_permits [].

(** [PermitProcessor.__init__]: the attributes, and the cache read from the
    file. *)
Definition new_processor (env : environment) (enable : bool)
  : M processor :=
  λ w, (Ok {| enable_geocoding := enable; google_api_key := api_key_env env |},
        {| disk := disk w; geocode_cache := load_geocoding_cache w;
           ticks := ticks w; trace := trace w |}).

(** [normalize_and_geocode_permits] *)
Definition normalize_and_geocode_permits (env : environment)
    (raw_permits : list (gmap pystr pyval)) (enable : bool)
  : M (list NormalizedPermit) :=
  self ← new_processor env enable;
  normalized_permits ← process_permits self env raw_permits;
  (if enable then save_geocoding_cache env else ret tt);;
  ret normalized_permits.

(** ** Words and separators *)

(** A text cut into its maximal runs of word characters and the characters
    between them. *)
Inductive token :=
| TWord (w : pystr)
| TSep (c : N).

Definition token_text (t : token) : pystr :=
  match t with
  | TWord w => w
  | TSep c => [c]
  end.

Definition untokens (ts : list token) : pystr := flat_map token_text ts.

Definition ascii_word_char (c : N) : bool := is_word c && is_ascii c.

(** The text is empty or starts with a Basic Latin character that is not a
    word character. *)
Definition starts_sep (s : pystr) : bool :=
  match s with
  | [] => true
  | c :: _ => negb (is_word c) && is_ascii c
  end.

(** A key of the tables: letters, at least one. *)
Definition key_ok (key : pystr) : bool :=
  match key with [] => false | _ => true end && forallb is_alpha key.

(** A Basic Latin word: word characters, at least one. *)
Definition word_ok (w : pystr) : bool :=
  match w with [] => false | _ => true end && forallb ascii_word_char w.

(** [tokens_ok prev_word ts]: [ts] cuts a Basic Latin text that follows a
    character of word-ness [prev_word]: words are not empty, are made of
    word characters and do not touch each other. *)
Fixpoint tokens_ok (prev_word : bool) (ts : list token) : bool :=
  match ts with
  | [] => true
  | TWord w :: ts' =>
      negb prev_word && word_ok w && tokens_ok true ts'
  | TSep c :: ts' => negb (is_word c) && is_ascii c && tokens_ok false ts'
  end.

(** The whole word [w] matches the literal [key]. *)
Fixpoint word_matches (ignorecase : bool) (key w : pystr) : bool :=
  match key, w with
  | [], [] => true
  | k :: key', c :: w' =>
      char_matches ignorecase k c && word_matches ignorecase key' w'
  | _, _ => false
  end.

(** What [re_sub_word] does to one word, and to a whole table of keys. *)
Definition sub_in_word (ignorecase : bool) (key repl w : pystr) : pystr :=
  if word_matches ignorecase key w then repl else w.

Definition table_in_word (ignorecase : bool) (table : list (pystr * pystr))
    (w : pystr) : pystr :=
  fold_left (λ a kv, sub_in_word ignorecase kv.1 kv.2 a) table w.

Definition map_words (f : pystr → pystr) (ts : list token) : list token :=
  map (λ t, match t with TWord w => TWord (f w) | TSep c => TSep c end) ts.

(** A table whose keys are made of letters and whose replacements are
    Basic Latin words. *)
Definition table_ok (table : list (pystr * pystr)) : bool :=
  forallb (λ kv, key_ok kv.1 && word_ok kv.2) table.

(** The Basic Latin block. *)
Definition basic_latin : list N := N.of_nat <$> seq 0 128.

(** ** White space in normal form *)

(** No white space at either end, and inside only single spaces.
    [after_space] tells that the text follows a space or starts. *)
Fixpoint spaced (after_space : bool) (s : pystr) : bool :=
  match s with
  | [] => negb after_space
  | c :: s' =>
      if is_space c then negb after_space && (c =? 32) && spaced true s'
      else spaced false s'
  end.

Definition ws_normal (s : pystr) : bool :=
  match s with
  | [] => true
  | _ => spaced true s
  end.

(** The text is not empty and does not end in white space. *)
Fixpoint ends_clean (s : pystr) : bool :=
  match s with
  | [] => false
  | [c] => negb (is_space c)
  | _ :: s' => ends_clean s'
  end.

Definition ascii_text (s : pystr) : bool := forallb is_ascii s.

(** ** The cache-key cleaner as specified *)

(** The cache-key cleaner as the specification words it: the four rules in
    order, white space, title case, directionals, street types. *)
Definition clean_address_for_cache_as_specified (address : pyval) : pystr :=
  if negb (truthy address) then []
  else
    let address := re_sub_spaces (py_strip (py_str address)) in
    let address := py_title address in
    let address := sub_table true directional_map address in
    sub_table true street_types address.

(** ** One word through the tables *)

(** What [clean_address] does to one word. *)
Definition address_tables : list (pystr * pystr) :=
  directional_map ++ street_types.

Definition clean_word (w : pystr) : pystr :=
  map upper1 (table_in_word true address_tables w).

(** The entries of a table are stable: a replacement is left alone by the
    entries after its own, by the whole table, and by upper-casing. *)
Definition table_stable (table : list (pystr * pystr)) : bool :=
  forallb
    (λ i, match table !! i with
          | Some kv =>
              bool_decide (table_in_word true (drop (S i) table) kv.2 = kv.2)
              && bool_decide (table_in_word true table kv.2 = kv.2)
              && bool_decide (map upper1 kv.2 = kv.2)
          | None => true
          end)
    (seq 0 (length table)).

(** A table that changes the case of letters only. *)
Definition case_only (table : list (pystr * pystr)) : bool :=
  forallb (λ kv, bool_decide (map lower1 kv.1 = map lower1 kv.2)) table.

(** ** The stages of [normalize_permit], named for the proofs *)

Definition county_of (raw_permit : gmap pystr pyval) : pyval :=
  dict_get raw_permit (str "source_county") (VStr (str "unknown")).

Definition county_mapping (county : pyval) : list (pystr * pystr) :=
  match county with
  | VStr name => default [] (field_mappings !! name)
  | _ => []
  end.

(** [normalized_data] after the field mapping and the DESC1..DESC10 step. *)
Definition described_data (raw_permit : gmap pystr pyval)
  : gmap pystr pyval :=
  let county := county_of raw_permit in
  let data :=
    extract_fields raw_permit (county_mapping county)
      {[ str "source_county" := county ]} in
  if bool_decide (county = VStr (str "miami-dade")) then
    match desc_parts raw_permit with
    | [] => data
    | parts => <[str "description" := VStr (join (str " | ") parts)]> data
    end
  else data.

Definition value_of (data : gmap pystr pyval) : option pyfloat :=
  match data !! str "permit_value" with
  | Some v => convert_permit_value v
  | None => None
  end.

Definition cleaned_data (data : gmap pystr pyval) : gmap pystr pyval :=
  match data !! str "address" with
  | Some a => <[str "address" := VStr (clean_address a)]> data
  | None => data
  end.

Definition dated_data (data : gmap pystr pyval) (now : datetime)
  : gmap pystr pyval :=
  <[str "issue_date" := VStr (strftime_mdY now)]> data.

Definition geocode_step (self : processor) (env : environment)
    (data : gmap pystr pyval) : M (option (pyfloat * pyfloat)) :=
  if enable_geocoding self && truthy (dict_get data (str "address") VNone)
  then geocode_address self env
         (py_str (dict_get data (str "address") (VStr [])))
         (dict_get data (str "city") (VStr []))
         (dict_get data (str "zipcode") (VStr []))
  else ret None.

Definition build_permit (data : gmap pystr pyval)
    (coords : option (pyfloat * pyfloat)) (value : option pyfloat)
    (stamp : datetime) : NormalizedPermit :=
  {| permit_id := dict_get data (str "permit_id") VNone;
     source_county := dict_get data (str "source_county") VNone;
     permit_type := dict_get data (str "permit_type") VNone;
     description := dict_get data (str "description") VNone;
     address := dict_get data (str "address") VNone;
     city := dict_get data (str "city") VNone;
     zipcode := dict_get data (str "zipcode") VNone;
     coordinates := coords;
     applicant_name := dict_get data (str "applicant_name") VNone;
     contractor_name := dict_get data (str "contractor_name") VNone;
     permit_value := value;
     issue_date := dict_get data (str "issue_date") VNone;
     expiration_date := dict_get data (str "expiration_date") VNone;
     status := dict_get data (str "status") VNone;
     last_updated := isoformat stamp |}.

Definition tick (w : world) : world :=
  {| disk := disk w; geocode_cache := geocode_cache w;
     ticks := S (ticks w); trace := trace w |}.

(** The first source field a table gives for a standard field. *)
Fixpoint source_field_of (mapping : list (pystr * pystr)) (field : pystr)
  : option pystr :=
  match mapping with
  | [] => None
  | item :: rest =>
      if bool_decide (item.1 = field) then Some item.2
      else source_field_of rest field
  end.

(** [raw_permit.get(source_field)] when it is not [None]. *)
Definition raw_value (raw_permit : gmap pystr pyval) (source : pystr)
  : option pyval :=
  match raw_permit !! source with
  | Some VNone | None => None
  | Some value => Some value
  end.

(** ** The shape of the external effects *)

(** The effects of cache look-ups made one after another, the first request
    to the service being request number [n]: each is one request, followed
    by a flush of the cache exactly when the request was answered. *)
Inductive lookup_effects (env : environment) : nat → list event → Prop :=
| effects_nil n : lookup_effects env n []
| effects_failed n address rest :
    service env n address = ApiError →
    lookup_effects env (S n) rest →
    lookup_effects env n (EvApiCall address :: rest)
| effects_answered n address contents rest :
    service env n address ≠ ApiError →
    lookup_effects env (S n) rest →
    lookup_effects env n (EvApiCall address :: EvFlush contents :: rest).

(** The requests of [tr] that the service answered (with or without a
    result), the first request of [tr] being request number [n]. *)
Fixpoint answered_calls (env : environment) (n : nat) (tr : list event)
  : nat :=
  match tr with
  | [] => 0
  | EvApiCall address :: rest =>
      (match service env n address with ApiError => 0 | _ => 1 end
       + answered_calls env (S n) rest)%nat
  | EvFlush _ :: rest => answered_calls env n rest
  end.

(** The entry of a standard field after the mapping loop. *)
Definition mapped_value (raw : gmap pystr pyval) (field : pystr)
  : option pyval :=
  source_field_of (county_mapping (county_of raw)) field ≫= raw_value raw.

(** ** The record and the cache *)

(** The key under which [normalize_permit] looks a record's address up:
    the full address built from the cleaned address, the city and the zip
    code. *)
Definition lookup_key (raw_permit : gmap pystr pyval) : pystr :=
  let data := cleaned_data (described_data raw_permit) in
  full_address_of (py_str (dict_get data (str "address") (VStr [])))
    (dict_get data (str "city") (VStr []))
    (dict_get data (str "zipcode") (VStr [])).

(** Does the record have an address once it is cleaned? *)
Definition has_address (raw_permit : gmap pystr pyval) : bool :=
  truthy (dict_get (cleaned_data (described_data raw_permit))
            (str "address") VNone).

(** The text of the record's address, as it stands before the cleaning,
    is Basic Latin: there the cleaning of the model is the program's. *)
Definition ascii_address (raw_permit : gmap pystr pyval) : bool :=
  match described_data raw_permit !! str "address" with
  | Some a => ascii_text (py_str a)
  | None => true
  end.

(** The cache holds a pair of coordinates under [key]. *)
Definition holds_pair (cache : gmap pystr cache_entry) (key : pystr) : Prop :=
  ∃ found, cache !! key = Some (Some found).

(** ** The DESC1..DESC10 fields *)

(** The values of [DESC1] .. [DESC10] that are present and true, in index
    order. *)
Definition kept_desc_values (raw_permit : gmap pystr pyval) : list pyval :=
  omap (λ desc_field,
          match raw_permit !! desc_field with
          | Some value => if truthy value then Some value else None
          | None => None
          end)
       desc_fields.

(** The description as the specification words it: the kept fields joined,
    as they are, with [" | "]. *)
Definition description_as_specified (raw_permit : gmap pystr pyval)
  : pystr :=
  join (str " | ") (py_str <$> kept_desc_values raw_permit).

(** The two mapped counties with the source field each maps to
    [permit_value]. *)
Definition permit_value_sources : list (pystr * pystr) :=
  [ (str "miami-dade", str "JOB_VAL");
    (str "hillsborough", str "Estimated Value") ].

(** ** What a batch is to produce *)

(** [batch_run self env w raws ps w']: going through [raws] from the state
    [w], the records that normalize are [ps], in the order of [raws], a
    record that raises leaves nothing, and the state at the end is [w']. *)
Inductive batch_run (self : processor) (env : environment)
  : world → list (gmap pystr pyval) → list NormalizedPermit → world → Prop :=
| batch_nil w : batch_run self env w [] [] w
| batch_ok w raw p w1 rest ps w2 :
    normalize_permit self env raw w = (Ok p, w1) →
    batch_run self env w1 rest ps w2 →
    batch_run self env w (raw :: rest) (p :: ps) w2
| batch_skip w raw e w1 rest ps w2 :
    normalize_permit self env raw w = (Raise e, w1) →
    batch_run self env w1 rest ps w2 →
    batch_run self env w (raw :: rest) ps w2.

(** [p] is what [raw] normalizes to in some state. *)
Definition normalizes_to (self : processor) (env : environment)
    (raw : gmap pystr pyval) (p : NormalizedPermit) : Prop :=
  ∃ w w', normalize_permit self env raw w = (Ok p, w').

(** The records of a batch that do not raise. *)
Definition survivors (raw_permits : list (gmap pystr pyval))
  : list (gmap pystr pyval) :=
  List.filter (λ raw, hashable (county_of raw)) raw_permits.

(** ** Sample data *)

(** The record of the module's self-test, with a permit value. *)
Definition sample_permit : gmap pystr pyval :=
  list_to_map
    [ (str "FOLIO", VStr (str "TEST123"));
      (str "PERMIT_TYPE", VStr (str "Building"));
      (str "DESC1", VStr (str "Kitchen renovation"));
      (str "ADDRESS", VStr (str "123 Main Street"));
      (str "CITY", VStr (str "Miami"));
      (str "ZIP", VStr (str "33101"));
      (str "JOB_VAL", VStr (str "$12,345.00"));
      (str "ISSUDATE", VStr (str "01/15/2019"));
      (str "source_county", VStr (str "miami-dade")) ].

Definition sample_clock (n : nat) : datetime :=
  {| year := 2025; month := 7; day := 4; hour := 9; minute := 30;
     second := 0; microsecond := N.of_nat n |}.

Definition sample_coords : pyfloat * pyfloat :=
  (FNum (Qmake 103 4), FNum (Qmake (-321) 4)).

(** A service that finds every address, one that finds none, one that
    fails. *)
Definition finding_env : environment :=
  {| api_key_env := Some (str "key");
     service := λ _ _, ApiFound sample_coords.1 sample_coords.2;
     clock := sample_clock;
     cache_write := λ _, Written |}.
Definition empty_env : environment :=
  {| api_key_env := Some (str "key");
     service := λ _ _, ApiEmpty;
     clock := sample_clock;
     cache_write := λ _, Written |}.
Definition failing_env : environment :=
  {| api_key_env := Some (str "key");
     service := λ _ _, ApiError;
     clock := sample_clock;
     cache_write := λ _, Written |}.

Definition geocoding_processor : processor :=
  {| enable_geocoding := true; google_api_key := Some (str "key") |}.

Definition fresh_world : world :=
  {| disk := None; geocode_cache := ∅; ticks := 0; trace := [] |}.

(** A list as tag: it cannot be hashed. *)
Definition list_tag : pyval := VObj false true (str "['miami-dade']").

(** The record of the specification's example: DESC1 and DESC3, no
    DESC2. *)
Definition roof_permit : gmap pystr pyval :=
  list_to_map
    [ (str "source_county", VStr (str "miami-dade"));
      (str "DESC1", VStr (str "Roof repair"));
      (str "DESC3", VStr (str "Reroof")) ].

(** The same with a space at the end of DESC1. *)
Definition padded_roof_permit : gmap pystr pyval :=
  <[str "DESC1" := VStr (str "Roof repair ")]> roof_permit.

(** A world whose cache already holds the sample record's address. *)
Definition cached_world : world :=
  {| disk := None;
     geocode_cache := {[ str "123 MAIN ST, Miami, FL 33101" := Some sample_coords ]};
     ticks := 0; trace := [] |}.

(** Ten records [P1] .. [P10]; the fifth carries a list as county tag. *)
Definition ten_permits : list (gmap pystr pyval) :=
  map (λ i,
         <[str "FOLIO" := VStr (str "P" ++ decimal (N.of_nat i))]>
           (if Nat.eqb i 5
            then <[str "source_county" := list_tag]> sample_permit
            else sample_permit))
      (seq 1 10).

(** ** The dictionary of a record *)

(** The values of the dictionary [asdict] makes of a record: a field that
    holds a raw value, the coordinates, the permit value, the time stamp. *)
Inductive field_value :=
| FText (v : pyval)
| FCoords (c : option (pyfloat * pyfloat))
| FFloat (f : option pyfloat)
| FStamp (s : pystr).

(** The fields that hold a raw value, in the order of the dataclass. *)
Definition text_fields (p : NormalizedPermit) : list (pystr * pyval) :=
  [ (str "permit_id", permit_id p);
    (str "source_county", source_county p);
    (str "permit_type", permit_type p);
    (str "description", description p);
    (str "address", address p);
    (str "city", city p);
    (str "zipcode", zipcode p);
    (str "applicant_name", applicant_name p);
    (str "contractor_name", contractor_name p);
    (str "issue_date", issue_date p);
    (str "expiration_date", expiration_date p);
    (str "status", status p) ].

(** [dataclasses.asdict(normalized)] *)
Definition asdict (p : NormalizedPermit) : gmap pystr field_value :=
  list_to_map
    (((λ kv, (kv.1, FText kv.2)) <$> text_fields p)
       ++ [ (str "coordinates", FCoords (coordinates p));
            (str "permit_value", FFloat (permit_value p));
            (str "last_updated", FStamp (last_updated p)) ]).

(** ** What the cache keeps *)

(** Every pair of coordinates of [cache] is in [cache'], under the same
    key. *)
Definition pairs_kept (cache cache' : gmap pystr cache_entry) : Prop :=
  ∀ key found, cache !! key = Some (Some found) →
               cache' !! key = Some (Some found).

(** The coordinates of a record, when it has any, are a pair of [cache]. *)
Definition coordinates_from (cache : gmap pystr cache_entry)
    (p : NormalizedPermit) : Prop :=
  ∀ found, coordinates p = Some found →
           ∃ key, cache !! key = Some (Some found).

(** The fields that the mapping loop fills and nothing changes afterwards
    except the defaults. *)
Definition copied_fields : list pystr :=
  [ str "permit_id"; str "permit_type"; str "city"; str "zipcode";
    str "applicant_name"; str "contractor_name"; str "expiration_date";
    str "status" ].

(** What a copied field holds in the end, given what the raw record holds
    under its source field: the value itself, or the default of a required
    field when the value is absent, [None] or false. *)
Definition copied_value (field : pystr) (raw : option pyval) : pyval :=
  match list_find (λ item : pystr * pyval, item.1 = field) required_defaults with
  | Some (_, item) =>
      match raw with
      | Some value => if truthy value then value else item.2
      | None => item.2
      end
  | None => default VNone raw
  end.

(** The state apart from the clock. *)
Definition same_outside (w w' : world) : Prop :=
  disk w' = disk w ∧ geocode_cache w' = geocode_cache w ∧ trace w' = trace w.


(** No key of a table matches a replacement of the table. *)
Definition replacements_unmatched (table : list (pystr * pystr)) : bool :=
  forallb (λ kv, forallb (λ kv', negb (word_matches true kv'.1 kv.2)) table)
          table.

(** ** Decimal digits *)

(** The number that the digits [d] continue, most significant first, from
    the number [acc] read so far. *)
Fixpoint uint_value (acc : N) (d : Decimal.uint) : N :=
  match d with
  | Decimal.Nil => acc
  | Decimal.D0 d => uint_value (acc * 10 + 0) d
  | Decimal.D1 d => uint_value (acc * 10 + 1) d
  | Decimal.D2 d => uint_value (acc * 10 + 2) d
  | Decimal.D3 d => uint_value (acc * 10 + 3) d
  | Decimal.D4 d => uint_value (acc * 10 + 4) d
  | Decimal.D5 d => uint_value (acc * 10 + 5) d
  | Decimal.D6 d => uint_value (acc * 10 + 6) d
  | Decimal.D7 d => uint_value (acc * 10 + 7) d
  | Decimal.D8 d => uint_value (acc * 10 + 8) d
  | Decimal.D9 d => uint_value (acc * 10 + 9) d
  end.

(** ** More sample data *)

(** The sample record with its value as a number of the JSON response. *)
Definition valued_permit : gmap pystr pyval :=
  <[str "JOB_VAL" := VInt 250000]> sample_permit.

(** A processor with geocoding on and no API key, and one with geocoding
    off. *)
Definition cache_only_processor : processor :=
  {| enable_geocoding := true; google_api_key := None |}.
Definition plain_processor : processor :=
  {| enable_geocoding := false; google_api_key := Some (str "key") |}.

(** * Documents for the vector store

    The loop of [upload_permits_to_chroma] in
    [src/database/upload_to_chroma.py] that turns the dictionaries of
    [process_permits] into documents. *)

(** [bool(f)] *)
Definition float_truthy (f : pyfloat) : bool :=
  match f with
  | FNum q => negb (Qeq_bool q 0)
  | FInf _ | FNan => true
  end.

(** [bool(v)] for a value of a record's dictionary. *)
Definition field_truthy (v : field_value) : bool :=
  match v with
  | FText v => truthy v
  | FCoords c => match c with Some _ => true | None => false end
  | FFloat f => match f with Some f => float_truthy f | None => false end
  | FStamp s => match s with [] => false | _ :: _ => true end
  end.

(** [v.strip()]: of the values a record's dictionary holds (JSON values,
    floats, pairs of floats) only a string has the method; [None] is
    [AttributeError]. *)
Definition field_strip (v : field_value) : option pystr :=
  match v with
  | FText (VStr s) => Some (py_strip s)
  | FStamp s => Some (py_strip s)
  | _ => None
  end.

(** [permit.get(key)] when it is true, which is then [permit[key]]. *)
Definition true_field (permit : gmap pystr field_value) (key : pystr)
  : option field_value :=
  match permit !! key with
  | Some v => if field_truthy v then Some v else None
  | None => None
  end.

(** A LangChain [Document]. *)
Record Document := {
  page_content : pystr;
  metadata : gmap pystr field_value
}.

(** The entries of the [metadata] literal: the key, the key of the permit
    it is read from, and the default of [permit.get]. *)
Definition metadata_fields : list (pystr * (pystr * pyval)) :=
  [ (str "permit_id", (str "permit_id", VStr (str "UNKNOWN")));
    (str "record_number", (str "permit_id", VStr (str "UNKNOWN")));
    (str "source_county", (str "source_county", VStr (str "unknown")));
    (str "permit_type", (str "permit_type", VStr []));
    (str "record_type", (str "permit_type", VStr []));
    (str "address", (str "address", VStr []));
    (str "city", (str "city", VStr []));
    (str "zipcode", (str "zipcode", VStr []));
    (str "status", (str "status", VStr []));
    (str "issue_date", (str "issue_date", VStr []));
    (str "date_issued", (str "issue_date", VStr []));
    (str "expiration_date", (str "expiration_date", VStr []));
    (str "last_updated", (str "last_updated", VStr [])) ].

(** What an iteration of the loop comes to: a document, a permit skipped
    for its blank content, or one skipped for an exception. *)
Inductive prepared :=
| Prepared (d : Document)
| Blank
| Failed.

Section documents.

(** [str(f)] of a float, which this development leaves open. *)
Variable float_text : pyfloat → pystr.

(** [str(v)] for a value of a record's dictionary. *)
Definition field_str (v : field_value) : pystr :=
  match v with
  | FText v => py_str v
  | FCoords (Some (lat, lng)) =>
      str "(" ++ float_text lat ++ str ", " ++ float_text lng ++ str ")"
  | FCoords None => str "None"
  | FFloat (Some f) => float_text f
  | FFloat None => str "None"
  | FStamp s => s
  end.

(** The [metadata] dictionary of a permit. *)
Definition metadata_of (permit : gmap pystr field_value)
  : gmap pystr field_value :=
  let metadata : gmap pystr field_value :=
    list_to_map
      ((λ item : pystr * (pystr * pyval),
          (item.1, default (FText item.2.2) (permit !! item.2.1)))
         <$> metadata_fields) in
  let metadata :=
    match true_field permit (str "applicant_name") with
    | Some v => <[str "applicant_name" := v]> metadata
    | None => metadata
    end in
  let metadata :=
    match true_field permit (str "contractor_name") with
    | Some v => <[str "contractor_name" := v]> metadata
    | None => metadata
    end in
  match true_field permit (str "permit_value") with
  | Some v => <[str "permit_value" := FText (VStr (field_str v))]> metadata
  | None => metadata
  end.

(** The parts collected for the content, of which only the non-empty ones
    are joined. *)
Definition content_parts (permit : gmap pystr field_value) : list pystr :=
  let part key :=
    match true_field permit key with
    | Some v => [py_strip (field_str v)]
    | None => []
    end in
  part (str "description") ++ part (str "address") ++ part (str "permit_type").

(** The content of the document; [None] is [AttributeError]. *)
Definition content_of (permit : gmap pystr field_value) : option pystr :=
  match true_field permit (str "description"),
        true_field permit (str "address") with
  | Some d, Some a =>
      d' ← field_strip d; a' ← field_strip a; Some (d' ++ str " | " ++ a')
  | Some d, None => field_strip d
  | None, Some a => field_strip a
  | None, None =>
      Some (join (str " ")
              (List.filter (λ part, negb (bool_decide (part = [])))
                 (content_parts permit)))
  end.

(** The body of the loop over the permits. *)
Definition prepare_document (permit : gmap pystr field_value) : prepared :=
  match content_of permit with
  | None => Failed
  | Some content =>
      match py_strip content with
      | [] => Blank
      | _ :: _ =>
          Prepared {| page_content := content;
                      metadata := metadata_of permit |}
      end
  end.

(** The loop: the documents so far and the number of permits skipped. *)
Fixpoint prepare_loop (permits : list (gmap pystr field_value))
    (documents : list Document) (skipped : nat) : list Document * nat :=
  match permits with
  | [] => (documents, skipped)
  | permit :: rest =>
      match prepare_document permit with
      | Prepared d => prepare_loop rest (documents ++ [d]) skipped
      | Blank | Failed => prepare_loop rest documents (S skipped)
      end
  end.

Definition prepare_documents (permits : list (gmap pystr field_value))
  : list Document * nat :=
  prepare_loop permits [] 0.

End documents.

(** The document of a permit, when it gets one. *)
Definition document_of (float_text : pyfloat → pystr)
    (permit : gmap pystr field_value) : option Document :=
  match prepare_document float_text permit with
  | Prepared d => Some d
  | Blank | Failed => None
  end.

(** A text for floats, for the examples: every float prints as [1.0]. *)
Definition sample_float_text (f : pyfloat) : pystr := str "1.0".

(** * The fetchers

    [src/data_fetchers/hillsborough_permits.py] and
    [src/data_fetchers/miamidade_fetch.py]. *)

(** [permit['source_county'] = name] *)
Definition tag_county (name : string) (permit : gmap pystr pyval)
  : gmap pystr pyval :=
  <[str "source_county" := VStr (str name)]> permit.

(** [l[:m]] *)
Definition slice_to {A} (m : Z) (l : list A) : list A :=
  if (0 <=? m)%Z then take (Z.to_nat m) l
  else take (length l - Z.to_nat (- m)) l.

(** The data file of the Hillsborough fetcher: absent, not readable as
    CSV, or its rows as [df.to_dict('records')] gives them. *)
Inductive csv_file :=
| NoFile
| Unreadable
| Rows (rows : list (gmap pystr pyval)).

(** The rows of the data file, none when it is absent or unreadable. *)
Definition rows_of (existing_file : csv_file) : list (gmap pystr pyval) :=
  match existing_file with
  | Rows rows => rows
  | NoFile | Unreadable => []
  end.

(** [fetch_hillsborough_permits], which [fetch_hillsborough_permits_sync]
    runs to its end; [days_back] is not used. *)
Definition fetch_hillsborough_permits (existing_file : csv_file)
    (max_records : option Z) : list (gmap pystr pyval) :=
  match existing_file with
  | Rows rows =>
      let permits := tag_county "hillsborough" <$> rows in
      match max_records with
      | Some m =>
          if negb (m =? 0)%Z && (m <? Z.of_nat (length permits))%Z
          then slice_to m permits
          else permits
      | None => permits
      end
  | NoFile | Unreadable => []
  end.

(** What a request to the ArcGIS service comes to: a
    [requests.RequestException], a response without features, or a
    response with its features' attributes. *)
Inductive page :=
| RequestFailed
| NoFeatures
| Features (batch : list (gmap pystr pyval)).

(** [max_records and len(all_records) >= max_records] *)
Definition limit_reached (max_records : option Z)
    (all_records : list (gmap pystr pyval)) : bool :=
  match max_records with
  | Some m => negb (m =? 0)%Z && (m <=? Z.of_nat (length all_records))%Z
  | None => false
  end.

Definition batch_size : nat := 2000.

(** The [while True] loop of [fetch_miamidade_permits], for at most [fuel]
    iterations; [None] when these were not enough.  [arcgis offset] is
    the answer of the service to the query at [resultOffset = offset]. *)
Fixpoint fetch_loop (fuel : nat) (arcgis : nat → page)
    (max_records : option Z) (all_records : list (gmap pystr pyval))
    (offset : nat) : option (list (gmap pystr pyval)) :=
  match fuel with
  | O => None
  | S fuel' =>
      if limit_reached max_records all_records then Some all_records
      else
        match arcgis offset with
        | RequestFailed => Some all_records
        | NoFeatures | Features [] => Some all_records
        | Features batch =>
            fetch_loop fuel' arcgis max_records
              (all_records ++ (tag_county "miami-dade" <$> batch))
              (offset + batch_size)
        end
  end.

(** [fetch_miamidade_permits] *)
Definition fetch_miamidade_permits (fuel : nat) (arcgis : nat → page)
    (max_records : option Z) : option (list (gmap pystr pyval)) :=
  fetch_loop fuel arcgis max_records [] 0.

(** The pages at the offsets [0], [2000], ..: those before the first
    request that fails or brings no features, at most [n] of them. *)
Fixpoint pages_from (n : nat) (arcgis : nat → page) (offset : nat)
  : list (list (gmap pystr pyval)) :=
  match n with
  | O => []
  | S n' =>
      match arcgis offset with
      | Features (record :: batch) =>
          (record :: batch) :: pages_from n' arcgis (offset + batch_size)
      | _ => []
      end
  end.

(** ** Sample data for the documents and the fetchers *)

(** A Hillsborough record whose description is a number. *)
Definition numbered_permit : gmap pystr pyval :=
  list_to_map
    [ (str "Record Number", VStr (str "HC-BLD-25-0001"));
      (str "Description", VInt 7);
      (str "Address", VStr (str "601 E Kennedy Blvd"));
      (str "source_county", VStr (str "hillsborough")) ].

(** A service with one page of two records. *)
Definition sample_arcgis (offset : nat) : page :=
  match offset with
  | O => Features [sample_permit; roof_permit]
  | S _ => NoFeatures
  end.

(** * The upload and the pipeline

    [upload_permits_to_chroma] around its document loop, and the class
    [PermitPipeline] of [main.py].  What lies outside the program (the
    fetchers' sources, the files the pipeline writes, the embedding service
    and the vector store) is given by an environment. *)

(** The message of an upload that did not succeed. *)
Inductive upload_error :=
| NoValidDocuments
| StoreException.

(** The dictionary that an upload returns, by its [status]: ["no_data"],
    ["error"] or ["success"]. *)
Inductive upload_result :=
| UploadNoData
| UploadError (message : upload_error)
| UploadSuccess (uploaded skipped total_in_db : nat).

(** [upload_result.get('uploaded', 0)] *)
Definition uploaded_of (r : upload_result) : nat :=
  match r with
  | UploadSuccess uploaded _ _ => uploaded
  | UploadNoData | UploadError _ => 0%nat
  end.

(** The embedding service and the vector store: the API key of the
    environment, whether [OpenAIEmbeddings] can be set up, and what adding
    documents to the collection and counting it comes to ([None]: an
    exception). *)
Record vector_store := {
  openai_api_key : option pystr;
  embeddings_ok : bool;
  add_documents : list Document → option nat
}.

Section upload.

Variable float_text : pyfloat → pystr.

(** [upload_permits_to_chroma]; [None] is the [ValueError] for the missing
    key, raised outside the [try]. *)
Definition upload_permits_to_chroma (store : vector_store)
    (permits : list (gmap pystr field_value)) : option upload_result :=
  if negb (key_usable (openai_api_key store)) then None
  else if negb (embeddings_ok store) then Some (UploadError StoreException)
  else
    let '(documents, skipped) := prepare_documents float_text permits in
    match documents with
    | [] => Some (UploadError NoValidDocuments)
    | _ :: _ =>
        match add_documents store documents with
        | Some total_count =>
            Some (UploadSuccess (length documents) skipped total_count)
        | None => Some (UploadError StoreException)
        end
    end.

End upload.

(** What the pipeline finds outside: what each fetcher returns ([None]: it
    raises), whether the two JSON files can be written, and the store. *)
Record pipeline_env := {
  miami_dade_permits : option (list (gmap pystr pyval));
  hillsborough_permits : option (list (gmap pystr pyval));
  raw_file_written : bool;
  processed_file_written : bool;
  store : vector_store
}.

(** The dictionary that [run_pipeline] returns, by its [status]:
    ["no_data"], ["processing_failed"], ["success"] or ["failed"]; the
    duration and the time stamp of a success are left out. *)
Inductive pipeline_result :=
| NoData
| ProcessingFailed
| Success (permits_fetched permits_processed permits_uploaded : nat)
          (upload_details : upload_result)
| PipelineFailed.

(** The permits of both counties, Miami-Dade first; a fetcher that raises
    gives none. *)
Definition fetched (penv : pipeline_env) : list (gmap pystr pyval) :=
  default [] (miami_dade_permits penv)
    ++ default [] (hillsborough_permits penv).

Module PermitPipeline.
Section pipeline.

Variable float_text : pyfloat → pystr.
Variable penv : pipeline_env.
Variable env : environment.

(** [PermitPipeline.fetch_permits]; [None] is an exception of the file
    being written. *)
Definition fetch_permits (w : world)
  : option (list (gmap pystr pyval)) * world :=
  let all_permits := fetched penv in
  match all_permits with
  | [] => (Some all_permits, w)
  | _ :: _ =>
      if raw_file_written penv then (Some all_permits, tick w)
      else (None, tick w)
  end.

(** [PermitPipeline.process_permits], which hands on the dictionaries of
    the records; [None] is an exception, raised again by the handler. *)
Definition process_permits (raw_permits : list (gmap pystr pyval))
    (w : world) : option (list (gmap pystr field_value)) * world :=
  match raw_permits with
  | [] => (Some [], w)
  | _ :: _ =>
      match normalize_and_geocode_permits env raw_permits true w with
      | (Ok processed_permits, w) =>
          if processed_file_written penv
          then (Some (asdict <$> processed_permits), tick w)
          else (None, tick w)
      | (Raise _, w) => (None, w)
      end
  end.

(** [PermitPipeline.upload_to_database] *)
Definition upload_to_database
    (processed_permits : list (gmap pystr field_value))
  : option upload_result :=
  match processed_permits with
  | [] => Some UploadNoData
  | _ :: _ =>
      upload_permits_to_chroma float_text (store penv) processed_permits
  end.

(** [PermitPipeline.run_pipeline] *)
Definition run_pipeline (w : world) : pipeline_result * world :=
  let w := tick w in
  match fetch_permits w with
  | (None, w) => (PipelineFailed, w)
  | (Some [], w) => (NoData, w)
  | (Some ((_ :: _) as raw_permits), w) =>
      match process_permits raw_permits w with
      | (None, w) => (PipelineFailed, w)
      | (Some [], w) => (ProcessingFailed, w)
      | (Some ((_ :: _) as processed_permits), w) =>
          match upload_to_database processed_permits with
          | None => (PipelineFailed, w)
          | Some upload_result =>
              (Success (length raw_permits) (length processed_permits)
                 (uploaded_of upload_result) upload_result,
               tick w)
          end
      end
  end.

End pipeline.
End PermitPipeline.

(** ** Sample data for the pipeline *)

(** A store that takes every document, one that cannot be set up, and one
    without the key. *)
Definition sample_store : vector_store :=
  {| openai_api_key := Some (str "sk-test");
     embeddings_ok := true;
     add_documents := λ documents, Some (length documents) |}.
Definition broken_store : vector_store :=
  {| openai_api_key := Some (str "sk-test");
     embeddings_ok := false;
     add_documents := λ _, None |}.
Definition keyless_store : vector_store :=
  {| openai_api_key := None;
     embeddings_ok := true;
     add_documents := λ documents, Some (length documents) |}.

(** The two fetchers on the sample service and on a file of one row. *)
Definition sample_pipeline (s : vector_store) : pipeline_env :=
  {| miami_dade_permits := fetch_miamidade_permits 2 sample_arcgis None;
     hillsborough_permits :=
       Some (fetch_hillsborough_permits (Rows [numbered_permit]) None);
     raw_file_written := true;
     processed_file_written := true;
     store := s |}.

(** * Properties *)

(** ** Running [normalize_permit] *)

Lemma mapping_of_hashable county w :
  hashable county = true →
  mapping_of county w = (Ok (county_mapping county), w).
Proof.
  intros Hh. unfold mapping_of, county_mapping. rewrite Hh. simpl.
  by destruct county.
Qed.

Lemma mapping_of_unhashable county w :
  hashable county = false → mapping_of county w = (Raise TypeError, w).
Proof. intros Hh. unfold mapping_of. by rewrite Hh. Qed.

Lemma normalize_permit_raises self env raw w :
  hashable (county_of raw) = false →
  normalize_permit self env raw w = (Raise TypeError, w).
Proof.
  intros Hh. unfold normalize_permit, mbind, M_bind, bind.
  fold (county_of raw). by rewrite mapping_of_unhashable.
Qed.

Lemma normalize_permit_run self env raw w coords w' :
  hashable (county_of raw) = true →
  geocode_step self env
    (dated_data (cleaned_data (described_data raw)) (clock env (ticks w)))
    (tick w) = (Ok coords, w') →
  normalize_permit self env raw w =
    (Ok (build_permit
           (fill_defaults
              (dated_data (cleaned_data (described_data raw))
                 (clock env (ticks w))))
           coords (value_of (described_data raw)) (clock env (ticks w'))),
     tick w').
Proof.
  intros Hh Hg. unfold normalize_permit, mbind, M_bind, bind.
  fold (county_of raw). rewrite mapping_of_hashable by done.
  unfold datetime_now at 1. cbv beta iota.
  unfold geocode_step in Hg. unfold dated_data, cleaned_data, described_data in Hg.
  fold (tick w). rewrite Hg. reflexivity.
Qed.

(** ** The dictionary loops *)

Lemma source_field_of_fresh mapping field :
  field ∉ mapping.*1 → source_field_of mapping field = None.
Proof.
  induction mapping as [|[a b] rest IH]; [done|].
  rewrite fmap_cons, not_elem_of_cons. intros [Hne Hnotin].
  cbn [source_field_of fst snd]. case_bool_decide; [done|auto].
Qed.

Lemma extract_fields_lookup raw mapping data field :
  NoDup mapping.*1 →
  extract_fields raw mapping data !! field =
    match source_field_of mapping field ≫= raw_value raw with
    | Some value => Some value
    | None => data !! field
    end.
Proof.
  unfold extract_fields. revert data.
  induction mapping as [|[std src] rest IH]; intros data Hnd; [done|].
  rewrite fmap_cons, NoDup_cons in Hnd. destruct Hnd as [Hnotin Hnd].
  cbn [fold_left fst snd] in *.
  rewrite IH by done. cbn [source_field_of fst snd].
  case_bool_decide as Heq.
  - subst std. rewrite source_field_of_fresh by done.
    cbn. unfold raw_value.
    destruct (raw !! src) as [[]|]; by rewrite ?lookup_insert_eq.
  - destruct (source_field_of rest field ≫= raw_value raw); [done|].
    destruct (raw !! src) as [[]|]; by rewrite ?lookup_insert_ne.
Qed.

Lemma fill_loop_lookup (defaults : list (pystr * pyval))
    (data : gmap pystr pyval) (field : pystr) :
  NoDup defaults.*1 →
  fold_left
    (λ (data : gmap pystr pyval) (item : pystr * pyval),
       match data !! item.1 with
       | Some value => if truthy value then data else <[item.1 := item.2]> data
       | None => <[item.1 := item.2]> data
       end) defaults data !! field =
    match list_find (λ item, item.1 = field) defaults with
    | Some (_, item) =>
        match data !! field with
        | Some value => if truthy value then Some value else Some item.2
        | None => Some item.2
        end
    | None => data !! field
    end.
Proof.
  revert data. induction defaults as [|[key dflt] rest IH]; intros data Hnd; [done|].
  rewrite fmap_cons, NoDup_cons in Hnd. destruct Hnd as [Hnotin Hnd].
  cbn [fold_left fst snd list_find] in *.
  rewrite IH by done. case_decide as Heq; cbn [fst] in Heq.
  - subst key.
    assert (list_find (λ item : pystr * pyval, item.1 = field) rest = None) as ->.
    { apply list_find_None. apply Forall_forall. intros [a b] Hin Heq.
      cbn in Heq. apply Hnotin. apply list_elem_of_fmap. by exists (a, b). }
    cbn. destruct (data !! field) as [v|] eqn:E.
    + destruct (truthy v); by rewrite ?E, ?lookup_insert_eq.
    + by rewrite lookup_insert_eq.
  - destruct (list_find _ rest) as [[i item]|]; cbn.
    + destruct (data !! key) as [v|]; [destruct (truthy v)|];
        by rewrite ?lookup_insert_ne.
    + destruct (data !! key) as [v|]; [destruct (truthy v)|];
        by rewrite ?lookup_insert_ne.
Qed.

Lemma required_defaults_NoDup : NoDup required_defaults.*1.
Proof. by apply (bool_decide_unpack _). Qed.

Lemma miami_dade_mapping_NoDup : NoDup miami_dade_mapping.*1.
Proof. by apply (bool_decide_unpack _). Qed.

Lemma hillsborough_mapping_NoDup : NoDup hillsborough_mapping.*1.
Proof. by apply (bool_decide_unpack _). Qed.

Lemma fill_defaults_lookup data field :
  fill_defaults data !! field =
    match list_find (λ item, item.1 = field) required_defaults with
    | Some (_, item) =>
        match data !! field with
        | Some value => if truthy value then Some value else Some item.2
        | None => Some item.2
        end
    | None => data !! field
    end.
Proof. apply fill_loop_lookup, required_defaults_NoDup. Qed.

(** ** Geocoding *)

Lemma api_calls_app tr1 tr2 :
  api_calls (tr1 ++ tr2) = (api_calls tr1 + api_calls tr2)%nat.
Proof. unfold api_calls. by rewrite List.filter_app, length_app. Qed.

Lemma flushes_app tr1 tr2 :
  flushes (tr1 ++ tr2) = (flushes tr1 + flushes tr2)%nat.
Proof. unfold flushes. by rewrite List.filter_app, length_app. Qed.

Lemma lookup_effects_app env n tr1 tr2 :
  lookup_effects env n tr1 →
  lookup_effects env (n + api_calls tr1) tr2 →
  lookup_effects env n (tr1 ++ tr2).
Proof.
  induction 1 as [n|n a rest Herr _ IH|n a c rest Hans _ IH]; intros H2.
  - by rewrite Nat.add_0_r in H2.
  - cbn. apply effects_failed; [done|]. apply IH.
    by replace (S n + api_calls rest)%nat
      with (n + api_calls (EvApiCall a :: rest))%nat
      by (unfold api_calls; cbn; lia).
  - cbn. apply effects_answered; [done|]. apply IH.
    by replace (S n + api_calls rest)%nat
      with (n + api_calls (EvApiCall a :: EvFlush c :: rest))%nat
      by (unfold api_calls; cbn; lia).
Qed.

Lemma lookup_effects_flushes env n tr :
  lookup_effects env n tr → flushes tr = answered_calls env n tr.
Proof.
  induction 1 as [n|n a rest Herr _ IH|n a c rest Hans _ IH]; [done|..].
  - cbn. rewrite Herr. exact IH.
  - cbn. destruct (service env n a); [done|..]; cbn; by rewrite <- IH.
Qed.

(** [geocode_address] case by case. *)
Lemma geocode_address_unfold self env address city zipcode w :
  let full := full_address_of address city zipcode in
  geocode_address self env address city zipcode w =
    if negb (enable_geocoding self) then (Ok None, w)
    else
      match cache_lookup (geocode_cache w)
              [full; clean_address_for_cache (VStr full)] with
      | Some found => (Ok (Some found), w)
      | None =>
          if negb (key_usable (google_api_key self)) then (Ok None, w)
          else
            let called := trace w ++ [EvApiCall full] in
            match service env (api_calls (trace w)) full with
            | ApiError =>
                (Ok None,
                 {| disk := disk w; geocode_cache := geocode_cache w;
                    ticks := ticks w; trace := called |})
            | ApiEmpty =>
                let cache := <[full := None]> (geocode_cache w) in
                (Ok None,
                 {| disk := written_file (cache_write env (flushes (trace w)))
                              (disk w) cache;
                    geocode_cache := cache;
                    ticks := ticks w; trace := called ++ [EvFlush cache] |})
            | ApiFound lat lng =>
                let cache := <[full := Some (lat, lng)]> (geocode_cache w) in
                (Ok (Some (lat, lng)),
                 {| disk := written_file (cache_write env (flushes (trace w)))
                              (disk w) cache;
                    geocode_cache := cache;
                    ticks := ticks w; trace := called ++ [EvFlush cache] |})
            end
      end.
Proof.
  intros full. unfold geocode_address. fold full.
  destruct (enable_geocoding self); [|done]. cbn [negb].
  unfold mbind, M_bind, bind, get_cache.
  destruct (cache_lookup _ _); [done|].
  destruct (key_usable _); [|done]. cbn [negb].
  unfold call_service, save_geocoding_cache, cache_put.
  assert (flushes (trace w ++ [EvApiCall full]) = flushes (trace w)) as Hfl.
  { rewrite flushes_app. unfold flushes at 2. cbn. lia. }
  destruct (service env _ full); cbn [trace disk geocode_cache ticks];
    by rewrite ?Hfl.
Qed.

Lemma geocode_address_effects self env address city zipcode w :
  ∃ coords w' ev,
    geocode_address self env address city zipcode w = (Ok coords, w')
    ∧ trace w' = trace w ++ ev
    ∧ lookup_effects env (api_calls (trace w)) ev
    ∧ ticks w' = ticks w
    ∧ (enable_geocoding self = false → ev = []).
Proof.
  rewrite geocode_address_unfold. cbv zeta.
  destruct (enable_geocoding self); cbn [negb].
  2: { exists None, w, []. rewrite app_nil_r. repeat split; constructor. }
  destruct (cache_lookup _ _) as [found|].
  { exists (Some found), w, []. rewrite app_nil_r. repeat split; constructor. }
  destruct (key_usable _); cbn [negb].
  2: { exists None, w, []. rewrite app_nil_r. repeat split; constructor. }
  destruct (service env _ _) as [| |lat lng] eqn:Hs.
  - eexists _, _, [_]. repeat split; [|done]. by repeat constructor.
  - eexists _, _, [_; _]. cbn [trace]. rewrite <- app_assoc.
    repeat split; [|done]. apply effects_answered; [by rewrite Hs|constructor].
  - eexists _, _, [_; _]. cbn [trace]. rewrite <- app_assoc.
    repeat split; [|done]. apply effects_answered; [by rewrite Hs|constructor].
Qed.

Lemma geocode_step_effects self env data w :
  ∃ coords w' ev,
    geocode_step self env data w = (Ok coords, w')
    ∧ trace w' = trace w ++ ev
    ∧ lookup_effects env (api_calls (trace w)) ev
    ∧ ticks w' = ticks w
    ∧ (enable_geocoding self = false → ev = []).
Proof.
  unfold geocode_step.
  destruct (enable_geocoding self && truthy _) eqn:E.
  - apply geocode_address_effects.
  - exists None, w, []. rewrite app_nil_r. repeat split; constructor.
Qed.

(** [normalize_permit] returns a record exactly when the county tag can be
    hashed; its external effects are those of at most one look-up. *)
Lemma normalize_permit_effects self env raw w :
  ∃ r w' ev,
    normalize_permit self env raw w = (r, w')
    ∧ trace w' = trace w ++ ev
    ∧ lookup_effects env (api_calls (trace w)) ev
    ∧ (enable_geocoding self = false → ev = [])
    ∧ match r with
      | Ok p => hashable (county_of raw) = true
      | Raise _ => hashable (county_of raw) = false ∧ w' = w
      end.
Proof.
  destruct (hashable (county_of raw)) eqn:Hh.
  - destruct (geocode_step_effects self env
                (dated_data (cleaned_data (described_data raw))
                   (clock env (ticks w))) (tick w))
      as (coords & w' & ev & Hrun & Htr & Heff & _ & Hoff).
    eexists _, _, ev. rewrite (normalize_permit_run _ _ _ _ _ _ Hh Hrun).
    repeat split; try done.
  - eexists _, _, []. rewrite normalize_permit_raises by done.
    rewrite app_nil_r. repeat split; constructor.
Qed.

(** ** Batches *)

Section batch.
Variables (self : processor) (env : environment).

Lemma process_loop_run raws :
  ∀ acc w, ∃ ps w' ev,
    process_loop self env raws acc w = (Ok (acc ++ ps), w')
    ∧ batch_run self env w raws ps w'
    ∧ trace w' = trace w ++ ev
    ∧ lookup_effects env (api_calls (trace w)) ev
    ∧ (enable_geocoding self = false → ev = []).
Proof.
  induction raws as [|raw rest IH]; intros acc w.
  - exists [], w, []. rewrite !app_nil_r. repeat split; constructor.
  - destruct (normalize_permit_effects self env raw w)
      as (r & w1 & ev1 & Hrun & Htr1 & Heff1 & Hoff1 & _).
    cbn [process_loop]. unfold mbind, M_bind, bind, try_except.
    rewrite Hrun. destruct r as [p|e]; cbn.
    + destruct (IH (acc ++ [p]) w1) as (ps & w2 & ev2 & Hloop & Hb & Htr2 & Heff2 & Hoff2).
      exists (p :: ps), w2, (ev1 ++ ev2). rewrite Hloop, <- app_assoc.
      repeat split.
      * by eapply batch_ok.
      * by rewrite Htr2, Htr1, app_assoc.
      * apply lookup_effects_app; [done|].
        by rewrite <- api_calls_app, <- Htr1.
      * intros Hoff. by rewrite Hoff1, Hoff2.
    + destruct (IH acc w1) as (ps & w2 & ev2 & Hloop & Hb & Htr2 & Heff2 & Hoff2).
      exists ps, w2, (ev1 ++ ev2). rewrite Hloop.
      repeat split.
      * by eapply batch_skip.
      * by rewrite Htr2, Htr1, app_assoc.
      * apply lookup_effects_app; [done|].
        by rewrite <- api_calls_app, <- Htr1.
      * intros Hoff. by rewrite Hoff1, Hoff2.
Qed.

Lemma batch_run_survivors w raws ps w' :
  batch_run self env w raws ps w' →
  Forall2 (normalizes_to self env) (survivors raws) ps.
Proof.
  induction 1 as [w|w raw p w1 rest ps w2 Hrun _ IH|w raw e w1 rest ps w2 Hrun _ IH].
  - constructor.
  - destruct (normalize_permit_effects self env raw w)
      as (r & w1' & ev & Hrun' & _ & _ & _ & Hr).
    rewrite Hrun in Hrun'. injection Hrun' as <- <-.
    unfold survivors. cbn [List.filter]. rewrite Hr.
    constructor; [by exists w, w1|done].
  - destruct (normalize_permit_effects self env raw w)
      as (r & w1' & ev & Hrun' & _ & _ & _ & Hr).
    rewrite Hrun in Hrun'. injection Hrun' as <- <-.
    unfold survivors. cbn [List.filter]. by rewrite (proj1 Hr).
Qed.

(** C7: [process_permits] never raises; a record whose normalization raises
    is passed over, and the list returned holds exactly the normalizations
    of the records that did not raise, in the order of the input, with
    nothing in the place of a skipped record. *)
Theorem process_permits_skips_failures raw_permits w :
  ∃ normalized w',
    process_permits self env raw_permits w = (Ok normalized, w')
    ∧ batch_run self env w raw_permits normalized w'
    ∧ Forall2 (normalizes_to self env) (survivors raw_permits) normalized
    ∧ length normalized = length (survivors raw_permits).
Proof.
  destruct (process_loop_run raw_permits [] w)
    as (ps & w' & ev & Hloop & Hb & _).
  exists ps, w'. split; [exact Hloop|]. split; [exact Hb|].
  pose proof (batch_run_survivors _ _ _ _ Hb) as HF.
  split; [exact HF|]. symmetry. by eapply Forall2_length.
Qed.
End batch.

(** The batch of the specification's example: ten records, the fifth
    raises, nine come out in the order of the rest. *)
Example process_permits_ten_one_raises :
  match process_permits geocoding_processor finding_env ten_permits
          fresh_world with
  | (Ok normalized, _) =>
      permit_id <$> normalized =
        (λ name, VStr (str name)) <$>
          ["P1"; "P2"; "P3"; "P4"; "P6"; "P7"; "P8"; "P9"; "P10"]%string
  | (Raise _, _) => False
  end.
Proof. vm_compute. reflexivity. Qed.

(** C2, as the program has it: [normalize_and_geocode_permits] returns; with
    geocoding off it has no external effect at all; with geocoding on, the
    effects of the batch are those of the look-ups of its records (one
    request each at most, with a flush of the cache right after every
    request that was answered) followed by one last flush of the cache as
    it is at the end.  So the number of flushes is the number of answered
    requests, plus one when geocoding is on. *)
Theorem batch_flushes env raw_permits enable w :
  ∃ normalized w' during,
    normalize_and_geocode_permits env raw_permits enable w
      = (Ok normalized, w')
    ∧ trace w' =
        trace w ++ during
          ++ (if enable then [EvFlush (geocode_cache w')] else [])
    ∧ lookup_effects env (api_calls (trace w)) during
    ∧ (enable = false → during = [])
    ∧ flushes (trace w') =
        (flushes (trace w)
         + answered_calls env (api_calls (trace w)) during
         + (if enable then 1 else 0))%nat.
Proof.
  unfold normalize_and_geocode_permits, mbind, M_bind, bind, new_processor.
  set (self := {| enable_geocoding := enable; google_api_key := api_key_env env |}).
  set (w1 := {| disk := disk w; geocode_cache := load_geocoding_cache w;
                ticks := ticks w; trace := trace w |}).
  destruct (process_loop_run self env raw_permits [] w1)
    as (ps & w2 & ev & Hloop & _ & Htr & Heff & Hoff).
  unfold process_permits. rewrite Hloop. cbn [app] in *.
  change (trace w1) with (trace w) in *.
  exists ps. destruct enable; cbn.
  - eexists _, ev. split; [reflexivity|]. cbn [trace geocode_cache].
    rewrite Htr, <- app_assoc. repeat split; [done|done|].
    rewrite !flushes_app, (lookup_effects_flushes _ _ _ Heff). cbn. lia.
  - exists w2, ev. rewrite app_nil_r. repeat split; [done|done|by apply Hoff|].
    rewrite Htr, (Hoff eq_refl), app_nil_r. cbn. lia.
Qed.

(** C2 fails as stated: one record whose address is not cached yet is
    geocoded by a request, the cache is flushed while that record is being
    processed, and again at the end of the batch. *)
Lemma batch_flushes_twice :
  let w' := (normalize_and_geocode_permits finding_env [sample_permit] true
               fresh_world).2 in
  flushes (trace w') = 2%nat ∧ flushes (trace w') ≠ 1%nat
  ∧ ∃ address c1 c2, trace w' = [EvApiCall address; EvFlush c1; EvFlush c2].
Proof.
  vm_compute. split; [reflexivity|]. split; [discriminate|].
  eexists _, _, _. reflexivity.
Qed.

(** ** The entries of [normalized_data] through the stages *)

Ltac decide_closed := apply (bool_decide_unpack _); vm_compute; exact I.

Lemma county_mapping_cases county :
  (county = VStr (str "miami-dade") ∧ county_mapping county = miami_dade_mapping)
  ∨ (county = VStr (str "hillsborough")
     ∧ county_mapping county = hillsborough_mapping)
  ∨ (county ≠ VStr (str "miami-dade") ∧ county ≠ VStr (str "hillsborough")
     ∧ county_mapping county = []).
Proof.
  destruct county as [| | |name|]; try (right; right; by repeat split).
  unfold county_mapping, field_mappings.
  destruct (decide (name = str "miami-dade")) as [->|Hm].
  { left. split; [done|]. by rewrite lookup_insert_eq. }
  destruct (decide (name = str "hillsborough")) as [->|Hh].
  { right; left. split; [done|].
    rewrite lookup_insert_ne by decide_closed. by rewrite lookup_insert_eq. }
  right; right. rewrite !lookup_insert_ne, lookup_empty by done.
  repeat split; congruence.
Qed.

Lemma county_mapping_NoDup county : NoDup (county_mapping county).*1.
Proof.
  destruct (county_mapping_cases county) as [[_ ->]|[[_ ->]|(_ & _ & ->)]].
  - apply miami_dade_mapping_NoDup.
  - apply hillsborough_mapping_NoDup.
  - constructor.
Qed.

Lemma described_data_lookup raw field :
  field ≠ str "description" →
  described_data raw !! field =
    match mapped_value raw field with
    | Some value => Some value
    | None => ({[ str "source_county" := county_of raw ]} : gmap pystr pyval) !! field
    end.
Proof.
  intros Hne. unfold described_data, mapped_value.
  rewrite <- extract_fields_lookup by apply county_mapping_NoDup.
  case_bool_decide; [|done].
  destruct (desc_parts raw); [done|]. by rewrite lookup_insert_ne.
Qed.

Lemma cleaned_data_lookup data field :
  field ≠ str "address" → cleaned_data data !! field = data !! field.
Proof.
  intros Hne. unfold cleaned_data.
  destruct (data !! str "address"); [|done]. by rewrite lookup_insert_ne.
Qed.

Lemma dated_data_lookup data now field :
  field ≠ str "issue_date" → dated_data data now !! field = data !! field.
Proof. intros Hne. unfold dated_data. by rewrite lookup_insert_ne. Qed.

Lemma fill_defaults_other data field :
  field ∉ required_defaults.*1 → fill_defaults data !! field = data !! field.
Proof.
  intros Hnotin. rewrite fill_defaults_lookup.
  destruct (list_find _ _) as [[i [k d]]|] eqn:E; [|done].
  apply list_find_Some in E as (Hin & Hk & _). cbn in Hk. subst k.
  exfalso. apply Hnotin. apply list_elem_of_fmap. exists (field, d).
  split; [done|]. by eapply list_elem_of_lookup_2.
Qed.

(** ** The issue date *)

Lemma below_in_seq (n bound : nat) :
  (n < bound)%nat → N.of_nat n ∈ (N.of_nat <$> seq 0 bound).
Proof.
  intros H. apply list_elem_of_fmap. exists n. split; [done|].
  apply elem_of_seq. lia.
Qed.

(** Two digits for a number below a hundred. *)
Lemma zero_pad_two n :
  n < 100 → zero_pad 2 n = [48 + n / 10; 48 + n mod 10].
Proof.
  intros Hn.
  assert (Forall (λ n, zero_pad 2 n = [48 + n / 10; 48 + n mod 10])
            (N.of_nat <$> seq 0 100)) as Hall by decide_closed.
  eapply Forall_forall in Hall; [exact Hall|].
  rewrite <- (N2Nat.id n). apply below_in_seq. lia.
Qed.

(** Four digits for a year from 1000 to 9999. *)
Lemma decimal_four y :
  1000 <= y → y <= 9999 →
  decimal y = [48 + y / 1000; 48 + y / 100 mod 10; 48 + y / 10 mod 10;
               48 + y mod 10].
Proof.
  intros Hlo Hhi.
  assert (Forall (λ y, (1000 <=? y) = true →
                       decimal y = [48 + y / 1000; 48 + y / 100 mod 10;
                                    48 + y / 10 mod 10; 48 + y mod 10])
            (N.of_nat <$> seq 0 (N.to_nat 10000))) as Hall by decide_closed.
  eapply Forall_forall in Hall.
  - apply Hall. by apply N.leb_le.
  - rewrite <- (N2Nat.id y). apply below_in_seq. lia.
Qed.

Lemma strftime_mdY_as_specified dt :
  calendar_date dt = true → strftime_mdY dt = mdY_as_specified dt.
Proof.
  unfold calendar_date, in_range. intros H.
  rewrite !andb_true_iff, !N.leb_le in H.
  destruct H as [[[? ?] [? ?]] [? ?]].
  unfold strftime_mdY, mdY_as_specified.
  rewrite !zero_pad_two, decimal_four by lia. reflexivity.
Qed.

(** C9: whatever the record holds, also under the source field mapped to
    [issue_date], the record returned carries the date of the clock at the
    moment of the call, which for a date of the calendar is the text
    MM/DD/YYYY of its month, day and year; a record is returned unless the
    county tag cannot be hashed. *)
Theorem issue_date_is_processing_date self env raw_permit w :
  match normalize_permit self env raw_permit w with
  | (Ok p, _) =>
      issue_date p = VStr (strftime_mdY (clock env (ticks w)))
      ∧ (calendar_date (clock env (ticks w)) = true →
         issue_date p = VStr (mdY_as_specified (clock env (ticks w))))
  | (Raise _, _) => hashable (county_of raw_permit) = false
  end.
Proof.
  destruct (hashable (county_of raw_permit)) eqn:Hh.
  - destruct (geocode_step_effects self env
                (dated_data (cleaned_data (described_data raw_permit))
                   (clock env (ticks w))) (tick w))
      as (coords & w' & ev & Hrun & _).
    rewrite (normalize_permit_run _ _ _ _ _ _ Hh Hrun).
    cbn [build_permit issue_date]. unfold dict_get.
    rewrite fill_defaults_other by decide_closed.
    unfold dated_data. rewrite lookup_insert_eq. cbn [default].
    split; [done|]. intros Hdate. by rewrite strftime_mdY_as_specified.
  - by rewrite normalize_permit_raises.
Qed.

(** The sample record carries ISSUDATE 01/15/2019 and is processed on
    4 July 2025. *)
Lemma issue_date_is_processing_date_witness :
  calendar_date (clock finding_env (ticks fresh_world)) = true
  ∧ sample_permit !! str "ISSUDATE" = Some (VStr (str "01/15/2019"))
  ∧ ∃ p w',
      normalize_permit geocoding_processor finding_env sample_permit
        fresh_world = (Ok p, w')
      ∧ issue_date p = VStr (str "07/04/2025").
Proof.
  split; [reflexivity|]. split; [by vm_compute|].
  pose proof (issue_date_is_processing_date geocoding_processor finding_env
                sample_permit fresh_world) as H.
  destruct (normalize_permit geocoding_processor finding_env sample_permit
              fresh_world) as [[p|e] w'] eqn:Hrun.
  - exists p, w'. split; [reflexivity|].
    destruct H as [_ H]. rewrite H by reflexivity. reflexivity.
  - vm_compute in H. discriminate H.
Defined.

(** The sample record carries ISSUDATE 01/15/2019; the clock says 4 July
    2025. *)
Example issue_date_overwritten :
  match normalize_permit geocoding_processor finding_env sample_permit
          fresh_world with
  | (Ok p, _) =>
      sample_permit !! str "ISSUDATE" = Some (VStr (str "01/15/2019"))
      ∧ issue_date p = VStr (str "07/04/2025")
  | (Raise _, _) => False
  end.
Proof. vm_compute. by split. Qed.

(** ** Defaults *)

Lemma unmapped_county_data raw :
  county_of raw ≠ VStr (str "miami-dade") →
  county_of raw ≠ VStr (str "hillsborough") →
  cleaned_data (described_data raw) = {[ str "source_county" := county_of raw ]}.
Proof.
  intros Hm Hh.
  assert (described_data raw = {[ str "source_county" := county_of raw ]}) as ->.
  { unfold described_data.
    destruct (county_mapping_cases (county_of raw))
      as [[? _]|[[? _]|(_ & _ & ->)]]; [done..|].
    by rewrite bool_decide_eq_false_2. }
  unfold cleaned_data. by rewrite lookup_singleton_ne by decide_closed.
Qed.

(** C10: a record whose county tag is absent, or is a value other than the
    two mapped counties, is normalized without an exception; its six
    required fields carry the defaults and [source_county] is the tag,
    ["unknown"] when there is none.  The tag is a value of the data model
    of the raw records, a string, a number or a null, all of which can be
    hashed: that is the first hypothesis. *)
Theorem unmapped_county_defaults self env raw_permit w :
  hashable (county_of raw_permit) = true →
  county_of raw_permit ≠ VStr (str "miami-dade") →
  county_of raw_permit ≠ VStr (str "hillsborough") →
  ∃ p w',
    normalize_permit self env raw_permit w = (Ok p, w')
    ∧ permit_id p = VStr (str "UNKNOWN")
    ∧ permit_type p = VStr (str "UNKNOWN")
    ∧ description p = VStr []
    ∧ address p = VStr []
    ∧ city p = VStr []
    ∧ zipcode p = VStr []
    ∧ source_county p =
        default (VStr (str "unknown")) (raw_permit !! str "source_county").
Proof.
  intros Hh Hm Hb.
  destruct (geocode_step_effects self env
              (dated_data (cleaned_data (described_data raw_permit))
                 (clock env (ticks w))) (tick w))
    as (coords & w' & ev & Hrun & _).
  eexists _, _. split; [exact (normalize_permit_run _ _ _ _ _ _ Hh Hrun)|].
  rewrite (unmapped_county_data _ Hm Hb).
  change (default (VStr (str "unknown")) (raw_permit !! str "source_county"))
    with (county_of raw_permit).
  generalize (county_of raw_permit) (clock env (ticks w)). intros county now.
  repeat split; vm_compute; reflexivity.
Qed.

Lemma unmapped_county_defaults_witness :
  ∃ p w',
    normalize_permit geocoding_processor finding_env
      (<[str "source_county" := VStr (str "broward")]> sample_permit)
      fresh_world = (Ok p, w')
    ∧ permit_id p = VStr (str "UNKNOWN")
    ∧ permit_type p = VStr (str "UNKNOWN")
    ∧ description p = VStr []
    ∧ address p = VStr []
    ∧ city p = VStr []
    ∧ zipcode p = VStr []
    ∧ source_county p =
        default (VStr (str "unknown"))
          (<[str "source_county" := VStr (str "broward")]> sample_permit
             !! str "source_county").
Proof.
  apply (unmapped_county_defaults geocoding_processor finding_env
           (<[str "source_county" := VStr (str "broward")]> sample_permit)
           fresh_world); vm_compute; [reflexivity|discriminate..].
Defined.

(** Outside the data model of the raw records: a list as tag, which
    cannot be hashed, makes [normalize_permit] raise; it is the one
    exception of the model, and what a batch passes over. *)
Lemma unhashable_county_raises :
  county_of (<[str "source_county" := list_tag]> sample_permit)
    ≠ VStr (str "miami-dade")
  ∧ county_of (<[str "source_county" := list_tag]> sample_permit)
    ≠ VStr (str "hillsborough")
  ∧ normalize_permit geocoding_processor finding_env
      (<[str "source_county" := list_tag]> sample_permit) fresh_world
    = (Raise TypeError, fresh_world).
Proof. vm_compute. repeat split; discriminate. Qed.

(** ** The permit value *)

Lemma county_of_tag raw tag :
  raw !! str "source_county" = Some tag → county_of raw = tag.
Proof. intros H. unfold county_of, dict_get. by rewrite H. Qed.

Lemma mapped_permit_value raw county source :
  (county, source) ∈ permit_value_sources →
  raw !! str "source_county" = Some (VStr county) →
  value_of (described_data raw) =
    match raw_value raw source with
    | Some v => convert_permit_value v
    | None => None
    end.
Proof.
  intros Hin Htag. unfold value_of.
  rewrite described_data_lookup by decide_closed.
  unfold mapped_value. rewrite (county_of_tag _ _ Htag).
  unfold permit_value_sources in Hin.
  apply elem_of_cons in Hin as [Heq|Hin].
  { pose proof (f_equal fst Heq) as Hc. pose proof (f_equal snd Heq) as Hs.
    cbn [fst snd] in Hc, Hs. subst county source.
    assert (source_field_of (county_mapping (VStr (str "miami-dade")))
              (str "permit_value") = Some (str "JOB_VAL")) as ->
      by (vm_compute; reflexivity).
    cbn [mbind option_bind]. by destruct (raw_value raw _). }
  apply list_elem_of_singleton in Hin.
  pose proof (f_equal fst Hin) as Hc. pose proof (f_equal snd Hin) as Hs.
  cbn [fst snd] in Hc, Hs. subst county source.
  assert (source_field_of (county_mapping (VStr (str "hillsborough")))
            (str "permit_value") = Some (str "Estimated Value")) as ->
    by (vm_compute; reflexivity).
  cbn [mbind option_bind]. by destruct (raw_value raw _).
Qed.



(** ** The description of a Miami-Dade record *)

Lemma desc_parts_kept raw :
  desc_parts raw = (λ v, py_strip (py_str v)) <$> kept_desc_values raw.
Proof.
  unfold desc_parts, kept_desc_values.
  induction desc_fields as [|f fs IH]; [done|].
  cbn [omap list_omap]. rewrite IH.
  destruct (raw !! f) as [v|]; [|done]. by destruct (truthy v).
Qed.

Lemma desc_parts_nil raw :
  desc_parts raw = [] →
  match raw_value raw (str "DESC1") with
  | Some v => truthy v = false
  | None => True
  end.
Proof.
  unfold desc_parts, raw_value.
  assert (desc_fields = str "DESC1" :: tail desc_fields) as ->
    by (vm_compute; reflexivity).
  cbn [omap list_omap].
  destruct (raw !! str "DESC1") as [v|]; [|done].
  destruct (truthy v) eqn:E; [done|]. by destruct v.
Qed.

Lemma final_description raw now :
  dict_get (fill_defaults (dated_data (cleaned_data (described_data raw)) now))
    (str "description") VNone =
    match described_data raw !! str "description" with
    | Some v => if truthy v then v else VStr []
    | None => VStr []
    end.
Proof.
  unfold dict_get. rewrite fill_defaults_lookup.
  assert (list_find (λ item : pystr * pyval, item.1 = str "description")
            required_defaults = Some (2%nat, (str "description", VStr []))) as ->
    by (vm_compute; reflexivity).
  rewrite dated_data_lookup, cleaned_data_lookup by decide_closed.
  cbn [snd]. destruct (described_data raw !! _) as [v|]; [|done].
  by destruct (truthy v).
Qed.

(** C6, as the program has it: for a Miami-Dade record the description is
    made of the values of DESC1 .. DESC10 that are present and true, in
    index order, each turned into text and trimmed of white space at both
    ends, joined with [" | "]; it replaces what the single mapped field
    gave. *)
Theorem miami_dade_description self env raw_permit w :
  raw_permit !! str "source_county" = Some (VStr (str "miami-dade")) →
  ∃ p w',
    normalize_permit self env raw_permit w = (Ok p, w')
    ∧ description p =
        VStr (join (str " | ")
                ((λ v, py_strip (py_str v)) <$> kept_desc_values raw_permit)).
Proof.
  intros Htag. pose proof (county_of_tag _ _ Htag) as Hc.
  assert (hashable (county_of raw_permit) = true) as Hh by (by rewrite Hc).
  destruct (geocode_step_effects self env
              (dated_data (cleaned_data (described_data raw_permit))
                 (clock env (ticks w))) (tick w))
    as (coords & w' & ev & Hrun & _).
  eexists _, _. split; [exact (normalize_permit_run _ _ _ _ _ _ Hh Hrun)|].
  cbn [build_permit description]. rewrite final_description.
  rewrite <- desc_parts_kept.
  destruct (desc_parts raw_permit) as [|part parts] eqn:Hparts.
  - pose proof (desc_parts_nil _ Hparts) as Hnil.
    unfold described_data at 1. rewrite Hc, bool_decide_eq_true_2, Hparts by done.
    rewrite <- Hc. rewrite extract_fields_lookup by apply county_mapping_NoDup.
    rewrite Hc.
    assert (source_field_of (county_mapping (VStr (str "miami-dade")))
              (str "description") = Some (str "DESC1")) as ->
      by (vm_compute; reflexivity).
    cbn [mbind option_bind].
    destruct (raw_value raw_permit (str "DESC1")) as [v|].
    + by rewrite Hnil.
    + by rewrite lookup_singleton_ne by decide_closed.
  - unfold described_data. rewrite Hc, bool_decide_eq_true_2, Hparts by done.
    rewrite lookup_insert_eq.
    cbn [truthy]. by destruct (join _ _).
Qed.

Lemma miami_dade_description_witness :
  roof_permit !! str "source_county" = Some (VStr (str "miami-dade"))
  ∧ ∃ p w',
      normalize_permit geocoding_processor finding_env roof_permit
        fresh_world = (Ok p, w')
      ∧ description p =
          VStr (join (str " | ")
                  ((λ v, py_strip (py_str v)) <$> kept_desc_values roof_permit)).
Proof.
  split; [by vm_compute|].
  apply (miami_dade_description geocoding_processor finding_env roof_permit
           fresh_world). by vm_compute.
Defined.

(** The example of the specification. *)
Example roof_repair_description :
  match normalize_permit geocoding_processor finding_env roof_permit
          fresh_world with
  | (Ok p, _) => description p = VStr (str "Roof repair | Reroof")
  | (Raise _, _) => False
  end.
Proof. vm_compute. reflexivity. Qed.

(** C6 fails as stated: the kept fields are not joined as they are.  With
    "Roof repair " (a space at the end) in DESC1 the description is still
    "Roof repair | Reroof", not the fields joined. *)
Lemma description_is_trimmed :
  match normalize_permit geocoding_processor finding_env padded_roof_permit
          fresh_world with
  | (Ok p, _) =>
      description p = VStr (str "Roof repair | Reroof")
      ∧ description_as_specified padded_roof_permit
          = str "Roof repair  | Reroof"
      ∧ description p ≠ VStr (description_as_specified padded_roof_permit)
  | (Raise _, _) => False
  end.
Proof. vm_compute. repeat split; discriminate. Qed.

(** ** Cached addresses *)

Lemma geocode_step_key self env raw now :
  enable_geocoding self = true →
  has_address raw = true →
  geocode_step self env (dated_data (cleaned_data (described_data raw)) now) =
    geocode_address self env
      (py_str (dict_get (cleaned_data (described_data raw)) (str "address") (VStr [])))
      (dict_get (cleaned_data (described_data raw)) (str "city") (VStr []))
      (dict_get (cleaned_data (described_data raw)) (str "zipcode") (VStr [])).
Proof.
  intros Hon Haddr. unfold geocode_step, has_address, dict_get in *.
  rewrite !dated_data_lookup by decide_closed. by rewrite Hon, Haddr.
Qed.

Lemma normalize_permit_cache_hit self env raw w found :
  enable_geocoding self = true →
  hashable (county_of raw) = true →
  has_address raw = true →
  cache_lookup (geocode_cache w)
    [lookup_key raw; clean_address_for_cache (VStr (lookup_key raw))]
    = Some found →
  ∃ p,
    normalize_permit self env raw w = (Ok p, tick (tick w))
    ∧ coordinates p = Some found.
Proof.
  intros Hon Hh Haddr Hhit.
  eexists. split; [|shelve].
  apply normalize_permit_run; [done|].
  rewrite geocode_step_key, geocode_address_unfold by done. cbv zeta.
  rewrite Hon. cbn [negb tick geocode_cache].
  fold (lookup_key raw). rewrite Hhit. reflexivity.
  Unshelve. reflexivity.
Qed.



(** The same when the pair is filed under the full address in its
    cache-key form and the full address itself holds no pair, for a full
    address in Basic Latin. *)
Lemma cached_normalized_address_not_requested self env raw w found :
  enable_geocoding self = true →
  hashable (county_of raw) = true →
  has_address raw = true →
  ascii_address raw = true →
  ascii_text (lookup_key raw) = true →
  ¬ holds_pair (geocode_cache w) (lookup_key raw) →
  geocode_cache w !! clean_address_for_cache (VStr (lookup_key raw))
    = Some (Some found) →
  ∃ p w',
    normalize_permit self env raw w = (Ok p, w')
    ∧ coordinates p = Some found
    ∧ trace w' = trace w.
Proof.
  intros Hon Hh Haddr _ _ Hmiss Hentry.
  destruct (normalize_permit_cache_hit self env raw w found)
    as (p & Hrun & Hc); [done..| |].
  { cbn [cache_lookup]. rewrite Hentry.
    destruct (geocode_cache w !! lookup_key raw) as [[other|]|] eqn:E; [|done..].
    exfalso. apply Hmiss. by exists other. }
  by exists p, (tick (tick w)).
Qed.

(** A record normalized once with coordinates is normalized again without
    any request, to the same coordinates. *)
Lemma second_normalization_uses_cache self env raw w p1 w1 found :
  enable_geocoding self = true →
  has_address raw = true →
  normalize_permit self env raw w = (Ok p1, w1) →
  coordinates p1 = Some found →
  ∃ p2 w2,
    normalize_permit self env raw w1 = (Ok p2, w2)
    ∧ coordinates p2 = Some found
    ∧ trace w2 = trace w1.
Proof.
  intros Hon Haddr Hrun1 Hc1.
  destruct (normalize_permit_effects self env raw w)
    as (r & w1' & ev & Hrun & _ & _ & _ & Hh).
  rewrite Hrun1 in Hrun. injection Hrun as <- <-.
  destruct (geocode_step_effects self env
              (dated_data (cleaned_data (described_data raw))
                 (clock env (ticks w))) (tick w))
    as (coords & w' & ev' & Hstep & _).
  rewrite (normalize_permit_run _ _ _ _ _ _ Hh Hstep) in Hrun1.
  injection Hrun1 as <- <-. cbn [coordinates build_permit] in Hc1. subst coords.
  assert (cache_lookup (geocode_cache (tick w'))
            [lookup_key raw; clean_address_for_cache (VStr (lookup_key raw))]
          = Some found) as Hhit.
  { rewrite geocode_step_key, geocode_address_unfold in Hstep by done.
    cbv zeta in Hstep. rewrite Hon in Hstep. cbn [negb] in Hstep.
    fold (lookup_key raw) in Hstep. cbn [tick geocode_cache] in *.
    destruct (cache_lookup (geocode_cache w) _) as [hit|] eqn:Hl.
    - injection Hstep as -> <-. exact Hl.
    - destruct (key_usable _); [|done]. cbn [negb] in Hstep.
      destruct (service env _ _); try done.
      injection Hstep as <- <-. cbn [cache_lookup geocode_cache].
      by rewrite lookup_insert_eq. }
  destruct (normalize_permit_cache_hit self env raw (tick w') found)
    as (p2 & Hrun2 & Hc2); [done..|].
  by exists p2, (tick (tick (tick w'))).
Qed.

(** ** Negative results *)

Lemma cache_lookup_miss cache keys :
  Forall (λ key, ¬ holds_pair cache key) keys → cache_lookup cache keys = None.
Proof.
  induction 1 as [|key keys Hmiss _ IH]; [done|]. cbn [cache_lookup].
  destruct (cache !! key) as [[found|]|] eqn:E; [|done..].
  exfalso. apply Hmiss. by exists found.
Qed.

(** C3, as the program has it: with geocoding on and an API key, when the
    cache holds no pair for the address, one request is made.  An answer
    without results is recorded: the full address is filed with the
    negative marker in the processor's cache, and a write of the cache file
    follows, which leaves the file with the cache when it goes through.  A
    request that fails records nothing: the cache and the file stay as they
    were.  Both give no coordinates and raise nothing.  The full address
    is taken in Basic Latin, where the cache-key form of the model is the
    program's. *)
Theorem negative_results_recorded self env address city zipcode w :
  let full := full_address_of address city zipcode in
  ascii_text full = true →
  enable_geocoding self = true →
  key_usable (google_api_key self) = true →
  ¬ holds_pair (geocode_cache w) full →
  ¬ holds_pair (geocode_cache w) (clean_address_for_cache (VStr full)) →
  (service env (api_calls (trace w)) full = ApiEmpty →
   ∃ w',
     geocode_address self env address city zipcode w = (Ok None, w')
     ∧ geocode_cache w' = <[full := None]> (geocode_cache w)
     ∧ trace w' = trace w ++ [EvApiCall full; EvFlush (geocode_cache w')]
     ∧ (cache_write env (flushes (trace w)) = Written →
        disk w' = Some (geocode_cache w')))
  ∧ (service env (api_calls (trace w)) full = ApiError →
     ∃ w',
       geocode_address self env address city zipcode w = (Ok None, w')
       ∧ geocode_cache w' = geocode_cache w
       ∧ disk w' = disk w
       ∧ trace w' = trace w ++ [EvApiCall full]).
Proof.
  intros full _ Hon Hkey Hmiss1 Hmiss2.
  rewrite geocode_address_unfold. cbv zeta. fold full.
  rewrite Hon, Hkey, cache_lookup_miss by (by repeat constructor).
  cbn [negb]. split; intros ->.
  - eexists. split; [reflexivity|]. cbn [geocode_cache trace disk].
    split; [done|]. split; [by rewrite <- app_assoc|]. by intros ->.
  - eexists. split; [reflexivity|]. done.
Qed.

Lemma negative_results_recorded_witness :
  let full := full_address_of (str "123 MAIN ST") (VStr (str "Miami"))
                (VStr (str "33101")) in
  ∃ w',
    geocode_address geocoding_processor empty_env (str "123 MAIN ST")
      (VStr (str "Miami")) (VStr (str "33101")) fresh_world = (Ok None, w')
    ∧ geocode_cache w' = <[full := None]> (geocode_cache fresh_world)
    ∧ trace w' = trace fresh_world ++ [EvApiCall full; EvFlush (geocode_cache w')]
    ∧ (cache_write empty_env (flushes (trace fresh_world)) = Written →
       disk w' = Some (geocode_cache w')).
Proof.
  intros full.
  apply (negative_results_recorded geocoding_processor empty_env
           (str "123 MAIN ST") (VStr (str "Miami")) (VStr (str "33101"))
           fresh_world); try reflexivity.
  - intros [found Hf]. vm_compute in Hf. discriminate Hf.
  - intros [found Hf]. vm_compute in Hf. discriminate Hf.
Defined.

(** C3 fails as stated, twice.  A request that fails leaves no entry for
    the address in the cache.  And the negative entry left by an answer
    without results does not stop the next look-up of the same address from
    asking the service again. *)
Lemma negative_entry_not_honoured :
  let full := str "123 MAIN ST, Miami, FL 33101" in
  let lookup env :=
    geocode_address geocoding_processor env (str "123 MAIN ST")
      (VStr (str "Miami")) (VStr (str "33101")) in
  geocode_cache (lookup failing_env fresh_world).2 !! full = None
  ∧ geocode_cache (lookup empty_env fresh_world).2 !! full = Some None
  ∧ trace (lookup empty_env (lookup empty_env fresh_world).2).2
      = [EvApiCall full; EvFlush {[ full := None ]};
         EvApiCall full; EvFlush {[ full := None ]}]
  ∧ api_calls (trace (lookup empty_env (lookup empty_env fresh_world).2).2)
      = 2%nat.
Proof. vm_compute. repeat split. Qed.

(** * Address cleaning *)

(** ** Basic Latin characters, by cases *)

Lemma ascii_in_basic_latin c : is_ascii c = true → c ∈ basic_latin.
Proof.
  unfold is_ascii, basic_latin. intros H. apply N.ltb_lt in H.
  apply list_elem_of_fmap. exists (N.to_nat c). split; [lia|].
  apply elem_of_seq. lia.
Qed.

Lemma ascii_cases (P : N → Prop) :
  Forall P basic_latin → ∀ c, is_ascii c = true → P c.
Proof.
  intros HP c Hc. eapply Forall_forall in HP; [exact HP|].
  by apply ascii_in_basic_latin.
Qed.

Ltac by_ascii_cases :=
  match goal with
  | |- ∀ c : N, is_ascii c = true → @?P c =>
      apply (ascii_cases P); apply (bool_decide_unpack _); vm_compute; exact I
  end.

Lemma ascii_not_ligature : ∀ c, is_ascii c = true → c ≠ lig_st.
Proof. by_ascii_cases. Qed.

Lemma upper1_ascii : ∀ c, is_ascii c = true → is_ascii (upper1 c) = true.
Proof. by_ascii_cases. Qed.

Lemma lower1_ascii : ∀ c, is_ascii c = true → is_ascii (lower1 c) = true.
Proof. by_ascii_cases. Qed.

Lemma upper1_space : ∀ c, is_ascii c = true →
  is_space (upper1 c) = is_space c ∧ (upper1 c =? 32) = (c =? 32).
Proof. by_ascii_cases. Qed.

Lemma lower1_space : ∀ c, is_ascii c = true →
  is_space (lower1 c) = is_space c ∧ (lower1 c =? 32) = (c =? 32).
Proof. by_ascii_cases. Qed.

Lemma upper1_word : ∀ c, is_ascii c = true → is_word (upper1 c) = is_word c.
Proof. by_ascii_cases. Qed.

Lemma upper1_sep : ∀ c, is_ascii c = true → is_word c = false → upper1 c = c.
Proof. by_ascii_cases. Qed.

Lemma case_maps : ∀ c, is_ascii c = true →
  lower1 (lower1 c) = lower1 c ∧ upper1 (upper1 c) = upper1 c
  ∧ lower1 (upper1 c) = lower1 c ∧ upper1 (lower1 c) = upper1 c
  ∧ is_cased (lower1 c) = is_cased c ∧ is_cased (upper1 c) = is_cased c.
Proof. by_ascii_cases. Qed.

Lemma word_not_space : ∀ c, is_ascii c = true → is_word c = true → is_space c = false.
Proof. by_ascii_cases. Qed.

(** A letter of a key only matches letters. *)
Lemma letter_matches_word ignorecase :
  ∀ c, is_ascii c = true →
    Forall (λ k, is_alpha k = true → char_matches ignorecase k c = true →
                 is_word c = true) basic_latin.
Proof. destruct ignorecase; by_ascii_cases. Qed.

Lemma alpha_ascii k : is_alpha k = true → is_ascii k = true.
Proof.
  unfold is_alpha, is_upper, is_lower, in_range, is_ascii. intros H.
  apply N.ltb_lt. apply orb_true_iff in H as [H|H];
    apply andb_true_iff in H as [_ H]; apply N.leb_le in H; lia.
Qed.

Lemma key_char_matches_word ignorecase k c :
  is_alpha k = true → is_ascii c = true →
  char_matches ignorecase k c = true → is_word c = true.
Proof.
  intros Hk Hc Hm.
  pose proof (letter_matches_word ignorecase c Hc) as HF.
  eapply Forall_forall in HF; [by apply HF|].
  by apply ascii_in_basic_latin, alpha_ascii.
Qed.

(** ** [re_sub_word] word by word *)

Lemma word_ok_inv w :
  word_ok w = true →
  ∃ c w', w = c :: w' ∧ is_word c = true ∧ is_ascii c = true
          ∧ forallb ascii_word_char w' = true.
Proof.
  unfold word_ok. destruct w as [|c w']; [done|]. cbn.
  intros H. apply andb_true_iff in H as [H1 H2].
  apply andb_true_iff in H1 as [H1 H3]. by exists c, w'.
Qed.

Lemma word_chars_inv c w :
  forallb ascii_word_char (c :: w) = true →
  is_word c = true ∧ is_ascii c = true ∧ forallb ascii_word_char w = true.
Proof.
  cbn. intros H. apply andb_true_iff in H as [H1 H2].
  by apply andb_true_iff in H1 as [H1 H3].
Qed.

Lemma starts_sep_head s : starts_sep s = true → head_is_word s = false.
Proof.
  destruct s as [|c s]; [done|]. cbn. intros H.
  apply andb_true_iff in H as [H _]. by apply negb_true_iff.
Qed.

Lemma lit_match_in_word ignorecase key rest :
  forallb is_alpha key = true → starts_sep rest = true →
  ∀ w, forallb ascii_word_char w = true →
    match lit_match ignorecase key true (w ++ rest) with
    | Some (last_word, r) => at_boundary last_word r
    | None => false
    end = word_matches ignorecase key w.
Proof.
  intros Hkey Hrest. induction key as [|k key IH]; intros w Hw.
  - cbn. unfold at_boundary. destruct w as [|c w]; cbn.
    + by rewrite starts_sep_head.
    + apply word_chars_inv in Hw as (-> & _). done.
  - cbn in Hkey. apply andb_true_iff in Hkey as [Hk Hkey].
    destruct w as [|c w]; cbn.
    + destruct rest as [|c' rest]; [done|]. cbn in Hrest.
      apply andb_true_iff in Hrest as [Hsep Hasc].
      destruct (char_matches ignorecase k c') eqn:Hm; [|done].
      apply key_char_matches_word in Hm; [|done..].
      by rewrite Hm in Hsep.
    + apply word_chars_inv in Hw as (Hc & _ & Hw).
      destruct (char_matches ignorecase k c); [|done].
      rewrite Hc. cbn. by apply IH.
Qed.

Lemma word_matches_length ignorecase key w :
  word_matches ignorecase key w = true → length key = length w.
Proof.
  revert w. induction key as [|k key IH]; intros [|c w]; try done.
  cbn. intros H. apply andb_true_iff in H as [_ H]. f_equal. by apply IH.
Qed.

Lemma tokens_ok_starts_sep ts :
  tokens_ok true ts = true → starts_sep (untokens ts) = true.
Proof.
  destruct ts as [|[w|c] ts]; [done|done|]. cbn.
  intros H. apply andb_true_iff in H as [H _]. done.
Qed.

Section one_substitution.
Variables (ignorecase : bool) (key repl : pystr).
Hypothesis key_is_word : key_ok key = true.

Lemma match_at_word_start w rest :
  word_ok w = true → starts_sep rest = true →
  match_at ignorecase key false (w ++ rest) = word_matches ignorecase key w.
Proof.
  intros Hw Hrest. pose proof key_is_word as Hkey.
  apply andb_true_iff in Hkey as [Hne Hkey].
  destruct key as [|k key']; [done|].
  apply word_ok_inv in Hw as (c & w' & -> & Hc & Hasc & Hw').
  unfold match_at, at_boundary. cbn. rewrite Hc. cbn.
  cbn in Hkey. apply andb_true_iff in Hkey as [Hk Hkey].
  destruct (char_matches ignorecase k c); [|done].
  cbn. by apply lit_match_in_word.
Qed.

(** Past a match: the characters matched are passed over. *)
Lemma sub_go_skip u rest :
  forallb ascii_word_char u = true →
  sub_go ignorecase key repl true (length u) (u ++ rest)
    = sub_go ignorecase key repl true 0 rest.
Proof.
  induction u as [|d u IH]; intros Hu; [by destruct rest|].
  apply word_chars_inv in Hu as (Hd & _ & Hu). cbn. rewrite Hd. by apply IH.
Qed.

(** Inside a word nothing matches: there is no boundary. *)
Lemma sub_go_inside_word u rest :
  forallb ascii_word_char u = true →
  sub_go ignorecase key repl true 0 (u ++ rest)
    = u ++ sub_go ignorecase key repl true 0 rest.
Proof.
  induction u as [|d u IH]; intros Hu; [done|].
  apply word_chars_inv in Hu as (Hd & _ & Hu).
  cbn [app sub_go]. unfold match_at at 1, at_boundary at 1. cbn [head_is_word].
  rewrite Hd. cbn. f_equal. by apply IH.
Qed.

(** At the start of a word: the word is replaced when all of it matches. *)
Lemma sub_go_word w rest :
  word_ok w = true → starts_sep rest = true →
  sub_go ignorecase key repl false 0 (w ++ rest)
    = sub_in_word ignorecase key repl w
        ++ sub_go ignorecase key repl true 0 rest.
Proof.
  intros Hw Hrest.
  pose proof (match_at_word_start w rest Hw Hrest) as Hm.
  apply word_ok_inv in Hw as (c & w' & -> & Hc & Hasc & Hw').
  cbn [app sub_go]. cbn [app] in Hm. rewrite Hm. unfold sub_in_word.
  destruct (word_matches ignorecase key (c :: w')) eqn:E; rewrite Hc.
  - apply word_matches_length in E. rewrite E. cbn [length pred].
    by rewrite sub_go_skip.
  - cbn. f_equal. by apply sub_go_inside_word.
Qed.

(** At a separator nothing matches: a key starts with a letter. *)
Lemma sub_go_sep prev_word c rest :
  is_word c = false → is_ascii c = true →
  sub_go ignorecase key repl prev_word 0 (c :: rest)
    = c :: sub_go ignorecase key repl false 0 rest.
Proof.
  intros Hc Hasc. pose proof key_is_word as Hkey.
  apply andb_true_iff in Hkey as [Hne Hkey].
  destruct key as [|k key']; [done|].
  cbn in Hkey. apply andb_true_iff in Hkey as [Hk Hkey].
  cbn [sub_go]. unfold match_at. cbn [lit_match].
  destruct (char_matches ignorecase k c) eqn:Hm.
  { apply key_char_matches_word in Hm; [|done..]. congruence. }
  rewrite andb_false_r, Hc. done.
Qed.

(** One substitution acts on each word by itself. *)
Lemma sub_go_tokens ts :
  ∀ prev_word, tokens_ok prev_word ts = true →
    sub_go ignorecase key repl prev_word 0 (untokens ts)
      = untokens (map_words (sub_in_word ignorecase key repl) ts).
Proof.
  induction ts as [|[w|c] ts IH]; intros pw Hok; [done|..].
  - cbn in Hok. apply andb_true_iff in Hok as [Hok Hts].
    apply andb_true_iff in Hok as [Hpw Hw].
    apply negb_true_iff in Hpw. subst pw.
    cbn [untokens flat_map token_text map_words map].
    fold (untokens ts).
    rewrite sub_go_word by (done || by apply tokens_ok_starts_sep).
    f_equal. by apply IH.
  - cbn in Hok. apply andb_true_iff in Hok as [Hok Hts].
    apply andb_true_iff in Hok as [Hc Hasc]. apply negb_true_iff in Hc.
    cbn [untokens flat_map token_text map_words map app].
    fold (untokens ts). rewrite sub_go_sep by done. f_equal. by apply IH.
Qed.
End one_substitution.

Lemma map_words_ok f :
  (∀ w, word_ok w = true → word_ok (f w) = true) →
  ∀ ts prev_word, tokens_ok prev_word ts = true →
    tokens_ok prev_word (map_words f ts) = true.
Proof.
  intros Hf. induction ts as [|[w|c] ts IH]; intros pw Hok; [done|..].
  - cbn in *. apply andb_true_iff in Hok as [Hok Hts].
    apply andb_true_iff in Hok as [-> Hw]. rewrite (Hf _ Hw). by apply IH.
  - cbn in *. apply andb_true_iff in Hok as [-> Hts]. by apply IH.
Qed.

Lemma map_words_compose f g ts :
  map_words g (map_words f ts) = map_words (g ∘ f) ts.
Proof.
  unfold map_words. rewrite map_map. apply map_ext. by intros [w|c].
Qed.

Lemma map_words_ext f g ts :
  (∀ w, f w = g w) → map_words f ts = map_words g ts.
Proof. intros H. apply map_ext. intros [w|c]; [by rewrite H|done]. Qed.

Lemma sub_in_word_ok ignorecase key repl w :
  word_ok repl = true → word_ok w = true →
  word_ok (sub_in_word ignorecase key repl w) = true.
Proof. intros Hr Hw. unfold sub_in_word. by destruct (word_matches _ _ _). Qed.

Lemma table_in_word_ok ignorecase table :
  table_ok table = true →
  ∀ w, word_ok w = true → word_ok (table_in_word ignorecase table w) = true.
Proof.
  induction table as [|[k a] table IH]; intros Hok w Hw; [done|].
  cbn in Hok. apply andb_true_iff in Hok as [Hka Hok].
  apply andb_true_iff in Hka as [Hk Ha].
  change (table_in_word ignorecase ((k, a) :: table) w)
    with (table_in_word ignorecase table (sub_in_word ignorecase k a w)).
  apply IH; [done|]. by apply sub_in_word_ok.
Qed.

(** A whole table of substitutions acts on each word by itself. *)
Lemma sub_table_tokens ignorecase table :
  table_ok table = true →
  ∀ ts, tokens_ok false ts = true →
    sub_table ignorecase table (untokens ts)
      = untokens (map_words (table_in_word ignorecase table) ts).
Proof.
  unfold sub_table, table_in_word.
  induction table as [|[k a] table IH]; intros Hok ts Hts.
  - cbn. f_equal. unfold map_words. rewrite <- (map_id ts) at 1.
    apply map_ext. by intros [w|c].
  - cbn in Hok. apply andb_true_iff in Hok as [Hka Hok].
    apply andb_true_iff in Hka as [Hk Ha].
    cbn [fold_left fst snd]. unfold re_sub_word at 2.
    rewrite sub_go_tokens by done.
    rewrite IH; [|done|].
    + by rewrite map_words_compose.
    + apply map_words_ok; [|done]. intros w. by apply sub_in_word_ok.
Qed.

(** ** Cutting a text into words *)

Lemma tokens_ok_weaken ts :
  tokens_ok false ts = true →
  match ts with TWord _ :: _ => False | _ => True end →
  tokens_ok true ts = true.
Proof. by destruct ts as [|[w|c] ts]. Qed.

Lemma tokens_exist s :
  ascii_text s = true → ∃ ts, tokens_ok false ts = true ∧ untokens ts = s.
Proof.
  induction s as [|c s IH]; intros Hs; [by exists []|].
  cbn in Hs. apply andb_true_iff in Hs as [Hc Hs].
  destruct (IH Hs) as (ts & Hok & <-).
  destruct (is_word c) eqn:Hw.
  - destruct ts as [|[w|d] ts].
    + exists [TWord [c]]. cbn. unfold ascii_word_char. by rewrite Hw, Hc.
    + exists (TWord (c :: w) :: ts). split; [|done].
      cbn in *. unfold ascii_word_char at 1. rewrite Hw, Hc. cbn.
      apply andb_true_iff in Hok as [Hok ->].
      unfold word_ok in Hok. apply andb_true_iff in Hok as [_ ->]. done.
    + exists (TWord [c] :: TSep d :: ts). split; [|done].
      cbn in *. unfold ascii_word_char. by rewrite Hw, Hc, Hok.
  - exists (TSep c :: ts). split; [|done]. cbn. by rewrite Hw, Hc, Hok.
Qed.

Lemma untokens_cons t ts : untokens (t :: ts) = token_text t ++ untokens ts.
Proof. reflexivity. Qed.

Lemma tokens_ok_ascii ts prev_word :
  tokens_ok prev_word ts = true → ascii_text (untokens ts) = true.
Proof.
  revert prev_word. induction ts as [|[w|c] ts IH]; intros pw Hok; [done|..].
  - cbn in Hok. apply andb_true_iff in Hok as [Hok Hts].
    apply andb_true_iff in Hok as [_ Hw].
    rewrite untokens_cons. cbn [token_text].
    unfold ascii_text in *. rewrite forallb_app.
    rewrite (IH _ Hts), andb_true_r.
    unfold word_ok in Hw. apply andb_true_iff in Hw as [_ Hw].
    clear -Hw. induction w as [|c w IHw]; [done|].
    apply word_chars_inv in Hw as (_ & Hc & Hw). cbn. by rewrite Hc, IHw.
  - cbn in Hok. apply andb_true_iff in Hok as [Hok Hts].
    apply andb_true_iff in Hok as [_ Hc].
    rewrite untokens_cons. cbn [token_text app].
    unfold ascii_text in *. cbn [forallb]. by rewrite Hc, (IH _ Hts).
Qed.

(** ** Upper case *)

Lemma py_upper_ascii s :
  ascii_text s = true → py_upper s = map upper1 s.
Proof.
  unfold py_upper. induction s as [|c s IH]; intros Hs; [done|].
  cbn in Hs. apply andb_true_iff in Hs as [Hc Hs].
  cbn [flat_map map]. rewrite IH by done. unfold upper_char.
  destruct (N.eqb_spec c lig_st) as [->|_]; [by vm_compute in Hc|].
  destruct (N.eqb_spec c small_j_caron) as [->|_]; [by vm_compute in Hc|done].
Qed.

Lemma map_upper1_word_chars l :
  forallb ascii_word_char l = true →
  forallb ascii_word_char (map upper1 l) = true.
Proof.
  induction l as [|d l IH]; [done|]. intros H.
  apply word_chars_inv in H as (Hw & Hd & Hl). cbn.
  unfold ascii_word_char at 1. by rewrite upper1_word, Hw, upper1_ascii, IH.
Qed.

Lemma map_upper1_word_ok w : word_ok w = true → word_ok (map upper1 w) = true.
Proof.
  unfold word_ok. intros H. apply andb_true_iff in H as [Hne H].
  rewrite map_upper1_word_chars by done. by destruct w.
Qed.

Lemma map_upper1_tokens ts prev_word :
  tokens_ok prev_word ts = true →
  map upper1 (untokens ts) = untokens (map_words (map upper1) ts).
Proof.
  revert prev_word. induction ts as [|[w|c] ts IH]; intros pw Hok; [done|..].
  - cbn in Hok. apply andb_true_iff in Hok as [_ Hts].
    cbn. rewrite map_app. f_equal. by eapply IH.
  - cbn in Hok. apply andb_true_iff in Hok as [Hok Hts].
    apply andb_true_iff in Hok as [Hc Hasc]. apply negb_true_iff in Hc.
    cbn. rewrite upper1_sep by done. f_equal. by eapply IH.
Qed.

(** ** White space in normal form *)

Lemma spaced_rstrip s b :
  spaced b s = true → rstrip_by is_space s = s.
Proof.
  revert b. induction s as [|c s IH]; intros b Hs; [done|].
  cbn in Hs. cbn.
  destruct (is_space c) eqn:Hc.
  - apply andb_true_iff in Hs as [_ Hs]. rewrite (IH _ Hs).
    destruct s; [done|done].
  - rewrite (IH _ Hs). by destruct s.
Qed.

Lemma spaced_collapse s b :
  spaced b s = true → collapse_go b s = s.
Proof.
  revert b. induction s as [|c s IH]; intros b Hs; [done|].
  cbn in Hs. cbn. destruct (is_space c) eqn:Hc.
  - apply andb_true_iff in Hs as [Hs Hs'].
    apply andb_true_iff in Hs as [Hb H32].
    apply negb_true_iff in Hb. subst b. apply N.eqb_eq in H32. subst c.
    f_equal. by apply IH.
  - f_equal. by apply IH.
Qed.

(** Cleaning the white space of a text in normal form changes nothing. *)
Lemma ws_normal_fixed s :
  ws_normal s = true → re_sub_spaces (py_strip s) = s.
Proof.
  destruct s as [|c s]; [done|]. unfold ws_normal. intros Hs.
  unfold py_strip, strip_by, re_sub_spaces.
  assert (is_space c = false) as Hc.
  { cbn in Hs. by destruct (is_space c). }
  cbn [lstrip_by]. rewrite Hc, (spaced_rstrip _ _ Hs).
  cbn [collapse_go]. rewrite Hc. f_equal.
  cbn in Hs. rewrite Hc in Hs. by apply spaced_collapse.
Qed.

Lemma rstrip_ends_clean p s :
  p = is_space → rstrip_by p s = [] ∨ ends_clean (rstrip_by p s) = true.
Proof.
  intros ->. induction s as [|c s IH]; [by left|]. cbn.
  destruct (rstrip_by is_space s) as [|d r] eqn:E.
  - destruct (is_space c) eqn:Hc; [by left|right]. cbn. by rewrite Hc.
  - right. destruct IH as [IH|IH]; [done|]. exact IH.
Qed.

Lemma rstrip_head s :
  match lstrip_by is_space s with [] => True | c :: _ => is_space c = false end.
Proof.
  induction s as [|c s IH]; [done|]. cbn.
  destruct (is_space c) eqn:Hc; [done|by rewrite Hc].
Qed.

Lemma rstrip_keeps_head s c r :
  rstrip_by is_space s = c :: r → ∃ s', s = c :: s'.
Proof.
  destruct s as [|d s]; [done|]. cbn.
  destruct (rstrip_by is_space s); [destruct (is_space d)|];
    intros H; inversion H; by eexists.
Qed.

Lemma collapse_spaced s b :
  ends_clean s = true → spaced b (collapse_go b s) = true.
Proof.
  revert b. induction s as [|c s IH]; intros b Hs; [done|].
  assert (s = [] ∧ is_space c = false ∨ ends_clean s = true) as Hcases.
  { destruct s as [|d s]; [left|right]; [|done].
    cbn in Hs. split; [done|]. by apply negb_true_iff. }
  cbn [collapse_go]. destruct (is_space c) eqn:Hc.
  - destruct Hcases as [[_ ?]|Hs']; [congruence|].
    destruct b; [by apply IH|]. cbn. by apply IH.
  - cbn [spaced]. rewrite Hc.
    destruct Hcases as [[-> _]|Hs']; [done|]. by apply IH.
Qed.

(** The white-space step of both cleaners gives a text in normal form. *)
Lemma ws_cleaned_normal s : ws_normal (re_sub_spaces (py_strip s)) = true.
Proof.
  unfold py_strip, strip_by, re_sub_spaces.
  destruct (rstrip_ends_clean is_space (lstrip_by is_space s) eq_refl) as [->|Hend];
    [done|].
  destruct (rstrip_by is_space (lstrip_by is_space s)) as [|c r] eqn:E; [done|].
  destruct (rstrip_keeps_head _ _ _ E) as [s' Hs'].
  pose proof (rstrip_head s) as Hh. rewrite Hs' in Hh.
  pose proof (collapse_spaced _ true Hend) as Hsp.
  cbn [collapse_go] in *. rewrite Hh in *. exact Hsp.
Qed.

Lemma ascii_lstrip p s : ascii_text s = true → ascii_text (lstrip_by p s) = true.
Proof.
  induction s as [|c s IH]; [done|]. intros Hs. cbn.
  destruct (p c); [|done]. cbn in Hs. apply andb_true_iff in Hs as [_ Hs]. auto.
Qed.

Lemma ascii_rstrip p s : ascii_text s = true → ascii_text (rstrip_by p s) = true.
Proof.
  induction s as [|c s IH]; [done|]. intros Hs. cbn in *.
  apply andb_true_iff in Hs as [Hc Hs]. specialize (IH Hs).
  destruct (rstrip_by p s); [destruct (p c); [done|cbn; by rewrite Hc]|].
  cbn in *. by rewrite Hc.
Qed.

Lemma ascii_collapse b s : ascii_text s = true → ascii_text (collapse_go b s) = true.
Proof.
  revert b. induction s as [|c s IH]; [done|]. intros b Hs. cbn in *.
  apply andb_true_iff in Hs as [Hc Hs].
  destruct (is_space c); [destruct b|]; cbn; rewrite ?Hc; cbn; by apply IH.
Qed.

Lemma ws_cleaned_ascii s :
  ascii_text s = true → ascii_text (re_sub_spaces (py_strip s)) = true.
Proof. intros Hs. by apply ascii_collapse, ascii_rstrip, ascii_lstrip. Qed.

(** Replacing words by words keeps the white space as it is. *)
Lemma spaced_word w rest b :
  word_ok w = true → spaced b (w ++ rest) = spaced false rest.
Proof.
  intros Hw. apply word_ok_inv in Hw as (c & w' & -> & Hc & Hasc & Hw').
  cbn. rewrite (word_not_space c) by done.
  clear c Hc Hasc. induction w' as [|d w IH]; [done|].
  apply word_chars_inv in Hw' as (Hd & Hasc & Hw). cbn.
  rewrite (word_not_space d) by done. by apply IH.
Qed.

Lemma map_words_spaced f :
  (∀ w, word_ok w = true → word_ok (f w) = true) →
  ∀ ts prev_word b, tokens_ok prev_word ts = true →
    spaced b (untokens (map_words f ts)) = spaced b (untokens ts).
Proof.
  intros Hf. induction ts as [|[w|c] ts IH]; intros pw b Hok; [done|..].
  - cbn in Hok. apply andb_true_iff in Hok as [Hok Hts].
    apply andb_true_iff in Hok as [_ Hw].
    cbn [map_words map untokens flat_map token_text].
    rewrite !spaced_word by auto. by eapply IH.
  - cbn in Hok. apply andb_true_iff in Hok as [_ Hts].
    cbn. destruct (is_space c); [f_equal|]; by eapply IH.
Qed.

Lemma map_words_normal f ts prev_word :
  (∀ w, word_ok w = true → word_ok (f w) = true) →
  tokens_ok prev_word ts = true →
  ws_normal (untokens (map_words f ts)) = ws_normal (untokens ts).
Proof.
  intros Hf Hok. unfold ws_normal.
  pose proof (map_words_spaced f Hf ts prev_word true Hok) as Hsp.
  destruct ts as [|[w|c] ts]; [done|..].
  - cbn in Hok. apply andb_true_iff in Hok as [Hok _].
    apply andb_true_iff in Hok as [_ Hw].
    pose proof (Hf _ Hw) as Hfw.
    apply word_ok_inv in Hw as (c & w' & -> & _).
    apply word_ok_inv in Hfw as (c' & w'' & Hfw & _).
    cbn in *. rewrite Hfw in *. exact Hsp.
  - exact Hsp.
Qed.

(** ** One word through a table *)

Lemma table_in_word_cons ignorecase k a table w :
  table_in_word ignorecase ((k, a) :: table) w
    = table_in_word ignorecase table (sub_in_word ignorecase k a w).
Proof. reflexivity. Qed.

Lemma table_in_word_cases ignorecase table w :
  (table_in_word ignorecase table w = w
   ∧ Forall (λ kv, word_matches ignorecase kv.1 w = false) table)
  ∨ (∃ i kv, table !! i = Some kv
             ∧ table_in_word ignorecase table w
               = table_in_word ignorecase (drop (S i) table) kv.2).
Proof.
  revert w. induction table as [|[k a] table IH]; intros w; [by left|].
  rewrite table_in_word_cons. unfold sub_in_word.
  destruct (word_matches ignorecase k w) eqn:Hm.
  - right. exists 0%nat, (k, a). split; reflexivity.
  - destruct (IH w) as [[Heq Hall]|(i & kv & Hi & Heq)].
    + left. split; [done|]. by constructor.
    + right. exists (S i), kv. by split.
Qed.

Lemma table_in_word_unmatched ignorecase table w :
  Forall (λ kv, word_matches ignorecase kv.1 w = false) table →
  table_in_word ignorecase table w = w.
Proof.
  induction 1 as [|[k a] table Hm _ IH]; [done|].
  rewrite table_in_word_cons. unfold sub_in_word. cbn in Hm. by rewrite Hm.
Qed.

Lemma word_matches_upper key w :
  forallb ascii_word_char w = true →
  word_matches true key (map upper1 w) = word_matches true key w.
Proof.
  revert w. induction key as [|k key IH]; intros [|c w] Hw; try done.
  apply word_chars_inv in Hw as (_ & Hc & Hw). cbn.
  rewrite IH by done. unfold char_matches.
  destruct (case_maps c Hc) as (_ & _ & -> & _). done.
Qed.

Lemma map_upper1_twice w :
  forallb ascii_word_char w = true → map upper1 (map upper1 w) = map upper1 w.
Proof.
  induction w as [|c w IH]; [done|]. intros Hw.
  apply word_chars_inv in Hw as (_ & Hc & Hw). cbn.
  destruct (case_maps c Hc) as (_ & -> & _). by rewrite IH.
Qed.

Lemma table_stable_lookup table i kv :
  table_stable table = true → table !! i = Some kv →
  table_in_word true (drop (S i) table) kv.2 = kv.2
  ∧ table_in_word true table kv.2 = kv.2
  ∧ map upper1 kv.2 = kv.2.
Proof.
  unfold table_stable. rewrite forallb_forall. intros Hst Hi.
  specialize (Hst i). rewrite Hi in Hst.
  assert (In i (seq 0 (length table))) as Hin.
  { apply in_seq. apply lookup_lt_Some in Hi. lia. }
  specialize (Hst Hin).
  apply andb_true_iff in Hst as [Hst H3]. apply andb_true_iff in Hst as [H1 H2].
  by apply bool_decide_eq_true in H1, H2, H3.
Qed.

Lemma address_tables_ok : table_ok address_tables = true.
Proof. vm_compute. reflexivity. Qed.

Lemma address_tables_stable : table_stable address_tables = true.
Proof. vm_compute. reflexivity. Qed.

Lemma clean_word_ok w : word_ok w = true → word_ok (clean_word w) = true.
Proof.
  intros Hw. apply map_upper1_word_ok, table_in_word_ok; [|done].
  apply address_tables_ok.
Qed.

(** A cleaned word is left as it is by a second cleaning. *)
Lemma clean_word_twice w :
  word_ok w = true → clean_word (clean_word w) = clean_word w.
Proof.
  intros Hw. unfold clean_word.
  assert (forallb ascii_word_char w = true) as Hchars.
  { unfold word_ok in Hw. by apply andb_true_iff in Hw as [_ ?]. }
  destruct (table_in_word_cases true address_tables w)
    as [[Heq Hall]|(i & kv & Hi & Heq)].
  - rewrite Heq.
    rewrite (table_in_word_unmatched true address_tables (map upper1 w)).
    + by apply map_upper1_twice.
    + eapply Forall_impl; [exact Hall|]. intros kv Hkv. cbn in *.
      by rewrite word_matches_upper.
  - destruct (table_stable_lookup _ _ _ address_tables_stable Hi)
      as (Hlater & Hwhole & Hup).
    rewrite Heq, Hlater, Hup, Hwhole. exact Hup.
Qed.

(** ** [clean_address] is idempotent on Basic Latin text *)

Lemma map_words_ext_ok f g ts prev_word :
  (∀ w, word_ok w = true → f w = g w) →
  tokens_ok prev_word ts = true → map_words f ts = map_words g ts.
Proof.
  intros Hfg. revert prev_word.
  induction ts as [|[w|c] ts IH]; intros pw Hok; [done|..].
  - cbn in Hok. apply andb_true_iff in Hok as [Hok Hts].
    apply andb_true_iff in Hok as [_ Hw].
    cbn. rewrite (Hfg _ Hw). f_equal. by eapply IH.
  - cbn in Hok. apply andb_true_iff in Hok as [_ Hts].
    cbn. f_equal. by eapply IH.
Qed.

(** The steps of [clean_address] after the white space, word by word. *)
Lemma clean_address_tokens ts :
  tokens_ok false ts = true →
  py_upper (sub_table true street_types
              (sub_table true directional_map (untokens ts)))
    = untokens (map_words clean_word ts).
Proof.
  intros Hts.
  assert (table_ok directional_map = true) as Hd by (vm_compute; reflexivity).
  assert (table_ok street_types = true) as Hs by (vm_compute; reflexivity).
  rewrite (sub_table_tokens true _ Hd) by done.
  pose proof (map_words_ok _ (table_in_word_ok true _ Hd) _ _ Hts) as Hts1.
  rewrite (sub_table_tokens true _ Hs) by done.
  pose proof (map_words_ok _ (table_in_word_ok true _ Hs) _ _ Hts1) as Hts2.
  rewrite py_upper_ascii by (by eapply tokens_ok_ascii).
  rewrite (map_upper1_tokens _ _ Hts2), !map_words_compose.
  apply (f_equal untokens). apply map_words_ext. intros w.
  unfold clean_word, address_tables, table_in_word.
  cbn [compose]. by rewrite fold_left_app.
Qed.

Lemma clean_address_text c x :
  clean_address (VStr (c :: x)) =
    py_upper (sub_table true street_types
                (sub_table true directional_map
                   (re_sub_spaces (py_strip (c :: x))))).
Proof. reflexivity. Qed.

(** The display-mode cleaner applied twice, on Basic Latin text. *)
Lemma clean_address_idempotent x :
  ascii_text x = true →
  clean_address (VStr (clean_address (VStr x))) = clean_address (VStr x).
Proof.
  intros Hx. destruct x as [|c x]; [done|].
  rewrite clean_address_text.
  destruct (tokens_exist _ (ws_cleaned_ascii _ Hx)) as (ts & Hts & Hz).
  pose proof (ws_cleaned_normal (c :: x)) as Hnorm.
  rewrite <- Hz in *. rewrite clean_address_tokens by done.
  pose proof (map_words_ok _ clean_word_ok _ _ Hts) as Hts'.
  pose proof (map_words_normal _ _ _ clean_word_ok Hts) as Hnorm'.
  rewrite Hnorm in Hnorm'.
  destruct (untokens (map_words clean_word ts)) as [|d y] eqn:Hy; [done|].
  rewrite clean_address_text, <- Hy. rewrite <- Hy in Hnorm'.
  rewrite ws_normal_fixed by done.
  rewrite clean_address_tokens, map_words_compose by done.
  f_equal. eapply map_words_ext_ok; [|exact Hts].
  intros w Hw. by apply clean_word_twice.
Qed.

(** ** Title case *)

Lemma title_go_cons prev_cased c s :
  is_ascii c = true →
  title_go prev_cased (c :: s) =
    (if prev_cased then lower1 c else upper1 c) :: title_go (is_cased c) s.
Proof.
  intros Hc. cbn. unfold lower_char, title_char.
  destruct (N.eqb_spec c lig_st) as [->|_]; [by vm_compute in Hc|].
  destruct (N.eqb_spec c small_j_caron) as [->|_]; [by vm_compute in Hc|].
  by destruct prev_cased.
Qed.

Lemma title_ascii s :
  ascii_text s = true → ∀ prev_cased, ascii_text (title_go prev_cased s) = true.
Proof.
  induction s as [|c s IH]; [done|]. intros Hs p.
  cbn in Hs. apply andb_true_iff in Hs as [Hc Hs].
  rewrite title_go_cons by done. cbn. rewrite (IH Hs), andb_true_r.
  destruct p; [by apply lower1_ascii|by apply upper1_ascii].
Qed.

Lemma title_spaced s :
  ascii_text s = true →
  ∀ prev_cased b, spaced b (title_go prev_cased s) = spaced b s.
Proof.
  induction s as [|c s IH]; [done|]. intros Hs p b.
  cbn in Hs. apply andb_true_iff in Hs as [Hc Hs].
  rewrite title_go_cons by done. cbn.
  destruct (upper1_space c Hc) as [Hu1 Hu2].
  destruct (lower1_space c Hc) as [Hl1 Hl2].
  destruct p; rewrite ?Hu1, ?Hu2, ?Hl1, ?Hl2, !IH by done; done.
Qed.

Lemma title_normal s :
  ascii_text s = true → ws_normal (py_title s) = ws_normal s.
Proof.
  intros Hs. unfold ws_normal, py_title.
  pose proof (title_spaced s Hs false true) as Hsp.
  destruct s as [|c s]; [done|].
  cbn in Hs. apply andb_true_iff in Hs as [Hc Hs].
  rewrite title_go_cons in * by done. exact Hsp.
Qed.

Lemma title_twice s :
  ascii_text s = true →
  ∀ prev_cased,
    title_go prev_cased (title_go prev_cased s) = title_go prev_cased s.
Proof.
  induction s as [|c s IH]; [done|]. intros Hs p.
  cbn in Hs. apply andb_true_iff in Hs as [Hc Hs].
  rewrite title_go_cons by done.
  destruct (case_maps c Hc) as (Hll & Huu & _ & _ & Hcl & Hcu).
  rewrite title_go_cons by (destruct p; [by apply lower1_ascii|by apply upper1_ascii]).
  destruct p; rewrite ?Hll, ?Huu, ?Hcl, ?Hcu, IH by done; done.
Qed.

Lemma title_lower s :
  ascii_text s = true →
  ∀ prev_cased, title_go prev_cased (map lower1 s) = title_go prev_cased s.
Proof.
  induction s as [|c s IH]; [done|]. intros Hs p.
  cbn in Hs. apply andb_true_iff in Hs as [Hc Hs].
  cbn [map]. rewrite !title_go_cons by (done || by apply lower1_ascii).
  destruct (case_maps c Hc) as (Hll & _ & _ & Hul & Hcl & _).
  by rewrite Hll, Hul, Hcl, IH.
Qed.

Lemma lower_title s :
  ascii_text s = true →
  ∀ prev_cased, map lower1 (title_go prev_cased s) = map lower1 s.
Proof.
  induction s as [|c s IH]; [done|]. intros Hs p.
  cbn in Hs. apply andb_true_iff in Hs as [Hc Hs].
  rewrite title_go_cons by done. cbn [map]. rewrite IH by done.
  destruct (case_maps c Hc) as (Hll & _ & Hlu & _).
  by destruct p; rewrite ?Hll, ?Hlu.
Qed.

Lemma py_lower_map s : py_lower s = map lower1 s.
Proof. unfold py_lower. induction s as [|c s IH]; [done|]. cbn. by rewrite IH. Qed.

(** ** Tables that change case only *)

Lemma word_matches_exact key w :
  word_matches false key w = true → w = key.
Proof.
  revert w. induction key as [|k key IH]; intros [|c w]; try done.
  cbn. intros H. apply andb_true_iff in H as [Hc Hw].
  apply N.eqb_eq in Hc. subst c. f_equal. by apply IH.
Qed.

Lemma case_only_word table w :
  case_only table = true →
  map lower1 (table_in_word false table w) = map lower1 w.
Proof.
  revert w. induction table as [|[k a] table IH]; intros w Hco; [done|].
  cbn in Hco. apply andb_true_iff in Hco as [Hka Hco].
  apply bool_decide_eq_true in Hka. cbn in Hka.
  rewrite table_in_word_cons, IH by done. unfold sub_in_word.
  destruct (word_matches false k w) eqn:Hm; [|done].
  apply word_matches_exact in Hm. by subst w.
Qed.

Lemma lower_map_words f ts :
  (∀ w, map lower1 (f w) = map lower1 w) →
  map lower1 (untokens (map_words f ts)) = map lower1 (untokens ts).
Proof.
  intros Hf. induction ts as [|[w|c] ts IH]; [done|..].
  - cbn [map_words map]. rewrite !untokens_cons, !map_app. cbn [token_text].
    rewrite Hf. f_equal. exact IH.
  - cbn [map_words map]. rewrite !untokens_cons, !map_app. f_equal. exact IH.
Qed.

Lemma cache_abbreviations_ok : table_ok cache_abbreviations = true.
Proof. vm_compute. reflexivity. Qed.

Lemma cache_abbreviations_case_only : case_only cache_abbreviations = true.
Proof. vm_compute. reflexivity. Qed.

Lemma identity_table_word table w :
  Forall (λ kv : pystr * pystr, kv.1 = kv.2) table →
  table_in_word false table w = w.
Proof.
  induction 1 as [|[k a] table Hka _ IH]; [done|]. cbn in Hka. subst a.
  rewrite table_in_word_cons. unfold sub_in_word.
  destruct (word_matches false k w) eqn:Hm; [|exact IH].
  apply word_matches_exact in Hm. by subst w.
Qed.

(** Of the nine substitutions only the first changes anything. *)
Lemma cache_abbreviations_word w :
  table_in_word false cache_abbreviations w
    = sub_in_word false (str "Fl") (str "FL") w.
Proof.
  unfold cache_abbreviations. rewrite table_in_word_cons.
  apply identity_table_word. by repeat constructor.
Qed.

Lemma clean_address_for_cache_text c x :
  clean_address_for_cache (VStr (c :: x)) =
    sub_table false cache_abbreviations
      (py_title (re_sub_spaces (py_strip (c :: x)))).
Proof. reflexivity. Qed.

(** The cache-key cleaner on a text that is clean of white space. *)
Lemma cache_tables_lower s :
  ascii_text s = true →
  map lower1 (sub_table false cache_abbreviations s) = map lower1 s
  ∧ ws_normal (sub_table false cache_abbreviations s) = ws_normal s
  ∧ ascii_text (sub_table false cache_abbreviations s) = true
  ∧ sub_table false cache_abbreviations s
      = re_sub_word false (str "Fl") (str "FL") s.
Proof.
  intros Hs. destruct (tokens_exist s Hs) as (ts & Hts & <-).
  rewrite (sub_table_tokens false _ cache_abbreviations_ok) by done.
  pose proof (table_in_word_ok false _ cache_abbreviations_ok) as Hok.
  repeat split.
  - apply lower_map_words. intros w.
    apply case_only_word, cache_abbreviations_case_only.
  - by eapply map_words_normal.
  - eapply tokens_ok_ascii. by eapply map_words_ok.
  - unfold re_sub_word. rewrite sub_go_tokens by done.
    f_equal. apply map_words_ext, cache_abbreviations_word.
Qed.

Lemma clean_address_for_cache_idempotent x :
  ascii_text x = true →
  clean_address_for_cache (VStr (clean_address_for_cache (VStr x)))
    = clean_address_for_cache (VStr x).
Proof.
  intros Hx. destruct x as [|c x]; [done|].
  rewrite clean_address_for_cache_text.
  set (z := re_sub_spaces (py_strip (c :: x))).
  assert (ascii_text z = true) as Hz by (by apply ws_cleaned_ascii).
  assert (ws_normal z = true) as Hnz by apply ws_cleaned_normal.
  assert (ascii_text (py_title z) = true) as Ht by (by apply title_ascii).
  destruct (cache_tables_lower _ Ht) as (Hlow & Hnorm & Hasc & _).
  rewrite title_normal, Hnz in Hnorm by done.
  destruct (sub_table false cache_abbreviations (py_title z)) as [|d y] eqn:Hy;
    [done|].
  rewrite clean_address_for_cache_text, ws_normal_fixed by done.
  unfold py_title in *.
  rewrite <- (title_lower (d :: y)), Hlow, title_lower by done.
  by rewrite title_twice.
Qed.

(** C1, as the program has it: on every text of the Basic Latin block the
    display-mode cleaner and the cache-key cleaner are idempotent. *)
Theorem cleaners_idempotent_on_basic_latin x :
  ascii_text x = true →
  clean_address (VStr (clean_address (VStr x))) = clean_address (VStr x)
  ∧ clean_address_for_cache (VStr (clean_address_for_cache (VStr x)))
    = clean_address_for_cache (VStr x).
Proof.
  intros Hx. split.
  - by apply clean_address_idempotent.
  - by apply clean_address_for_cache_idempotent.
Qed.

Lemma cleaners_idempotent_on_basic_latin_witness :
  ascii_text (str "  12  north  Main STREET, fl ") = true
  ∧ clean_address (VStr (str "  12  north  Main STREET, fl "))
    = str "12 N MAIN ST, FL"
  ∧ clean_address
      (VStr (clean_address (VStr (str "  12  north  Main STREET, fl "))))
    = clean_address (VStr (str "  12  north  Main STREET, fl "))
  ∧ clean_address_for_cache
      (VStr (clean_address_for_cache
               (VStr (str "  12  north  Main STREET, fl "))))
    = clean_address_for_cache (VStr (str "  12  north  Main STREET, fl ")).
Proof.
  split; [by vm_compute|]. split; [by vm_compute|].
  apply (cleaners_idempotent_on_basic_latin
           (str "  12  north  Main STREET, fl ")).
  by vm_compute.
Defined.

(** C1 fails as stated, for both cleaners.  "we" followed by the ligature
    U+FB06 is upper-cased to "WEST" after the directionals were looked for,
    and a second cleaning abbreviates it to "W".  The letter U+01F0 followed
    by "a" is title-cased to "J", U+030C, "a", and a second title-casing
    capitalizes the "a" that now follows a caseless character. *)
Lemma cleaners_not_idempotent :
  clean_address (VStr [119; 101; lig_st]) = str "WEST"
  ∧ clean_address (VStr (clean_address (VStr [119; 101; lig_st]))) = str "W"
  ∧ clean_address (VStr (clean_address (VStr [119; 101; lig_st])))
    ≠ clean_address (VStr [119; 101; lig_st])
  ∧ clean_address_for_cache (VStr [small_j_caron; 97])
    = [74; combining_caron; 97]
  ∧ clean_address_for_cache
      (VStr (clean_address_for_cache (VStr [small_j_caron; 97])))
    = [74; combining_caron; 65]
  ∧ clean_address_for_cache
      (VStr (clean_address_for_cache (VStr [small_j_caron; 97])))
    ≠ clean_address_for_cache (VStr [small_j_caron; 97]).
Proof. vm_compute. repeat split; discriminate. Qed.

(** ** What the cache-key cleaner does *)

(** C4, as the program has it: on every Basic Latin text the cache-key
    cleaner cleans the white space, converts to title case and puts the
    whole word "Fl" back in capitals; the result differs from the text
    cleaned of white space in the case of letters only, so no directional
    and no street type is abbreviated. *)
Theorem cache_key_changes_case_only x :
  ascii_text x = true →
  clean_address_for_cache (VStr x)
    = re_sub_word false (str "Fl") (str "FL")
        (py_title (re_sub_spaces (py_strip x)))
  ∧ py_lower (clean_address_for_cache (VStr x))
    = py_lower (re_sub_spaces (py_strip x)).
Proof.
  intros Hx. destruct x as [|c x]; [by vm_compute|].
  rewrite clean_address_for_cache_text.
  set (z := re_sub_spaces (py_strip (c :: x))).
  assert (ascii_text z = true) as Hz by (by apply ws_cleaned_ascii).
  assert (ascii_text (py_title z) = true) as Ht by (by apply title_ascii).
  destruct (cache_tables_lower _ Ht) as (Hlow & _ & _ & Hfl).
  split; [exact Hfl|].
  rewrite !py_lower_map, Hlow. by apply lower_title.
Qed.

Lemma cache_key_changes_case_only_witness :
  ascii_text (str " 123  NORTH main STREET, fl ") = true
  ∧ clean_address_for_cache (VStr (str " 123  NORTH main STREET, fl "))
    = str "123 North Main Street, FL"
  ∧ py_lower (clean_address_for_cache (VStr (str " 123  NORTH main STREET, fl ")))
    = py_lower (re_sub_spaces (py_strip (str " 123  NORTH main STREET, fl "))).
Proof.
  split; [by vm_compute|]. split; [by vm_compute|].
  apply (cache_key_changes_case_only (str " 123  NORTH main STREET, fl ")).
  by vm_compute.
Defined.

(** C4 fails as stated: NORTH and STREET come out in title case, not
    abbreviated as the four rules together would have them. *)
Lemma cache_key_does_not_abbreviate :
  clean_address_for_cache (VStr (str "123 NORTH MAIN STREET"))
    = str "123 North Main Street"
  ∧ clean_address_for_cache_as_specified (VStr (str "123 NORTH MAIN STREET"))
    = str "123 N Main ST"
  ∧ clean_address_for_cache (VStr (str "123 NORTH MAIN STREET"))
    ≠ clean_address_for_cache_as_specified
        (VStr (str "123 NORTH MAIN STREET")).
Proof. vm_compute. repeat split; discriminate. Qed.

(** * Further properties of the processor *)

(** ** One record, step by step *)

(** What a call of [normalize_permit] that returns a record did. *)
Lemma normalize_permit_returns self env raw w p w' :
  normalize_permit self env raw w = (Ok p, w') →
  ∃ coords wg,
    geocode_step self env
      (dated_data (cleaned_data (described_data raw)) (clock env (ticks w)))
      (tick w) = (Ok coords, wg)
    ∧ ticks wg = S (ticks w)
    ∧ w' = tick wg
    ∧ p = build_permit
            (fill_defaults
               (dated_data (cleaned_data (described_data raw))
                  (clock env (ticks w))))
            coords (value_of (described_data raw)) (clock env (ticks wg)).
Proof.
  intros Hrun.
  destruct (normalize_permit_effects self env raw w)
    as (r & w1 & ev & Hrun' & _ & _ & _ & Hr).
  rewrite Hrun in Hrun'. injection Hrun' as <- <-.
  destruct (geocode_step_effects self env
              (dated_data (cleaned_data (described_data raw))
                 (clock env (ticks w))) (tick w))
    as (coords & wg & ev' & Hstep & _ & _ & Hticks & _).
  rewrite (normalize_permit_run _ _ _ _ _ _ Hr Hstep) in Hrun.
  injection Hrun as <- <-. by exists coords, wg.
Qed.

(** A relation between states that every step of a batch respects is
    respected by the whole batch. *)
Section state_relation.
Variables (self : processor) (env : environment).
Variable R : world → world → Prop.
Hypothesis R_refl : ∀ w, R w w.
Hypothesis R_trans : ∀ w1 w2 w3, R w1 w2 → R w2 w3 → R w1 w3.
Hypothesis R_tick : ∀ w, R w (tick w).
Hypothesis R_geocode :
  ∀ address city zipcode w coords w',
    geocode_address self env address city zipcode w = (Ok coords, w') →
    R w w'.

Lemma geocode_step_respects data w coords w' :
  geocode_step self env data w = (Ok coords, w') → R w w'.
Proof.
  unfold geocode_step. destruct (_ && _).
  - apply R_geocode.
  - intros H. injection H as <- <-. apply R_refl.
Qed.

Lemma normalize_permit_respects raw w r w' :
  normalize_permit self env raw w = (r, w') → R w w'.
Proof.
  intros Hrun. destruct r as [p|e].
  - apply normalize_permit_returns in Hrun as (coords & wg & Hstep & _ & -> & _).
    apply geocode_step_respects in Hstep. eauto.
  - destruct (normalize_permit_effects self env raw w)
      as (r & w1 & ev & Hrun' & _ & _ & _ & Hr).
    rewrite Hrun in Hrun'. injection Hrun' as <- <-.
    destruct Hr as [_ ->]. apply R_refl.
Qed.

Lemma batch_run_respects w raws ps w' :
  batch_run self env w raws ps w' → R w w'.
Proof.
  induction 1 as [w|w raw p w1 rest ps w2 Hrun _ IH|w raw e w1 rest ps w2 Hrun _ IH].
  - apply R_refl.
  - apply normalize_permit_respects in Hrun. eauto.
  - apply normalize_permit_respects in Hrun. eauto.
Qed.

(** A property of records that holds for what [normalize_permit] returns
    in a state, and still holds in every later state, holds for all the
    records of a batch in the state at its end. *)
Variable P : world → NormalizedPermit → Prop.
Hypothesis P_later : ∀ w w' p, R w w' → P w p → P w' p.
Hypothesis P_normalize :
  ∀ raw w p w', normalize_permit self env raw w = (Ok p, w') → P w' p.

Lemma batch_run_records w raws ps w' :
  batch_run self env w raws ps w' → Forall (P w') ps.
Proof.
  induction 1 as [w|w raw p w1 rest ps w2 Hrun Hrest IH|w raw e w1 rest ps w2 Hrun _ IH].
  - constructor.
  - constructor; [|exact IH].
    apply (P_later w1); [|by eapply P_normalize].
    clear -Hrest R_refl R_trans R_tick R_geocode.
    induction Hrest as [w|w raw p w1 rest ps w2 Hrun _ IH|w raw e w1 rest ps w2 Hrun _ IH].
    + apply R_refl.
    + apply normalize_permit_respects in Hrun. eauto.
    + apply normalize_permit_respects in Hrun. eauto.
  - exact IH.
Qed.
End state_relation.

(** ** The cache never loses a pair *)

Lemma pairs_kept_refl cache : pairs_kept cache cache.
Proof. by intros key found. Qed.

Lemma pairs_kept_trans c1 c2 c3 :
  pairs_kept c1 c2 → pairs_kept c2 c3 → pairs_kept c1 c3.
Proof. intros H12 H23 key found H. by apply H23, H12. Qed.

Lemma cache_lookup_None_head cache key keys :
  cache_lookup cache (key :: keys) = None → ¬ holds_pair cache key.
Proof.
  cbn. intros H [found Hf]. rewrite Hf in H. discriminate.
Qed.

Lemma pairs_kept_insert (cache : gmap pystr cache_entry) key entry :
  ¬ holds_pair cache key → pairs_kept cache (<[key := entry]> cache).
Proof.
  intros Hmiss k found Hk. destruct (decide (key = k)) as [->|Hne].
  - exfalso. apply Hmiss. by exists found.
  - by rewrite lookup_insert_ne.
Qed.

Lemma geocode_address_keeps_pairs self env address city zipcode w coords w' :
  geocode_address self env address city zipcode w = (Ok coords, w') →
  pairs_kept (geocode_cache w) (geocode_cache w').
Proof.
  rewrite geocode_address_unfold. cbv zeta.
  destruct (negb (enable_geocoding self)).
  { intros H. injection H as <- <-. apply pairs_kept_refl. }
  destruct (cache_lookup _ _) as [found|] eqn:Hl.
  { intros H. injection H as <- <-. apply pairs_kept_refl. }
  apply cache_lookup_None_head in Hl.
  destruct (negb (key_usable _)).
  { intros H. injection H as <- <-. apply pairs_kept_refl. }
  destruct (service env _ _); intros H; injection H as <- <-; cbn.
  - apply pairs_kept_refl.
  - by apply pairs_kept_insert.
  - by apply pairs_kept_insert.
Qed.

(** [process_permits] keeps every pair of its cache. *)
Lemma process_permits_keeps_pairs self env raws w ps w' :
  process_permits self env raws w = (Ok ps, w') →
  pairs_kept (geocode_cache w) (geocode_cache w').
Proof.
  intros Hrun.
  destruct (process_loop_run self env raws [] w) as (ps' & w1 & ev & Hloop & Hb & _).
  unfold process_permits in Hrun. rewrite Hloop in Hrun. injection Hrun as <- <-.
  apply (batch_run_respects self env
           (λ w w', pairs_kept (geocode_cache w) (geocode_cache w')))
    in Hb; [done|..].
  - intros ?. apply pairs_kept_refl.
  - intros ???. apply pairs_kept_trans.
  - intros ?. apply pairs_kept_refl.
  - intros ??????. apply geocode_address_keeps_pairs.
Qed.

(** X1: a run never removes or changes, in the processor's cache, a pair of
    coordinates that the cache file held at the start.  With geocoding off
    the file is not written.  With geocoding on the run ends with a write
    of the cache file, and when that last write goes through, the file
    holds the cache as it is in memory, and so every pair it held at the
    start; a write that fails is swallowed and may leave the file as it was
    or unreadable. *)
Theorem cache_file_keeps_pairs env raw_permits enable w :
  ∃ normalized w',
    normalize_and_geocode_permits env raw_permits enable w
      = (Ok normalized, w')
    ∧ pairs_kept (load_geocoding_cache w) (geocode_cache w')
    ∧ (enable = false → disk w' = disk w)
    ∧ (enable = true →
       (0 < flushes (trace w'))%nat
       ∧ (cache_write env (Nat.pred (flushes (trace w'))) = Written →
          disk w' = Some (geocode_cache w')
          ∧ pairs_kept (load_geocoding_cache w) (load_geocoding_cache w'))).
Proof.
  unfold normalize_and_geocode_permits, mbind, M_bind, bind, new_processor.
  set (self := {| enable_geocoding := enable; google_api_key := api_key_env env |}).
  set (w1 := {| disk := disk w; geocode_cache := load_geocoding_cache w;
                ticks := ticks w; trace := trace w |}).
  destruct (process_loop_run self env raw_permits [] w1)
    as (ps & w2 & ev & Hloop & Hb & Htr & _ & Hoff).
  pose proof (process_permits_keeps_pairs self env raw_permits w1 ps w2 Hloop)
    as Hkept.
  unfold process_permits. rewrite Hloop. cbn [app] in *.
  exists ps. destruct enable.
  - unfold save_geocoding_cache. eexists. split; [reflexivity|].
    cbn [geocode_cache disk trace]. split; [done|]. split; [done|].
    intros _. rewrite flushes_app.
    assert (flushes [EvFlush (geocode_cache w2)] = 1%nat) as -> by done.
    split; [lia|].
    replace (Nat.pred (flushes (trace w2) + 1)) with (flushes (trace w2))
      by lia.
    intros ->. by cbn [written_file load_geocoding_cache default].
  - exists w2. split; [reflexivity|].
    assert (disk w2 = disk w1 ∧ geocode_cache w2 = geocode_cache w1) as [Hd Hc].
    { apply (batch_run_respects self env
               (λ w w', disk w' = disk w ∧ geocode_cache w' = geocode_cache w))
        in Hb; [done|..].
      - done.
      - intros ??? [? ?] [? ?]. split; congruence.
      - done.
      - intros a c z w0 coords w0'. rewrite geocode_address_unfold. cbv zeta.
        cbn [enable_geocoding self negb]. intros H. by injection H as <- <-. }
    rewrite Hc. split; [apply pairs_kept_refl|]. by split.
Qed.


(** ** Geocoding switched off, or without a key *)

Lemma same_outside_refl w : same_outside w w.
Proof. by repeat split. Qed.

Lemma same_outside_trans w1 w2 w3 :
  same_outside w1 w2 → same_outside w2 w3 → same_outside w1 w3.
Proof. intros (? & ? & ?) (? & ? & ?). repeat split; congruence. Qed.

Lemma geocode_address_quiet self env address city zipcode w coords w' :
  enable_geocoding self = false ∨ key_usable (google_api_key self) = false →
  geocode_address self env address city zipcode w = (Ok coords, w') →
  w' = w
  ∧ (enable_geocoding self = false → coords = None)
  ∧ ∀ found, coords = Some found →
             ∃ key, geocode_cache w !! key = Some (Some found).
Proof.
  intros Hquiet. rewrite geocode_address_unfold. cbv zeta.
  destruct (enable_geocoding self); cbn [negb].
  2: { intros H. injection H as <- <-. by repeat split. }
  destruct Hquiet as [?|Hkey]; [done|].
  destruct (cache_lookup _ _) as [found|] eqn:Hl.
  - intros H. injection H as <- <-. repeat split; [done|].
    intros f Hf. injection Hf as <-.
    cbn [cache_lookup] in Hl.
    destruct (geocode_cache w !! _) as [[f1|]|] eqn:E1.
    + injection Hl as <-. eauto.
    + destruct (geocode_cache w !! clean_address_for_cache _) as [[f2|]|] eqn:E2;
        [|done..]. injection Hl as <-. eauto.
    + destruct (geocode_cache w !! clean_address_for_cache _) as [[f2|]|] eqn:E2;
        [|done..]. injection Hl as <-. eauto.
  - rewrite Hkey. cbn [negb]. intros H. injection H as <- <-. by repeat split.
Qed.

Section quiet_batch.
Variables (self : processor) (env : environment).
Hypothesis quiet :
  enable_geocoding self = false ∨ key_usable (google_api_key self) = false.

Lemma quiet_batch_run w raws ps w' :
  batch_run self env w raws ps w' →
  same_outside w w'
  ∧ Forall (λ p, (enable_geocoding self = false → coordinates p = None)
                 ∧ coordinates_from (geocode_cache w) p) ps.
Proof.
  intros Hb.
  assert (same_outside w w') as Hsame.
  { apply (batch_run_respects self env same_outside) in Hb; [done|..].
    - apply same_outside_refl.
    - apply same_outside_trans.
    - intros ?. by repeat split.
    - intros a c z w0 coords w0' Hg.
      apply geocode_address_quiet in Hg as (-> & _); [|done].
      apply same_outside_refl. }
  split; [done|].
  apply (batch_run_records self env same_outside
           same_outside_refl same_outside_trans
           (λ w0, ltac:(by repeat split))
           (λ a c z w0 coords w0' Hg,
              ltac:(apply geocode_address_quiet in Hg as (-> & _);
                    [apply same_outside_refl|done]))
           (λ w0 p, same_outside w0 w' →
                    (enable_geocoding self = false → coordinates p = None)
                    ∧ coordinates_from (geocode_cache w) p)) in Hb.
  - eapply Forall_impl; [exact Hb|]. intros p Hp. apply Hp, same_outside_refl.
  - intros w0 w1 p H01 Hp H1. apply Hp. by eapply same_outside_trans.
  - intros raw w0 p w1 Hrun H1.
    apply normalize_permit_returns in Hrun as (coords & wg & Hstep & _ & -> & ->).
    cbn [coordinates build_permit]. unfold geocode_step in Hstep.
    destruct (_ && _).
    + apply geocode_address_quiet in Hstep as (-> & Hnone & Hfrom); [|done].
      split; [done|]. intros found Hf. destruct (Hfrom _ Hf) as [key Hkey].
      exists key. destruct Hsame as (_ & Hc & _). destruct H1 as (_ & Hc1 & _).
      cbn [tick geocode_cache] in *. congruence.
    + injection Hstep as <- <-. split; [done|]. intros found Hf. discriminate.
Qed.
End quiet_batch.

(** X2: without a usable API key [process_permits] asks the service
    nothing and leaves the cache and its file as they are; whatever
    coordinates its records carry are pairs of the cache. *)
Theorem cache_only_without_key self env raw_permits w :
  key_usable (google_api_key self) = false →
  ∃ normalized w',
    process_permits self env raw_permits w = (Ok normalized, w')
    ∧ trace w' = trace w
    ∧ geocode_cache w' = geocode_cache w
    ∧ disk w' = disk w
    ∧ Forall (coordinates_from (geocode_cache w)) normalized.
Proof.
  intros Hkey.
  destruct (process_loop_run self env raw_permits [] w)
    as (ps & w' & ev & Hloop & Hb & _).
  exists ps, w'. split; [exact Hloop|].
  destruct (quiet_batch_run self env (or_intror Hkey) _ _ _ _ Hb)
    as ((Hd & Hc & Ht) & HF).
  repeat split; try done.
  eapply Forall_impl; [exact HF|]. by intros p [_ ?].
Qed.

Lemma cache_only_without_key_witness :
  ∃ normalized w',
    process_permits cache_only_processor finding_env [sample_permit]
      cached_world = (Ok normalized, w')
    ∧ trace w' = trace cached_world
    ∧ geocode_cache w' = geocode_cache cached_world
    ∧ disk w' = disk cached_world
    ∧ Forall (coordinates_from (geocode_cache cached_world)) normalized.
Proof.
  apply (cache_only_without_key cache_only_processor finding_env
           [sample_permit] cached_world).
  reflexivity.
Defined.

(** X3: with geocoding switched off [process_permits] has no effect
    outside the clock, and no record it returns has coordinates. *)
Theorem no_coordinates_when_disabled self env raw_permits w :
  enable_geocoding self = false →
  ∃ normalized w',
    process_permits self env raw_permits w = (Ok normalized, w')
    ∧ trace w' = trace w
    ∧ geocode_cache w' = geocode_cache w
    ∧ disk w' = disk w
    ∧ Forall (λ p, coordinates p = None) normalized.
Proof.
  intros Hoff.
  destruct (process_loop_run self env raw_permits [] w)
    as (ps & w' & ev & Hloop & Hb & _).
  exists ps, w'. split; [exact Hloop|].
  destruct (quiet_batch_run self env (or_introl Hoff) _ _ _ _ Hb)
    as ((Hd & Hc & Ht) & HF).
  repeat split; try done.
  eapply Forall_impl; [exact HF|]. intros p [Hnone _]. by apply Hnone.
Qed.

Lemma no_coordinates_when_disabled_witness :
  ∃ normalized w',
    process_permits plain_processor finding_env [sample_permit; roof_permit]
      cached_world = (Ok normalized, w')
    ∧ trace w' = trace cached_world
    ∧ geocode_cache w' = geocode_cache cached_world
    ∧ disk w' = disk cached_world
    ∧ Forall (λ p, coordinates p = None) normalized.
Proof.
  apply (no_coordinates_when_disabled plain_processor finding_env
           [sample_permit; roof_permit] cached_world).
  reflexivity.
Defined.

(** ** A look-up that finds the address *)

(** X4: with geocoding on and a key, when the cache holds no pair for the
    address and the service finds it, the pair is returned and filed under
    the full address in the processor's cache, and a write of the cache
    file follows, which leaves the file with the cache when it goes
    through; the next look-up of the same address returns the same pair
    from the cache and changes nothing, whatever the service would answer.
    The full address is taken in Basic Latin, where the cache-key form of
    the model is the program's. *)
Theorem found_result_cached self env address city zipcode w lat lng :
  let full := full_address_of address city zipcode in
  ascii_text full = true →
  enable_geocoding self = true →
  key_usable (google_api_key self) = true →
  ¬ holds_pair (geocode_cache w) full →
  ¬ holds_pair (geocode_cache w) (clean_address_for_cache (VStr full)) →
  service env (api_calls (trace w)) full = ApiFound lat lng →
  ∃ w',
    geocode_address self env address city zipcode w = (Ok (Some (lat, lng)), w')
    ∧ geocode_cache w' = <[full := Some (lat, lng)]> (geocode_cache w)
    ∧ (cache_write env (flushes (trace w)) = Written →
       disk w' = Some (geocode_cache w'))
    ∧ trace w' = trace w ++ [EvApiCall full; EvFlush (geocode_cache w')]
    ∧ ∀ env', geocode_address self env' address city zipcode w'
              = (Ok (Some (lat, lng)), w').
Proof.
  intros full _ Hon Hkey Hmiss1 Hmiss2 Hfound.
  rewrite geocode_address_unfold. cbv zeta. fold full.
  rewrite Hon, Hkey, cache_lookup_miss by (by repeat constructor).
  cbn [negb]. rewrite Hfound. eexists. split; [reflexivity|].
  cbn [geocode_cache disk trace]. rewrite <- app_assoc.
  split; [done|]. split; [by intros ->|]. split; [done|]. intros env'.
  rewrite geocode_address_unfold. cbv zeta. fold full.
  rewrite Hon. cbn [negb geocode_cache cache_lookup].
  by rewrite lookup_insert_eq.
Qed.

Lemma found_result_cached_witness :
  let full := full_address_of (str "123 MAIN ST") (VStr (str "Miami"))
                (VStr (str "33101")) in
  ∃ w',
    geocode_address geocoding_processor finding_env (str "123 MAIN ST")
      (VStr (str "Miami")) (VStr (str "33101")) fresh_world
      = (Ok (Some (sample_coords.1, sample_coords.2)), w')
    ∧ geocode_cache w'
      = <[full := Some (sample_coords.1, sample_coords.2)]>
          (geocode_cache fresh_world)
    ∧ (cache_write finding_env (flushes (trace fresh_world)) = Written →
       disk w' = Some (geocode_cache w'))
    ∧ trace w' = trace fresh_world ++ [EvApiCall full; EvFlush (geocode_cache w')]
    ∧ ∀ env', geocode_address geocoding_processor env' (str "123 MAIN ST")
                (VStr (str "Miami")) (VStr (str "33101")) w'
              = (Ok (Some (sample_coords.1, sample_coords.2)), w').
Proof.
  intros full.
  apply (found_result_cached geocoding_processor finding_env
           (str "123 MAIN ST") (VStr (str "Miami")) (VStr (str "33101"))
           fresh_world sample_coords.1 sample_coords.2); try reflexivity.
  - intros [found Hf]. vm_compute in Hf. discriminate Hf.
  - intros [found Hf]. vm_compute in Hf. discriminate Hf.
Defined.


(** ** The fields of a record *)

Lemma text_fields_keys p :
  (text_fields p).*1 =
    [ str "permit_id"; str "source_county"; str "permit_type";
      str "description"; str "address"; str "city"; str "zipcode";
      str "applicant_name"; str "contractor_name"; str "issue_date";
      str "expiration_date"; str "status" ].
Proof. reflexivity. Qed.

Lemma asdict_text p field value :
  (field, value) ∈ text_fields p → asdict p !! field = Some (FText value).
Proof.
  intros Hin. unfold asdict. apply elem_of_list_to_map_1.
  - rewrite fmap_app, <- list_fmap_compose.
    change ((fst ∘ (λ kv : pystr * pyval, (kv.1, FText kv.2))) <$> text_fields p)
      with ((text_fields p).*1).
    rewrite text_fields_keys. cbn [fmap list_fmap fst app].
    decide_closed.
  - apply elem_of_app. left. apply list_elem_of_fmap. by exists (field, value).
Qed.

Lemma assoc_unique {A} (l : list (pystr * A)) key v1 v2 :
  NoDup l.*1 → (key, v1) ∈ l → (key, v2) ∈ l → v1 = v2.
Proof.
  induction l as [|[k v] l IH]; intros Hnd H1 H2; [by apply elem_of_nil in H1|].
  rewrite fmap_cons, NoDup_cons in Hnd. destruct Hnd as [Hnotin Hnd].
  apply elem_of_cons in H1 as [H1|H1], H2 as [H2|H2].
  - congruence.
  - exfalso. apply Hnotin. injection H1 as -> ->.
    apply list_elem_of_fmap. by exists (k, v2).
  - exfalso. apply Hnotin. injection H2 as -> ->.
    apply list_elem_of_fmap. by exists (k, v1).
  - by apply IH.
Qed.

Lemma required_default_found field dflt :
  (field, dflt) ∈ required_defaults →
  ∃ i, list_find (λ item : pystr * pyval, item.1 = field) required_defaults
       = Some (i, (field, dflt)).
Proof.
  intros Hin.
  destruct (list_find _ required_defaults) as [[i [k d]]|] eqn:E.
  - apply list_find_Some in E as (Hi & Hk & _). cbn in Hk. subst k.
    exists i. do 3 f_equal.
    eapply assoc_unique; [apply required_defaults_NoDup| |exact Hin].
    by eapply list_elem_of_lookup_2.
  - exfalso. apply list_find_None in E.
    eapply Forall_forall in E; [|exact Hin]. by apply E.
Qed.

Lemma required_default_not_None field dflt :
  (field, dflt) ∈ required_defaults → dflt ≠ VNone.
Proof.
  intros Hin.
  assert (Forall (λ item : pystr * pyval, item.2 ≠ VNone) required_defaults)
    as HF by (repeat constructor; discriminate).
  eapply Forall_forall in HF; [|exact Hin]. exact HF.
Qed.

(** After the loop over the defaults a required field holds a true value
    or its default. *)
Lemma filled_default data field dflt :
  (field, dflt) ∈ required_defaults →
  dict_get (fill_defaults data) field VNone ≠ VNone
  ∧ (truthy (dict_get (fill_defaults data) field VNone) = true
     ∨ dict_get (fill_defaults data) field VNone = dflt).
Proof.
  intros Hin. unfold dict_get. rewrite fill_defaults_lookup.
  destruct (required_default_found _ _ Hin) as [i ->].
  pose proof (required_default_not_None _ _ Hin) as Hd. cbn [snd].
  destruct (data !! field) as [v|]; cbn; [|by split; [|right]].
  destruct (truthy v) eqn:Ht; cbn.
  - split; [|by left]. intros ->. discriminate.
  - by split; [|right].
Qed.

Lemma required_in_text_fields data coords value stamp field dflt :
  (field, dflt) ∈ required_defaults →
  (field, dict_get data field VNone)
    ∈ text_fields (build_permit data coords value stamp).
Proof.
  intros Hin. unfold required_defaults in Hin.
  unfold text_fields, build_permit.
  cbn [permit_id source_county permit_type description address city zipcode
       applicant_name contractor_name issue_date expiration_date status].
  repeat (apply elem_of_cons in Hin as [Heq|Hin];
          [pose proof (f_equal fst Heq) as Hf; cbn [fst] in Hf; subst field;
           clear; repeat (first [apply list_elem_of_here|apply list_elem_of_further])|]).
  by apply elem_of_nil in Hin.
Qed.

Lemma final_lookup raw now field :
  field ≠ str "issue_date" → field ≠ str "address" →
  field ≠ str "description" →
  fill_defaults (dated_data (cleaned_data (described_data raw)) now) !! field =
    match list_find (λ item : pystr * pyval, item.1 = field) required_defaults with
    | Some (_, item) =>
        match mapped_value raw field with
        | Some value => if truthy value then Some value else Some item.2
        | None =>
            match ({[ str "source_county" := county_of raw ]}
                     : gmap pystr pyval) !! field with
            | Some value => if truthy value then Some value else Some item.2
            | None => Some item.2
            end
        end
    | None =>
        match mapped_value raw field with
        | Some value => Some value
        | None => ({[ str "source_county" := county_of raw ]}
                     : gmap pystr pyval) !! field
        end
    end.
Proof.
  intros H1 H2 H3. rewrite fill_defaults_lookup.
  rewrite dated_data_lookup, cleaned_data_lookup, described_data_lookup by done.
  by destruct (mapped_value raw field).
Qed.

(** X5: every record that [normalize_permit] returns has its six required
    fields filled: in its dictionary each holds a true value or its
    default, never [None]; and the address is a string. *)
Theorem required_fields_filled self env raw_permit w p w' :
  normalize_permit self env raw_permit w = (Ok p, w') →
  Forall (λ item : pystr * pyval,
            ∃ value, asdict p !! item.1 = Some (FText value)
                     ∧ value ≠ VNone
                     ∧ (truthy value = true ∨ value = item.2))
         required_defaults
  ∧ ∃ text, address p = VStr text.
Proof.
  intros Hrun.
  apply normalize_permit_returns in Hrun as (coords & wg & _ & _ & _ & ->).
  set (data := dated_data _ _). split.
  - apply Forall_forall. intros [field dflt] Hin. cbn [fst snd].
    exists (dict_get (fill_defaults data) field VNone).
    split; [|by apply filled_default].
    apply asdict_text. by eapply required_in_text_fields.
  - cbn [address build_permit]. unfold dict_get. rewrite fill_defaults_lookup.
    assert (list_find (λ item : pystr * pyval, item.1 = str "address")
              required_defaults = Some (3%nat, (str "address", VStr []))) as ->
      by (vm_compute; reflexivity).
    unfold data. rewrite dated_data_lookup by decide_closed.
    unfold cleaned_data.
    destruct (described_data raw_permit !! str "address") as [a|] eqn:E.
    + rewrite lookup_insert_eq. cbn [truthy snd].
      destruct (clean_address a) eqn:Ea; cbn; eauto.
    + rewrite E. cbn. eauto.
Qed.

Lemma required_fields_filled_witness :
  ∃ p w',
    normalize_permit geocoding_processor finding_env roof_permit fresh_world
      = (Ok p, w')
    ∧ Forall (λ item : pystr * pyval,
                ∃ value, asdict p !! item.1 = Some (FText value)
                         ∧ value ≠ VNone
                         ∧ (truthy value = true ∨ value = item.2))
             required_defaults
    ∧ ∃ text, address p = VStr text.
Proof.
  eexists _, _. split; [vm_compute; reflexivity|].
  eapply (required_fields_filled geocoding_processor finding_env roof_permit
            fresh_world).
  vm_compute. reflexivity.
Defined.

(** X6: for a record of a mapped county, each field that the table copies
    (identifier, type, city, zip code, applicant, contractor, expiration
    date, status) holds in the end the value the raw record has under the
    source field; when that value is absent or [None] the field holds its
    default ([None] for an optional field), and a required field also
    falls back to its default when the value is false. *)
Theorem copied_fields_come_through self env raw_permit w p w' field source :
  normalize_permit self env raw_permit w = (Ok p, w') →
  field ∈ copied_fields →
  source_field_of (county_mapping (county_of raw_permit)) field = Some source →
  asdict p !! field
    = Some (FText (copied_value field (raw_value raw_permit source))).
Proof.
  intros Hrun Hfield Hsource.
  apply normalize_permit_returns in Hrun as (coords & wg & _ & _ & _ & ->).
  set (data := dated_data _ _).
  assert (dict_get (fill_defaults data) field VNone
            = copied_value field (raw_value raw_permit source)) as <-.
  { unfold dict_get, data, copied_value.
    assert (field ≠ str "issue_date" ∧ field ≠ str "address"
            ∧ field ≠ str "description" ∧ field ≠ str "source_county")
      as (H1 & H2 & H3 & H4).
    { unfold copied_fields in Hfield.
      repeat (apply elem_of_cons in Hfield as [->|Hfield];
              [repeat split; decide_closed|]).
      by apply elem_of_nil in Hfield. }
    rewrite final_lookup by done.
    unfold mapped_value. rewrite Hsource. cbn [mbind option_bind].
    rewrite lookup_singleton_ne by done.
    destruct (list_find _ _) as [[i item]|];
      destruct (raw_value raw_permit source) as [v|]; cbn; try done.
    by destruct (truthy v). }
  apply asdict_text. unfold copied_fields in Hfield.
  unfold text_fields, build_permit.
  cbn [permit_id source_county permit_type description address city zipcode
       applicant_name contractor_name issue_date expiration_date status].
  repeat (apply elem_of_cons in Hfield as [->|Hfield];
          [clear; repeat (first [apply list_elem_of_here|apply list_elem_of_further])|]).
  by apply elem_of_nil in Hfield.
Qed.

Lemma copied_fields_come_through_witness :
  ∃ p w',
    normalize_permit geocoding_processor finding_env sample_permit fresh_world
      = (Ok p, w')
    ∧ asdict p !! str "city"
      = Some (FText (copied_value (str "city")
                       (raw_value sample_permit (str "CITY")))).
Proof.
  eexists _, _. split; [vm_compute; reflexivity|].
  eapply (copied_fields_come_through geocoding_processor finding_env
            sample_permit fresh_world);
    [vm_compute; reflexivity|decide_closed|vm_compute; reflexivity].
Defined.


(** ** The form of a cleaned address *)

Lemma address_tables_unmatched : replacements_unmatched address_tables = true.
Proof. vm_compute. reflexivity. Qed.

Lemma word_ok_chars w : word_ok w = true → forallb ascii_word_char w = true.
Proof. unfold word_ok. intros H. by apply andb_true_iff in H as [_ ?]. Qed.

(** No key matches a cleaned word. *)
Lemma clean_word_unmatched w k a :
  word_ok w = true → (k, a) ∈ address_tables →
  word_matches true k (clean_word w) = false.
Proof.
  intros Hw Hin. unfold clean_word.
  destruct (table_in_word_cases true address_tables w)
    as [[Heq Hall]|(i & kv & Hi & Heq)].
  - rewrite Heq, word_matches_upper by (by apply word_ok_chars).
    eapply Forall_forall in Hall; [|exact Hin]. exact Hall.
  - destruct (table_stable_lookup _ _ _ address_tables_stable Hi)
      as (Hlater & _ & Hup).
    rewrite Heq, Hlater, Hup.
    pose proof address_tables_unmatched as Hun.
    unfold replacements_unmatched in Hun. rewrite forallb_forall in Hun.
    assert (In kv address_tables) as Hkv.
    { apply list_elem_of_In. by eapply list_elem_of_lookup_2. }
    specialize (Hun kv Hkv). rewrite forallb_forall in Hun.
    apply list_elem_of_In in Hin. specialize (Hun (k, a) Hin).
    by apply negb_true_iff in Hun.
Qed.

Lemma table_ok_key table k a :
  table_ok table = true → (k, a) ∈ table → key_ok k = true.
Proof.
  unfold table_ok. rewrite forallb_forall. intros Hok Hin.
  apply list_elem_of_In in Hin. specialize (Hok _ Hin).
  by apply andb_true_iff in Hok as [? _].
Qed.

Lemma py_upper_nil : py_upper [] = [].
Proof. reflexivity. Qed.

(** X7: on Basic Latin text the result of [clean_address] is Basic Latin
    text with no white space at the ends and single spaces inside, left
    unchanged by upper-casing, and none of the sixteen substitutions finds
    a word to replace in it. *)
Theorem cleaned_address_form x :
  ascii_text x = true →
  ascii_text (clean_address (VStr x)) = true
  ∧ ws_normal (clean_address (VStr x)) = true
  ∧ py_upper (clean_address (VStr x)) = clean_address (VStr x)
  ∧ Forall (λ kv, re_sub_word true kv.1 kv.2 (clean_address (VStr x))
                  = clean_address (VStr x))
           address_tables.
Proof.
  intros Hx. destruct x as [|c x].
  { repeat split. apply Forall_forall. by intros [k a] _. }
  rewrite clean_address_text.
  destruct (tokens_exist _ (ws_cleaned_ascii _ Hx)) as (ts & Hts & Hz).
  pose proof (ws_cleaned_normal (c :: x)) as Hnorm.
  rewrite <- Hz in *. rewrite clean_address_tokens by done.
  pose proof (map_words_ok _ clean_word_ok _ _ Hts) as Hts'.
  pose proof (tokens_ok_ascii _ _ Hts') as Hasc.
  split; [done|]. split.
  { by rewrite (map_words_normal _ _ _ clean_word_ok Hts). }
  split.
  - rewrite py_upper_ascii, (map_upper1_tokens _ _ Hts'), map_words_compose
      by done.
    f_equal. eapply map_words_ext_ok; [|exact Hts]. intros w Hw. cbn [compose].
    unfold clean_word. apply map_upper1_twice, word_ok_chars.
    apply table_in_word_ok; [apply address_tables_ok|done].
  - apply Forall_forall. intros [k a] Hin. cbn [fst snd].
    unfold re_sub_word.
    rewrite sub_go_tokens, map_words_compose
      by (done || by eapply table_ok_key; [apply address_tables_ok|]).
    f_equal. eapply map_words_ext_ok; [|exact Hts]. intros w Hw. cbn [compose].
    unfold sub_in_word. by rewrite (clean_word_unmatched w k a).
Qed.

Lemma cleaned_address_form_witness :
  ascii_text (clean_address (VStr (str "123  Main Street, apt 4 "))) = true
  ∧ ws_normal (clean_address (VStr (str "123  Main Street, apt 4 "))) = true
  ∧ py_upper (clean_address (VStr (str "123  Main Street, apt 4 ")))
    = clean_address (VStr (str "123  Main Street, apt 4 "))
  ∧ Forall (λ kv, re_sub_word true kv.1 kv.2
                    (clean_address (VStr (str "123  Main Street, apt 4 ")))
                  = clean_address (VStr (str "123  Main Street, apt 4 ")))
           address_tables.
Proof.
  apply (cleaned_address_form (str "123  Main Street, apt 4 ")).
  by vm_compute.
Defined.

(** ** A batch in two parts *)

Lemma process_loop_cons self env raw rest acc w :
  process_loop self env (raw :: rest) acc w =
    match normalize_permit self env raw w with
    | (Ok p, w1) => process_loop self env rest (acc ++ [p]) w1
    | (Raise _, w1) => process_loop self env rest acc w1
    end.
Proof.
  cbn [process_loop]. unfold mbind, M_bind, bind, try_except.
  by destruct (normalize_permit self env raw w) as [[p|e] w1].
Qed.

Lemma process_loop_acc self env raws :
  ∀ acc w,
    process_loop self env raws acc w =
      match process_loop self env raws [] w with
      | (Ok ps, w') => (Ok (acc ++ ps), w')
      | (Raise e, w') => (Raise e, w')
      end.
Proof.
  induction raws as [|raw rest IH]; intros acc w.
  - cbn. by rewrite app_nil_r.
  - rewrite !process_loop_cons.
    destruct (normalize_permit self env raw w) as [[p|e] w1]; [|apply IH].
    rewrite (IH (acc ++ [p])), (IH ([] ++ [p])).
    destruct (process_loop self env rest [] w1) as [[ps|e] w2]; [|done].
    by rewrite <- app_assoc.
Qed.

Lemma process_loop_app self env a b :
  ∀ acc w,
    process_loop self env (a ++ b) acc w =
      match process_loop self env a acc w with
      | (Ok acc', w') => process_loop self env b acc' w'
      | (Raise e, w') => (Raise e, w')
      end.
Proof.
  induction a as [|raw rest IH]; intros acc w; [done|].
  cbn [app]. rewrite !process_loop_cons.
  destruct (normalize_permit self env raw w) as [[p|e] w1]; apply IH.
Qed.

(** X8: a batch processed in one piece gives what its two parts give when
    processed one after the other by the same processor: the same records
    in the same order, and the same state at the end. *)
Theorem process_permits_app self env first second w :
  process_permits self env (first ++ second) w =
    (normalized ← process_permits self env first;
     more ← process_permits self env second;
     ret (normalized ++ more)) w.
Proof.
  unfold process_permits, mbind, M_bind, bind, ret.
  rewrite process_loop_app.
  destruct (process_loop self env first [] w) as [[ps|e] w1]; [|done].
  rewrite process_loop_acc.
  by destruct (process_loop self env second [] w1) as [[qs|e] w2].
Qed.


(** ** An integer as permit value *)

Lemma uint_value_of_lu d :
  ∀ d', uint_value (DecimalPos.Unsigned.of_lu d') d
        = DecimalPos.Unsigned.of_lu (Decimal.revapp d d').
Proof.
  induction d as [|d IH|d IH|d IH|d IH|d IH|d IH|d IH|d IH|d IH|d IH];
    intros d'; [reflexivity|..];
    cbn [uint_value Decimal.revapp]; rewrite <- IH; f_equal;
    cbn [DecimalPos.Unsigned.of_lu]; lia.
Qed.

Lemma uint_value_of_uint d : uint_value 0 d = Pos.of_uint d.
Proof.
  rewrite DecimalPos.Unsigned.of_uint_alt.
  exact (uint_value_of_lu d Decimal.Nil).
Qed.

(** Reading back the digits that were printed. *)
Lemma digitpart_go_printed d :
  ∀ acc n, ∃ n',
    digitpart_go acc n (str (NilEmpty.string_of_uint d))
      = (uint_value acc d, n', []).
Proof.
  induction d as [|d IH|d IH|d IH|d IH|d IH|d IH|d IH|d IH|d IH|d IH];
    intros acc n; [by exists n|..];
    cbn [NilEmpty.string_of_uint str uint_value];
    match goal with
    | |- ∃ _, digitpart_go _ _ (?c :: _) = (uint_value (_ + ?k) _, _, _) =>
        let v := eval vm_compute in c in
        change c with v;
        cbn [digitpart_go];
        change (is_digit v) with true; cbv iota;
        change (v - 48) with k
    end;
    apply IH.
Qed.

Lemma digit_cases c :
  is_digit c = true → c ∈ [48; 49; 50; 51; 52; 53; 54; 55; 56; 57].
Proof.
  unfold is_digit, in_range. intros H. apply andb_true_iff in H as [H1 H2].
  apply N.leb_le in H1, H2.
  assert (c = 48 ∨ c = 49 ∨ c = 50 ∨ c = 51 ∨ c = 52 ∨ c = 53 ∨ c = 54
          ∨ c = 55 ∨ c = 56 ∨ c = 57) as Hc by lia.
  rewrite !elem_of_cons. tauto.
Qed.

Lemma digit_facts c :
  is_digit c = true →
  is_space c = false ∧ c ≠ 36 ∧ c ≠ 44 ∧ lower1 c = c
  ∧ c ≠ 105 ∧ c ≠ 110 ∧ sign [c] = (false, [c]).
Proof.
  intros Hc. apply digit_cases in Hc. revert c Hc. apply Forall_forall.
  repeat (constructor; [by vm_compute|]). constructor.
Qed.

Lemma sign_digit c s : is_digit c = true → sign (c :: s) = (false, c :: s).
Proof.
  intros Hc. apply digit_cases in Hc. revert c Hc. apply Forall_forall.
  repeat constructor.
Qed.

Lemma printed_digits d :
  Forall (λ c, is_digit c = true) (str (NilEmpty.string_of_uint d)).
Proof.
  induction d as [|d IH|d IH|d IH|d IH|d IH|d IH|d IH|d IH|d IH|d IH];
    [constructor|..]; cbn [NilEmpty.string_of_uint str]; by constructor.
Qed.

Lemma printed_nonempty d :
  d ≠ Decimal.Nil → str (NilEmpty.string_of_uint d) ≠ [].
Proof. by destruct d. Qed.

Lemma strip_no_space s :
  Forall (λ c, is_space c = false) s → py_strip s = s.
Proof.
  intros Hs. unfold py_strip, strip_by.
  assert (lstrip_by is_space s = s) as ->.
  { destruct Hs as [|c s Hc _]; [done|]. cbn. by rewrite Hc. }
  induction Hs as [|c s Hc Hs IH]; [done|]. cbn. rewrite IH, Hc.
  by destruct s.
Qed.

Lemma remove_char_absent old s :
  Forall (λ c, c ≠ old) s → remove_char old s = s.
Proof.
  unfold remove_char. induction 1 as [|c s Hc _ IH]; [done|].
  rewrite filter_cons_True by done. by rewrite IH.
Qed.

Lemma Qred_integer z : Qred (Qmake z 1) = Qmake z 1.
Proof.
  unfold Qred.
  pose proof (Z.ggcd_gcd z 1) as Hg.
  pose proof (Z.ggcd_correct_divisors z 1) as Hd.
  destruct (Z.ggcd z 1) as [g [a b]]. cbn [fst] in Hg.
  rewrite Z.gcd_1_r in Hg. subst g. destruct Hd as [Ha Hb].
  rewrite Z.mul_1_l in Ha, Hb. by subst a b.
Qed.

Lemma Qred_scaled z k :
  (0 <= k)%Z → Qred (Qmake (z * 2 ^ k) (Z.to_pos (2 ^ k))) = Qmake z 1.
Proof.
  intros Hk. rewrite <- (Qred_integer z). apply Qred_complete.
  unfold Qeq. cbn [Qnum Qden].
  rewrite Z2Pos.id by (apply Z.pow_pos_nonneg; lia). lia.
Qed.

(** An integer of up to 53 bits is a float: rounding leaves it as it
    is. *)
Lemma binary64_integer z :
  (Z.abs z <= 2 ^ 53)%Z → binary64_of (Qmake z 1) = FNum (Qmake z 1).
Proof.
  intros Hz. unfold binary64_of. cbn [Qnum Qden].
  destruct (Z.eqb_spec (Z.abs z) 0) as [H0|H0].
  { assert (z = 0%Z) as -> by lia. done. }
  assert (0 < Z.abs z)%Z as Hpos by lia.
  change (Z.log2 1) with 0%Z. rewrite Z.sub_0_r.
  pose proof (Z.log2_spec _ Hpos) as [Hlo Hhi].
  pose proof (Z.log2_nonneg (Z.abs z)) as Hnn.
  set (e := Z.log2 (Z.abs z)) in *.
  assert (e <= 53)%Z as He.
  { destruct (Z_le_gt_dec e 53) as [|Hgt]; [done|]. exfalso.
    assert (2 ^ 54 <= 2 ^ e)%Z by (apply Z.pow_le_mono_r; lia). lia. }
  rewrite (Z.max_l 0 (- e)), (Z.max_r 0 e) by lia.
  rewrite Z.pow_0_r, Z.mul_1_r, Z.mul_1_l.
  rewrite (proj2 (Z.ltb_ge _ _) Hlo).
  rewrite (Z.max_l (e - 52) (-1074)) by lia.
  destruct (Z_le_gt_dec e 52) as [Hsmall|Hbig].
  - rewrite (Z.max_r 0 (- (e - 52))), (Z.max_l 0 (e - 52)) by lia.
    rewrite Z.pow_0_r, Z.mul_1_l, Z.div_1_r, Z.mod_1_r.
    change (2 * 0 <? 1)%Z with true. cbv iota.
    set (k := (- (e - 52))%Z) in *.
    assert (Z.abs z * 2 ^ k < 2 ^ 53)%Z as Hbound.
    { replace 53%Z with (Z.succ e + k)%Z by lia.
      rewrite Z.pow_add_r by lia.
      apply Z.mul_lt_mono_pos_r; [apply Z.pow_pos_nonneg; lia|done]. }
    rewrite !Z.mul_1_r.
    rewrite (proj2 (Z.leb_gt _ _)).
    2:{ eapply Z.lt_le_trans; [exact Hbound|]. by apply Z.pow_le_mono_r. }
    f_equal.
    assert ((if (z <? 0)%Z then - (Z.abs z * 2 ^ k) else Z.abs z * 2 ^ k)
            = z * 2 ^ k)%Z as ->.
    { destruct (Z.ltb_spec z 0); lia. }
    by apply Qred_scaled; lia.
  - assert (e = 53)%Z as He53 by lia. rewrite He53 in *.
    assert (Z.abs z = 2 ^ 53)%Z as Habs by lia.
    assert (z = 2 ^ 53 ∨ z = - 2 ^ 53)%Z as [-> | ->] by lia; by vm_compute.
Qed.

Lemma float_space_none s :
  Forall (λ c, is_space c = false) s → strip_by is_float_space s = s.
Proof.
  intros Hs.
  assert (Forall (λ c, is_float_space c = false) s) as Hf.
  { eapply Forall_impl; [exact Hs|]. intros c Hc. unfold is_float_space.
    by rewrite Hc. }
  clear Hs. unfold strip_by.
  assert (lstrip_by is_float_space s = s) as ->.
  { destruct Hf as [|c s Hc _]; [done|]. cbn. by rewrite Hc. }
  induction Hf as [|c s Hc Hs IH]; [done|]. cbn. rewrite IH, Hc.
  by destruct s.
Qed.

Lemma py_float_unfold s neg body :
  sign (strip_by is_float_space s) = (neg, body) →
  py_float s =
    (let word := py_lower body in
     if bool_decide (word = str "inf") || bool_decide (word = str "infinity")
     then Some (FInf neg)
     else if bool_decide (word = str "nan") then Some FNan
     else match number body with
          | Some (m, n, rest) =>
              match exponent rest with
              | Some e =>
                  Some (binary64_of (decimal_value neg m (e - Z.of_nat n)))
              | None => None
              end
          | None => None
          end).
Proof. unfold py_float. by intros ->. Qed.

(** [float] of a number of up to 53 bits written in digits, with or
    without a minus sign in front. *)
Lemma py_float_digits s m n :
  s ≠ [] → Forall (λ c, is_digit c = true) s →
  digitpart_go 0 0 s = (m, n, []) →
  (Z.of_N m <= 2 ^ 53)%Z →
  py_float s = Some (FNum (Qmake (Z.of_N m) 1))
  ∧ py_float (45 :: s) = Some (FNum (Qmake (- Z.of_N m) 1)).
Proof.
  intros Hne Hs Hgo Hm.
  assert (Forall (λ c, is_space c = false) s) as Hsp.
  { eapply Forall_impl; [exact Hs|]. intros c Hc. by apply digit_facts. }
  destruct s as [|c s]; [done|].
  pose proof (Forall_inv Hs) as Hc. cbn beta in Hc.
  destruct (digit_facts c Hc) as (_ & _ & _ & Hlow & Hi & Hn & _).
  assert (∀ neg, (let word := py_lower (c :: s) in
            if bool_decide (word = str "inf") || bool_decide (word = str "infinity")
            then Some (FInf neg)
            else if bool_decide (word = str "nan") then Some FNan
            else match number (c :: s) with
                 | Some (m0, n0, rest) =>
                     match exponent rest with
                     | Some e =>
                         Some (binary64_of
                                 (decimal_value neg m0 (e - Z.of_nat n0)))
                     | None => None
                     end
                 | None => None
                 end)
          = Some (binary64_of (decimal_value neg m 0))) as Hbody.
  { intros neg. cbv zeta.
    rewrite !bool_decide_eq_false_2.
    - unfold number, digitpart. cbn [head_is_digit]. rewrite Hc, Hgo. done.
    - cbn. rewrite Hlow. intros H. injection H as H _. done.
    - cbn. rewrite Hlow. intros H. injection H as H _. done.
    - cbn. rewrite Hlow. intros H. injection H as H _. done. }
  split.
  - rewrite (py_float_unfold _ false (c :: s))
      by (by rewrite float_space_none, sign_digit).
    rewrite (Hbody false).
    unfold decimal_value. cbn [Z.leb Z.compare Z.pow Z.pow_pos].
    rewrite Z.mul_1_r, Qred_integer. f_equal. apply binary64_integer. lia.
  - rewrite (py_float_unfold _ true (c :: s))
      by (by rewrite float_space_none by (by constructor)).
    rewrite (Hbody true).
    unfold decimal_value. cbn [Z.leb Z.compare Z.pow Z.pow_pos].
    rewrite Z.mul_1_r. change (Qopp (Qmake (Z.of_N m) 1)) with (Qmake (- Z.of_N m) 1).
    rewrite Qred_integer. f_equal. apply binary64_integer. lia.
Qed.

(** The conversion of an integer permit value of up to 53 bits goes
    through its decimal text and comes back as the same number. *)
Lemma convert_integer z :
  (Z.abs z <= 2 ^ 53)%Z →
  convert_permit_value (VInt z) = Some (FNum (Qmake z 1)).
Proof.
  intros Hz. destruct z as [|p|p]; [by vm_compute|..].
  - unfold convert_permit_value. cbn [py_str Z.to_int NilZero.string_of_int].
    set (d := Pos.to_uint p).
    assert (d ≠ Decimal.Nil) as Hd by apply DecimalPos.Unsigned.to_uint_nonnil.
    assert (NilZero.string_of_uint d = NilEmpty.string_of_uint d) as ->
      by (by destruct d).
    pose proof (printed_digits d) as Hdig.
    pose proof (printed_nonempty d Hd) as Hne.
    destruct (digitpart_go_printed d 0 0%nat) as [n Hgo].
    rewrite (remove_char_absent 36), (remove_char_absent 44), strip_no_space;
      try (eapply Forall_impl; [exact Hdig|]; intros c Hc; by apply digit_facts).
    assert (uint_value 0 d = N.pos p) as Hval.
    { rewrite uint_value_of_uint. unfold d. apply DecimalPos.Unsigned.of_to. }
    rewrite Hval in Hgo.
    destruct (py_float_digits _ _ _ Hne Hdig Hgo) as [-> _]; [cbn; lia|].
    by destruct (str (NilEmpty.string_of_uint d)).
  - unfold convert_permit_value. cbn [py_str Z.to_int NilZero.string_of_int str].
    change (Ascii.N_of_ascii "-") with 45.
    set (d := Pos.to_uint p).
    assert (d ≠ Decimal.Nil) as Hd by apply DecimalPos.Unsigned.to_uint_nonnil.
    assert (NilZero.string_of_uint d = NilEmpty.string_of_uint d) as ->
      by (by destruct d).
    pose proof (printed_digits d) as Hdig.
    pose proof (printed_nonempty d Hd) as Hne.
    destruct (digitpart_go_printed d 0 0%nat) as [n Hgo].
    assert (Forall (λ c, is_space c = false ∧ c ≠ 36 ∧ c ≠ 44)
              (45 :: str (NilEmpty.string_of_uint d))) as Hall.
    { constructor; [by vm_compute|].
      eapply Forall_impl; [exact Hdig|]. intros c Hc.
      destruct (digit_facts c Hc) as (? & ? & ? & _). done. }
    rewrite (remove_char_absent 36), (remove_char_absent 44), strip_no_space;
      try (eapply Forall_impl; [exact Hall|]; by intros c (? & ? & ?)).
    assert (uint_value 0 d = N.pos p) as Hval.
    { rewrite uint_value_of_uint. unfold d. apply DecimalPos.Unsigned.of_to. }
    rewrite Hval in Hgo.
    by destruct (py_float_digits _ _ _ Hne Hdig Hgo) as [_ ->]; [cbn; lia|].
Qed.


(** X9: for a record of a mapped county whose value field holds an integer
    of up to 53 bits, as a number of a JSON response does, the permit value
    is that integer: printing it and reading it back as a float loses
    nothing.  (A larger integer is rounded to the nearest float.) *)
Theorem integer_permit_value self env raw_permit w county source z :
  (county, source) ∈ permit_value_sources →
  raw_permit !! str "source_county" = Some (VStr county) →
  raw_permit !! source = Some (VInt z) →
  (Z.abs z <= 2 ^ 53)%Z →
  ∃ p w',
    normalize_permit self env raw_permit w = (Ok p, w')
    ∧ permit_value p = Some (FNum (Qmake z 1)).
Proof.
  intros Hin Htag Hvalue Hz.
  assert (hashable (county_of raw_permit) = true) as Hh.
  { unfold county_of, dict_get. by rewrite Htag. }
  destruct (geocode_step_effects self env
              (dated_data (cleaned_data (described_data raw_permit))
                 (clock env (ticks w))) (tick w))
    as (coords & w' & ev & Hrun & _).
  eexists _, _. split; [exact (normalize_permit_run _ _ _ _ _ _ Hh Hrun)|].
  cbn [build_permit permit_value].
  rewrite (mapped_permit_value _ _ _ Hin Htag). unfold raw_value.
  rewrite Hvalue. by apply convert_integer.
Qed.

Lemma integer_permit_value_witness :
  ∃ p w',
    normalize_permit geocoding_processor finding_env valued_permit fresh_world
      = (Ok p, w')
    ∧ permit_value p = Some (FNum (Qmake 250000 1)).
Proof.
  apply (integer_permit_value geocoding_processor finding_env valued_permit
           fresh_world (str "miami-dade") (str "JOB_VAL") 250000);
    [decide_closed|by vm_compute|by vm_compute|by vm_compute].
Defined.


(** * Properties of the document loop *)

Section document_properties.
Variable float_text : pyfloat → pystr.

Lemma prepare_loop_documents permits documents skipped :
  (prepare_loop float_text permits documents skipped).1
    = documents ++ omap (document_of float_text) permits.
Proof.
  revert documents skipped.
  induction permits as [|permit rest IH]; intros documents skipped.
  { cbn. by rewrite app_nil_r. }
  cbn [prepare_loop omap list_omap].
  change (document_of float_text permit)
    with (match prepare_document float_text permit with
          | Prepared d => Some d
          | Blank | Failed => None
          end).
  destruct (prepare_document float_text permit) as [d| |]; rewrite IH; [|done..].
  by rewrite <- app_assoc.
Qed.

Lemma prepare_loop_count permits documents skipped :
  (length (prepare_loop float_text permits documents skipped).1
   + (prepare_loop float_text permits documents skipped).2
   = length documents + skipped + length permits)%nat.
Proof.
  revert documents skipped.
  induction permits as [|permit rest IH]; intros documents skipped.
  { cbn. lia. }
  cbn [prepare_loop length].
  destruct (prepare_document float_text permit) as [d| |]; rewrite IH;
    rewrite ?length_app; cbn [length]; lia.
Qed.

(** X10: the loop accounts for every permit: the documents are those of the
    permits that get one, in the order of the permits, and together with
    the permits counted as skipped they are as many as the permits. *)
Theorem documents_and_skipped permits :
  (prepare_documents float_text permits).1
    = omap (document_of float_text) permits
  ∧ (length (prepare_documents float_text permits).1
     + (prepare_documents float_text permits).2 = length permits)%nat.
Proof.
  unfold prepare_documents. split.
  - by rewrite prepare_loop_documents.
  - by rewrite prepare_loop_count.
Qed.

End document_properties.


(** ** The documents of the processor's records *)

Lemma normalized_address_text self env raw w p w' :
  normalize_permit self env raw w = (Ok p, w') → ∃ text, address p = VStr text.
Proof.
  intros Hrun.
  apply normalize_permit_returns in Hrun as (coords & wg & _ & _ & _ & ->).
  cbn [address build_permit]. unfold dict_get. rewrite fill_defaults_lookup.
  assert (list_find (λ item : pystr * pyval, item.1 = str "address")
            required_defaults = Some (3%nat, (str "address", VStr []))) as ->
    by (vm_compute; reflexivity).
  rewrite dated_data_lookup by decide_closed.
  unfold cleaned_data.
  destruct (described_data raw !! str "address") as [a|] eqn:E.
  - rewrite lookup_insert_eq. cbn [truthy snd].
    destruct (clean_address a) eqn:Ea; cbn; eauto.
  - rewrite E. cbn. eauto.
Qed.

Lemma miami_description_text raw now :
  raw !! str "source_county" = Some (VStr (str "miami-dade")) →
  ∃ s, dict_get (fill_defaults (dated_data (cleaned_data (described_data raw)) now))
         (str "description") VNone = VStr s.
Proof.
  intros Htag. pose proof (county_of_tag _ _ Htag) as Hc.
  rewrite final_description.
  destruct (desc_parts raw) as [|part parts] eqn:Hparts.
  - pose proof (desc_parts_nil _ Hparts) as Hnil.
    unfold described_data at 1. rewrite Hc, bool_decide_eq_true_2, Hparts by done.
    rewrite <- Hc. rewrite extract_fields_lookup by apply county_mapping_NoDup.
    rewrite Hc.
    assert (source_field_of (county_mapping (VStr (str "miami-dade")))
              (str "description") = Some (str "DESC1")) as ->
      by (vm_compute; reflexivity).
    cbn [mbind option_bind].
    destruct (raw_value raw (str "DESC1")) as [v|].
    + rewrite Hnil. eauto.
    + rewrite lookup_singleton_ne by decide_closed. eauto.
  - unfold described_data. rewrite Hc, bool_decide_eq_true_2, Hparts by done.
    rewrite lookup_insert_eq.
    cbn [truthy]. destruct (join _ _); eauto.
Qed.

Lemma asdict_description p :
  asdict p !! str "description" = Some (FText (description p)).
Proof.
  apply asdict_text. unfold text_fields.
  repeat (first [apply list_elem_of_here|apply list_elem_of_further]).
Qed.

Lemma asdict_address p :
  asdict p !! str "address" = Some (FText (address p)).
Proof.
  apply asdict_text. unfold text_fields.
  repeat (first [apply list_elem_of_here|apply list_elem_of_further]).
Qed.

Section record_documents.
Variable float_text : pyfloat → pystr.

Lemma prepare_failed permit :
  prepare_document float_text permit = Failed
  ↔ content_of float_text permit = None.
Proof.
  unfold prepare_document.
  destruct (content_of float_text permit) as [content|]; [|done].
  by destruct (py_strip content).
Qed.

(** With a string as address, the only exception of the loop's body is the
    one of [strip] on a description that is true and not a string. *)
Lemma prepare_record_failed p a :
  address p = VStr a →
  prepare_document float_text (asdict p) = Failed
  ↔ truthy (description p) = true ∧ ∀ s, description p ≠ VStr s.
Proof.
  intros Ha. rewrite prepare_failed. unfold content_of, true_field.
  rewrite asdict_description, asdict_address, Ha.
  destruct (description p) as [|[|]|z|[|c s]|h [|] text] eqn:Hd;
    cbn [field_truthy truthy field_strip];
    try destruct (z =? 0)%Z; destruct a as [|c' a'];
    cbn [negb mbind option_bind];
    (split;
     [intros H; first [discriminate H|split; [done|intros ?; discriminate]]
     |intros [Ht Hs];
      first [done|discriminate Ht|by destruct (Hs _ eq_refl)]]).
Qed.

(** X12: a record of [normalize_permit] is skipped for an exception exactly
    when its description is true and not a string: the address is always a
    string, and nothing else in the loop's body can raise. *)
Theorem record_fails_on_description self env raw_permit w p w' :
  normalize_permit self env raw_permit w = (Ok p, w') →
  prepare_document float_text (asdict p) = Failed
  ↔ truthy (description p) = true ∧ ∀ s, description p ≠ VStr s.
Proof.
  intros Hrun.
  destruct (normalized_address_text _ _ _ _ _ _ Hrun) as [a Ha].
  by apply prepare_record_failed with a.
Qed.

(** X13: no record of a Miami-Dade permit is skipped for an exception: its
    description is the text joined from DESC1 .. DESC10, or the default. *)
Theorem miami_dade_record_prepared self env raw_permit w p w' :
  raw_permit !! str "source_county" = Some (VStr (str "miami-dade")) →
  normalize_permit self env raw_permit w = (Ok p, w') →
  prepare_document float_text (asdict p) ≠ Failed.
Proof.
  intros Htag Hrun.
  destruct (normalized_address_text _ _ _ _ _ _ Hrun) as [a Ha].
  rewrite (prepare_record_failed p a Ha). intros [_ Hs].
  apply normalize_permit_returns in Hrun as (coords & wg & _ & _ & _ & ->).
  cbn [description build_permit] in Hs.
  destruct (miami_description_text raw_permit (clock env (ticks w)) Htag)
    as [s Heq].
  by apply (Hs s).
Qed.

(** X14: the metadata of a record's document hold the record's own fields:
    each of the thirteen entries of the literal is the field it is read
    from, [None] included, so that no default of the literal is used; the
    applicant and the contractor are entered when they are true, and the
    permit value, as text, when it is a float other than zero. *)
Theorem metadata_of_record p :
  Forall (λ item : pystr * (pystr * pyval),
            ∃ v, asdict p !! item.2.1 = Some v
                 ∧ metadata_of float_text (asdict p) !! item.1 = Some v)
         metadata_fields
  ∧ metadata_of float_text (asdict p) !! str "applicant_name"
    = (if truthy (applicant_name p) then Some (FText (applicant_name p))
       else None)
  ∧ metadata_of float_text (asdict p) !! str "contractor_name"
    = (if truthy (contractor_name p) then Some (FText (contractor_name p))
       else None)
  ∧ metadata_of float_text (asdict p) !! str "permit_value"
    = match permit_value p with
      | Some f => if float_truthy f
                  then Some (FText (VStr (float_text f))) else None
      | None => None
      end.
Proof.
  destruct p as [pid county ptype desc addr cty zip coords app con val issue
                   expiry st stamp].
  unfold metadata_of, true_field.
  assert (asdict_app : ∀ q, asdict q !! str "applicant_name"
                            = Some (FText (applicant_name q))).
  { intros q. apply asdict_text. unfold text_fields.
    repeat (first [apply list_elem_of_here|apply list_elem_of_further]). }
  assert (asdict_con : ∀ q, asdict q !! str "contractor_name"
                            = Some (FText (contractor_name q))).
  { intros q. apply asdict_text. unfold text_fields.
    repeat (first [apply list_elem_of_here|apply list_elem_of_further]). }
  rewrite asdict_app, asdict_con.
  assert (∀ q, asdict q !! str "permit_value" = Some (FFloat (permit_value q)))
    as -> by (intros q; destruct q; by vm_compute).
  cbn [applicant_name contractor_name permit_value field_truthy field_str].
  set (literal := list_to_map _).
  assert (Forall (λ item : pystr * (pystr * pyval),
                    ∃ v, asdict
                           {| permit_id := pid; source_county := county;
                              permit_type := ptype; description := desc;
                              address := addr; city := cty; zipcode := zip;
                              coordinates := coords; applicant_name := app;
                              contractor_name := con; permit_value := val;
                              issue_date := issue; expiration_date := expiry;
                              status := st; last_updated := stamp |}
                           !! item.2.1 = Some v
                         ∧ literal !! item.1 = Some v) metadata_fields
          ∧ literal !! str "applicant_name" = None
          ∧ literal !! str "contractor_name" = None
          ∧ literal !! str "permit_value" = None) as (Hlit & Happ & Hcon & Hval).
  { unfold literal. split; [|by vm_compute].
    repeat (constructor; [eexists; split; vm_compute; reflexivity|]).
    constructor. }
  clearbody literal.
  assert (Forall (λ item : pystr * (pystr * pyval),
                    item.1 ≠ str "applicant_name"
                    ∧ item.1 ≠ str "contractor_name"
                    ∧ item.1 ≠ str "permit_value") metadata_fields) as Hkeys.
  { repeat (constructor; [repeat split; decide_closed|]). constructor. }
  split; [|split; [|split]].
  - apply Forall_forall. intros item Hin.
    pose proof (proj1 (Forall_forall _ _) Hlit item Hin) as (v & Hv & Hl).
    pose proof (proj1 (Forall_forall _ _) Hkeys item Hin) as (H1 & H2 & H3).
    exists v. split; [done|].
    destruct val as [f|]; [destruct (float_truthy f)|];
      destruct (truthy app); destruct (truthy con);
      by rewrite ?lookup_insert_ne by done.
  - destruct val as [f|]; [destruct (float_truthy f)|];
      destruct (truthy app); destruct (truthy con);
      rewrite ?(lookup_insert_ne _ (str "permit_value")) by decide_closed;
      rewrite ?(lookup_insert_ne _ (str "contractor_name")) by decide_closed;
      by rewrite ?lookup_insert_eq.
  - destruct val as [f|]; [destruct (float_truthy f)|];
      destruct (truthy app); destruct (truthy con);
      rewrite ?(lookup_insert_ne _ (str "permit_value")) by decide_closed;
      rewrite ?lookup_insert_eq; try done;
      by rewrite ?(lookup_insert_ne _ (str "applicant_name")) by decide_closed.
  - destruct val as [f|]; [destruct (float_truthy f)|];
      destruct (truthy app); destruct (truthy con);
      rewrite ?lookup_insert_eq; try done;
      rewrite ?(lookup_insert_ne _ (str "contractor_name")) by decide_closed;
      try done;
      by rewrite ?(lookup_insert_ne _ (str "applicant_name")) by decide_closed.
Qed.

End record_documents.

Lemma record_fails_on_description_witness :
  ∃ p w',
    normalize_permit geocoding_processor finding_env numbered_permit
      fresh_world = (Ok p, w')
    ∧ (prepare_document sample_float_text (asdict p) = Failed
       ↔ truthy (description p) = true ∧ ∀ s, description p ≠ VStr s).
Proof.
  eexists _, _. split; [vm_compute; reflexivity|].
  eapply (record_fails_on_description sample_float_text geocoding_processor
            finding_env numbered_permit fresh_world).
  vm_compute. reflexivity.
Defined.

Lemma miami_dade_record_prepared_witness :
  ∃ p w',
    normalize_permit geocoding_processor finding_env sample_permit
      fresh_world = (Ok p, w')
    ∧ prepare_document sample_float_text (asdict p) ≠ Failed.
Proof.
  eexists _, _. split; [vm_compute; reflexivity|].
  eapply (miami_dade_record_prepared sample_float_text geocoding_processor
            finding_env sample_permit fresh_world);
    vm_compute; reflexivity.
Defined.


(** * Properties of the fetchers *)

Lemma tag_county_tag (name : string) (permit : gmap pystr pyval) :
  county_of (tag_county name permit) = VStr (str name).
Proof. unfold county_of, dict_get, tag_county. by rewrite lookup_insert_eq. Qed.

Lemma tagged_records (name : string) (rows : list (gmap pystr pyval)) :
  Forall (λ permit, county_of permit = VStr (str name))
         (tag_county name <$> rows).
Proof.
  apply Forall_forall. intros permit Hin.
  apply list_elem_of_fmap in Hin as (row & -> & _). apply tag_county_tag.
Qed.

(** X15: the Hillsborough fetcher returns a prefix of the file's rows, each
    tagged [hillsborough] whatever tag it had: all of them without a limit
    or with the limit 0, the first [m] with a positive limit [m], and all
    but the last [-m] with a negative one; without a readable file it
    returns nothing. *)
Theorem hillsborough_prefix existing_file max_records :
  fetch_hillsborough_permits existing_file max_records
    = match max_records with
      | None => tag_county "hillsborough" <$> rows_of existing_file
      | Some m =>
          if (m =? 0)%Z then tag_county "hillsborough" <$> rows_of existing_file
          else if (0 <? m)%Z
               then take (Z.to_nat m)
                      (tag_county "hillsborough" <$> rows_of existing_file)
               else take (length (rows_of existing_file) - Z.to_nat (- m))
                      (tag_county "hillsborough" <$> rows_of existing_file)
      end
  ∧ Forall (λ permit, county_of permit = VStr (str "hillsborough"))
           (fetch_hillsborough_permits existing_file max_records).
Proof.
  assert (fetch_hillsborough_permits existing_file max_records
          = match max_records with
            | None => tag_county "hillsborough" <$> rows_of existing_file
            | Some m =>
                if (m =? 0)%Z
                then tag_county "hillsborough" <$> rows_of existing_file
                else if (0 <? m)%Z
                     then take (Z.to_nat m)
                            (tag_county "hillsborough" <$> rows_of existing_file)
                     else take (length (rows_of existing_file) - Z.to_nat (- m))
                            (tag_county "hillsborough" <$> rows_of existing_file)
            end) as Heq.
  { destruct existing_file as [| |rows]; cbn [fetch_hillsborough_permits rows_of].
    - destruct max_records as [m|]; [|done]. rewrite fmap_nil.
      destruct (m =? 0)%Z; [done|]. destruct (0 <? m)%Z; by rewrite take_nil.
    - destruct max_records as [m|]; [|done]. rewrite fmap_nil.
      destruct (m =? 0)%Z; [done|]. destruct (0 <? m)%Z; by rewrite take_nil.
    - destruct max_records as [m|]; [|done].
      rewrite length_fmap.
      destruct (m =? 0)%Z eqn:E0; cbn [negb andb]; [done|].
      apply Z.eqb_neq in E0. unfold slice_to. rewrite length_fmap.
      destruct (m <? Z.of_nat (length rows))%Z eqn:El.
      + apply Z.ltb_lt in El. destruct (0 <=? m)%Z eqn:Ep.
        * apply Z.leb_le in Ep.
          by rewrite (proj2 (Z.ltb_lt 0 m)) by lia.
        * apply Z.leb_gt in Ep.
          by rewrite (proj2 (Z.ltb_ge 0 m)) by lia.
      + apply Z.ltb_ge in El. rewrite (proj2 (Z.ltb_lt 0 m)) by lia.
        rewrite take_ge; [done|]. rewrite length_fmap. lia. }
  split; [exact Heq|]. rewrite Heq.
  pose proof (tagged_records "hillsborough" (rows_of existing_file)) as Htag.
  destruct max_records as [m|]; [|done].
  destruct (m =? 0)%Z; [done|]. destruct (0 <? m)%Z; by apply Forall_take.
Qed.


(** ** The paging loop of the Miami-Dade fetcher *)

Lemma fetch_loop_more fuel fuel' arcgis max_records acc offset records :
  fetch_loop fuel arcgis max_records acc offset = Some records →
  (fuel <= fuel')%nat →
  fetch_loop fuel' arcgis max_records acc offset = Some records.
Proof.
  revert fuel' acc offset.
  induction fuel as [|fuel IH]; intros fuel' acc offset Hrun Hle; [done|].
  destruct fuel' as [|fuel']; [lia|]. cbn [fetch_loop] in *.
  destruct (limit_reached max_records acc); [done|].
  destruct (arcgis offset) as [| |[|record batch]]; try done.
  apply IH; [done|lia].
Qed.

Lemma pages_from_S n arcgis offset :
  pages_from (S n) arcgis offset =
    match arcgis offset with
    | Features (record :: batch) =>
        (record :: batch) :: pages_from n arcgis (offset + batch_size)
    | _ => []
    end.
Proof. reflexivity. Qed.

(** What the loop returns: the records it had, and after them the pages
    it fetched, each whole. *)
Lemma fetch_loop_pages fuel arcgis max_records acc offset records :
  fetch_loop fuel arcgis max_records acc offset = Some records →
  ∃ k,
    length (pages_from k arcgis offset) = k
    ∧ records
      = acc ++ (tag_county "miami-dade" <$> concat (pages_from k arcgis offset))
    ∧ (∀ j, (j < k)%nat →
         limit_reached max_records
           (acc ++ (tag_county "miami-dade"
                      <$> concat (pages_from j arcgis offset))) = false)
    ∧ (limit_reached max_records records = true
       ∨ pages_from (S k) arcgis offset = pages_from k arcgis offset).
Proof.
  revert acc offset.
  induction fuel as [|fuel IH]; intros acc offset Hrun; [done|].
  cbn [fetch_loop] in Hrun.
  destruct (limit_reached max_records acc) eqn:Hlim.
  { injection Hrun as <-. exists 0%nat. cbn [pages_from concat length fmap list_fmap].
    rewrite app_nil_r.
    split; [done|]. split; [done|]. split; [intros j Hj; lia|by left]. }
  destruct (arcgis offset) as [| |[|record batch]] eqn:Hpage.
  1-3: injection Hrun as <-; exists 0%nat;
       cbn [pages_from concat length fmap list_fmap]; rewrite app_nil_r, Hpage;
       (split; [done|]); (split; [done|]); (split; [intros j Hj; lia|by right]).
  apply IH in Hrun as (k & Hlen & -> & Hbefore & Hstop).
  exists (S k). rewrite !(pages_from_S _ arcgis offset), Hpage.
  cbn [length concat]. rewrite Hlen, fmap_app, app_assoc.
  split; [done|]. split; [done|]. split.
  - intros [|j] Hj.
    + cbn. by rewrite app_nil_r.
    + rewrite pages_from_S, Hpage. cbn [concat].
      rewrite fmap_app, app_assoc. apply Hbefore. lia.
  - destruct Hstop as [Hstop|Hstop]; [left|right].
    + exact Hstop.
    + by rewrite Hstop.
Qed.

(** With a limit other than zero the loop needs no more iterations than
    the limit and one: every page it adds has a record. *)
Lemma fetch_loop_limit fuel arcgis m acc offset :
  m ≠ 0%Z →
  (m <= Z.of_nat (length acc) + Z.of_nat fuel)%Z →
  is_Some (fetch_loop (S fuel) arcgis (Some m) acc offset).
Proof.
  intros Hm. revert acc offset.
  induction fuel as [|fuel IH]; intros acc offset Hfuel.
  - cbn [fetch_loop limit_reached].
    rewrite (proj2 (Z.eqb_neq m 0)), (proj2 (Z.leb_le m _)) by lia. by eexists.
  - remember (S fuel) as fuel1 eqn:Hfuel1.
    cbn [fetch_loop]. destruct (limit_reached (Some m) acc); [by eexists|].
    destruct (arcgis offset) as [| |[|record batch]]; try by eexists.
    subst fuel1. apply IH. rewrite length_app, length_fmap. cbn [length]. lia.
Qed.

(** It needs no more iterations than there are pages before the first
    request that fails or brings no features, and one. *)
Lemma fetch_loop_stop fuel arcgis max_records acc offset :
  (length (pages_from fuel arcgis offset) < fuel)%nat →
  is_Some (fetch_loop fuel arcgis max_records acc offset).
Proof.
  revert acc offset.
  induction fuel as [|fuel IH]; intros acc offset Hlen; [cbn in Hlen; lia|].
  rewrite pages_from_S in Hlen. cbn [fetch_loop].
  destruct (limit_reached max_records acc); [by eexists|].
  destruct (arcgis offset) as [| |[|record batch]]; try by eexists.
  apply IH. cbn [length] in Hlen. lia.
Qed.

(** X16: the Miami-Dade fetcher returns whole pages: when it returns, its
    records are those of the pages at the offsets 0, 2000, .., up to the
    first page at which the limit was already reached or the request
    failed or brought no features, each record tagged [miami-dade]; the
    limit is looked at between pages only, so that the last page is never
    cut. *)
Theorem miami_dade_whole_pages fuel arcgis max_records records :
  fetch_miamidade_permits fuel arcgis max_records = Some records →
  ∃ k,
    length (pages_from k arcgis 0) = k
    ∧ records = tag_county "miami-dade" <$> concat (pages_from k arcgis 0)
    ∧ (∀ j, (j < k)%nat →
         limit_reached max_records
           (tag_county "miami-dade" <$> concat (pages_from j arcgis 0)) = false)
    ∧ (limit_reached max_records records = true
       ∨ pages_from (S k) arcgis 0 = pages_from k arcgis 0)
    ∧ Forall (λ permit, county_of permit = VStr (str "miami-dade")) records.
Proof.
  intros Hrun. unfold fetch_miamidade_permits in Hrun.
  apply fetch_loop_pages in Hrun as (k & Hlen & -> & Hbefore & Hstop).
  exists k. cbn [app] in *. repeat (split; [done|]). apply tagged_records.
Qed.

Lemma miami_dade_whole_pages_witness :
  ∃ k,
    length (pages_from k sample_arcgis 0) = k
    ∧ tag_county "miami-dade" <$> [sample_permit; roof_permit]
      = tag_county "miami-dade" <$> concat (pages_from k sample_arcgis 0)
    ∧ (∀ j, (j < k)%nat →
         limit_reached (Some 1%Z)
           (tag_county "miami-dade" <$> concat (pages_from j sample_arcgis 0))
         = false)
    ∧ (limit_reached (Some 1%Z)
         (tag_county "miami-dade" <$> [sample_permit; roof_permit]) = true
       ∨ pages_from (S k) sample_arcgis 0 = pages_from k sample_arcgis 0)
    ∧ Forall (λ permit, county_of permit = VStr (str "miami-dade"))
             (tag_county "miami-dade" <$> [sample_permit; roof_permit]).
Proof.
  apply (miami_dade_whole_pages 3 sample_arcgis (Some 1%Z)
           (tag_county "miami-dade" <$> [sample_permit; roof_permit])).
  vm_compute. reflexivity.
Defined.

(** X17: the Miami-Dade fetcher returns when it has a limit other than
    zero, after no more iterations than the limit and one, and when a
    request fails or brings no features, after no more iterations than the
    pages before it and one; more iterations change nothing.  With a
    negative limit it returns no record. *)
Theorem miami_dade_fetch_returns fuel arcgis max_records :
  match max_records with
  | Some m => m ≠ 0%Z ∧ (m <= Z.of_nat fuel)%Z
  | None => False
  end
  ∨ (length (pages_from (S fuel) arcgis 0) <= fuel)%nat →
  ∃ records,
    fetch_miamidade_permits (S fuel) arcgis max_records = Some records
    ∧ (∀ fuel', (S fuel <= fuel')%nat →
         fetch_miamidade_permits fuel' arcgis max_records = Some records)
    ∧ (∀ m, max_records = Some m → (m < 0)%Z → records = []).
Proof.
  intros Hfuel.
  assert (is_Some (fetch_miamidade_permits (S fuel) arcgis max_records))
    as [records Hrun].
  { unfold fetch_miamidade_permits. destruct Hfuel as [Hlimit|Hstop].
    - destruct max_records as [m|]; [|done]. destruct Hlimit as [Hm Hle].
      apply fetch_loop_limit; [done|]. cbn [length]. lia.
    - apply fetch_loop_stop. lia. }
  exists records. split; [done|]. split.
  - intros fuel' Hle. unfold fetch_miamidade_permits in *.
    by eapply fetch_loop_more.
  - intros m -> Hneg. unfold fetch_miamidade_permits in Hrun.
    cbn [fetch_loop limit_reached length] in Hrun.
    rewrite (proj2 (Z.eqb_neq m 0)), (proj2 (Z.leb_le m _)) in Hrun by lia.
    cbn in Hrun. by injection Hrun as <-.
Qed.

Lemma miami_dade_fetch_returns_witness :
  ∃ records,
    fetch_miamidade_permits 2 sample_arcgis (Some 1%Z) = Some records
    ∧ (∀ fuel', (2 <= fuel')%nat →
         fetch_miamidade_permits fuel' sample_arcgis (Some 1%Z) = Some records)
    ∧ (∀ m, Some 1%Z = Some m → (m < 0)%Z → records = []).
Proof.
  apply (miami_dade_fetch_returns 1 sample_arcgis (Some 1%Z)).
  left. split; [discriminate|]. cbn. lia.
Defined.


(** * Properties of the upload and of the pipeline *)

(** The processor's entry point returns the records of the permits whose
    tag can be hashed. *)
Lemma normalize_and_geocode_run env raw_permits enable w :
  ∃ normalized w',
    normalize_and_geocode_permits env raw_permits enable w
      = (Ok normalized, w')
    ∧ length normalized = length (survivors raw_permits).
Proof.
  unfold normalize_and_geocode_permits, mbind, M_bind, bind, new_processor.
  set (self := {| enable_geocoding := enable; google_api_key := api_key_env env |}).
  set (w1 := {| disk := disk w; geocode_cache := load_geocoding_cache w;
                ticks := ticks w; trace := trace w |}).
  destruct (process_loop_run self env raw_permits [] w1)
    as (ps & w2 & ev & Hloop & Hb & _).
  pose proof (batch_run_survivors _ _ _ _ _ _ Hb) as HF.
  apply Forall2_length in HF.
  unfold process_permits. rewrite Hloop. cbn [app].
  exists ps. destruct enable; cbn; eexists; by split.
Qed.

(** With geocoding on, it ends with a write of the cache file. *)
Lemma normalize_and_geocode_flushed env raw_permits w :
  ∃ normalized w',
    normalize_and_geocode_permits env raw_permits true w
      = (Ok normalized, w')
    ∧ length normalized = length (survivors raw_permits)
    ∧ (cache_write env (Nat.pred (flushes (trace w'))) = Written →
       disk w' = Some (geocode_cache w'))
    ∧ (0 < flushes (trace w'))%nat.
Proof.
  unfold normalize_and_geocode_permits, mbind, M_bind, bind, new_processor.
  set (self := {| enable_geocoding := true; google_api_key := api_key_env env |}).
  set (w1 := {| disk := disk w; geocode_cache := load_geocoding_cache w;
                ticks := ticks w; trace := trace w |}).
  destruct (process_loop_run self env raw_permits [] w1)
    as (ps & w2 & ev & Hloop & Hb & _).
  pose proof (batch_run_survivors _ _ _ _ _ _ Hb) as HF.
  apply Forall2_length in HF.
  unfold process_permits. rewrite Hloop. cbn [app].
  exists ps. unfold save_geocoding_cache. eexists. split; [reflexivity|].
  cbn [disk geocode_cache trace].
  split; [done|]. rewrite flushes_app.
  assert (flushes [EvFlush (geocode_cache w2)] = 1%nat) as -> by done.
  split; [|lia].
  replace (Nat.pred (flushes (trace w2) + 1)) with (flushes (trace w2)) by lia.
  by intros ->.
Qed.

Lemma survivors_length raw_permits :
  (length (survivors raw_permits) <= length raw_permits)%nat.
Proof.
  unfold survivors. induction raw_permits as [|raw rest IH]; [done|].
  cbn [List.filter length]. destruct (hashable (county_of raw)); cbn [length]; lia.
Qed.

Lemma survivors_all raw_permits :
  Forall (λ raw, hashable (county_of raw) = true) raw_permits →
  survivors raw_permits = raw_permits.
Proof.
  unfold survivors. induction 1 as [|raw rest Hraw _ IH]; [done|].
  cbn [List.filter]. by rewrite Hraw, IH.
Qed.

Lemma fetch_miamidade_tagged fuel arcgis max_records records :
  fetch_miamidade_permits fuel arcgis max_records = Some records →
  Forall (λ permit, county_of permit = VStr (str "miami-dade")) records.
Proof.
  intros Hrun. unfold fetch_miamidade_permits in Hrun.
  apply fetch_loop_pages in Hrun as (k & _ & -> & _). apply tagged_records.
Qed.

Lemma fetch_hillsborough_tagged existing_file max_records :
  Forall (λ permit, county_of permit = VStr (str "hillsborough"))
         (fetch_hillsborough_permits existing_file max_records).
Proof.
  unfold fetch_hillsborough_permits.
  destruct existing_file as [| |rows]; [constructor..|]. cbv zeta.
  pose proof (tagged_records "hillsborough" rows) as Htag.
  destruct max_records as [m|]; [|done].
  destruct (negb _ && _); [|done].
  unfold slice_to. destruct (0 <=? m)%Z; by apply Forall_take.
Qed.

Section pipeline_properties.
Variable float_text : pyfloat → pystr.

(** An upload that succeeds has stored a document at least, and its two
    counts add up to the permits. *)
Lemma upload_counts store permits r :
  upload_permits_to_chroma float_text store permits = Some r →
  key_usable (openai_api_key store) = true
  ∧ (uploaded_of r <= length permits)%nat
  ∧ match r with
    | UploadSuccess uploaded skipped total =>
        (0 < uploaded)%nat ∧ (uploaded + skipped = length permits)%nat
        ∧ embeddings_ok store = true
        ∧ add_documents store (prepare_documents float_text permits).1
          = Some total
    | UploadError StoreException =>
        embeddings_ok store = false
        ∨ add_documents store (prepare_documents float_text permits).1 = None
    | UploadError NoValidDocuments =>
        (prepare_documents float_text permits).1 = []
    | UploadNoData => False
    end.
Proof.
  unfold upload_permits_to_chroma.
  destruct (key_usable (openai_api_key store)); cbn [negb]; [|done].
  destruct (embeddings_ok store); cbn [negb].
  2:{ intros H. injection H as <-. cbn. split; [done|]. split; [lia|by left]. }
  pose proof (prepare_loop_count float_text permits [] 0) as Hcount.
  fold (prepare_documents float_text permits) in Hcount.
  destruct (prepare_documents float_text permits) as [documents skipped].
  cbn [fst snd length] in *.
  destruct documents as [|d documents].
  { intros H. injection H as <-. cbn. split; [done|]. split; [lia|done]. }
  destruct (add_documents store (d :: documents)) as [total|];
    intros H; injection H as <-; cbn [uploaded_of length] in *.
  - split; [done|]. split; [lia|]. repeat split; lia.
  - split; [done|]. split; [lia|by right].
Qed.

(** X18: what each status of [run_pipeline] tells.  ["no_data"]: no fetcher
    brought a permit.  ["processing_failed"]: permits were fetched and
    none has a county tag that can be hashed.  ["failed"]: one of the two
    files could not be written, or records came through and the OpenAI key
    is missing.  ["success"]: the counts are the permits fetched, those of
    them whose tag can be hashed, and the documents stored; an upload that
    ends in an error leaves the status at success, with no document
    counted. *)
Theorem pipeline_status penv env w :
  match (PermitPipeline.run_pipeline float_text penv env w).1 with
  | NoData => fetched penv = []
  | ProcessingFailed =>
      fetched penv ≠ [] ∧ survivors (fetched penv) = []
      ∧ raw_file_written penv = true ∧ processed_file_written penv = true
  | PipelineFailed =>
      fetched penv ≠ []
      ∧ (raw_file_written penv = false
         ∨ processed_file_written penv = false
         ∨ (survivors (fetched penv) ≠ []
            ∧ key_usable (openai_api_key (store penv)) = false))
  | Success permits_fetched permits_processed permits_uploaded details =>
      permits_fetched = length (fetched penv)
      ∧ permits_processed = length (survivors (fetched penv))
      ∧ permits_uploaded = uploaded_of details
      ∧ (0 < permits_processed)%nat
      ∧ (permits_uploaded <= permits_processed <= permits_fetched)%nat
      ∧ raw_file_written penv = true ∧ processed_file_written penv = true
      ∧ key_usable (openai_api_key (store penv)) = true
      ∧ match details with
        | UploadSuccess uploaded skipped _ =>
            (0 < uploaded)%nat
            ∧ (uploaded + skipped = permits_processed)%nat
        | UploadError _ => permits_uploaded = 0%nat
        | UploadNoData => False
        end
  end.
Proof.
  unfold PermitPipeline.run_pipeline, PermitPipeline.fetch_permits. cbv zeta.
  destruct (fetched penv) as [|raw raws] eqn:Hraw; [done|].
  destruct (raw_file_written penv) eqn:Hfile1; cbn [fst]; [|by split; [|left]].
  unfold PermitPipeline.process_permits.
  destruct (normalize_and_geocode_run env (raw :: raws) true (tick (tick w)))
    as (normalized & w1 & -> & Hlen).
  pose proof (survivors_length (raw :: raws)) as Hle.
  destruct (processed_file_written penv) eqn:Hfile2; cbn [fst];
    [|by split; [|right; left]].
  destruct normalized as [|p ps]; cbn [fmap list_fmap fst].
  { cbn [length] in Hlen. symmetry in Hlen. apply length_zero_iff_nil in Hlen.
    by repeat split. }
  assert (survivors (raw :: raws) ≠ []) as Hsome.
  { intros Hnil. rewrite Hnil in Hlen. done. }
  unfold PermitPipeline.upload_to_database.
  destruct (upload_permits_to_chroma float_text (store penv)
              (asdict p :: (asdict <$> ps))) as [r|] eqn:Hup; cbn [fst].
  2:{ split; [done|]. right. right. split; [done|].
      unfold upload_permits_to_chroma in Hup.
      destruct (key_usable _); [|done]. cbn [negb] in Hup.
      destruct (embeddings_ok _); [|done]. cbn [negb] in Hup.
      destruct (prepare_documents _ _) as [[|d ds] skipped]; [done|].
      by destruct (add_documents _ _). }
  apply upload_counts in Hup as (Hkey & Hupl & Hr).
  cbn [length] in *. rewrite length_fmap in *.
  repeat (split; [done || lia|]).
  destruct r as [|[|]|uploaded skipped total]; cbn [uploaded_of] in *;
    [done..|].
  destruct Hr as (? & ? & _). split; [done|]. lia.
Qed.

(** X19: a store that cannot be set up does not fail the pipeline: when
    permits were fetched, one of them at least has a tag that can be
    hashed, both files are written and the OpenAI key is there, the status
    is ["success"] although the upload ended in an error and no document
    was stored. *)
Theorem store_error_is_success penv env w :
  survivors (fetched penv) ≠ [] →
  raw_file_written penv = true →
  processed_file_written penv = true →
  key_usable (openai_api_key (store penv)) = true →
  embeddings_ok (store penv) = false →
  (PermitPipeline.run_pipeline float_text penv env w).1
    = Success (length (fetched penv)) (length (survivors (fetched penv))) 0
        (UploadError StoreException).
Proof.
  intros Hsome Hfile1 Hfile2 Hkey Hstore.
  unfold PermitPipeline.run_pipeline, PermitPipeline.fetch_permits. cbv zeta.
  destruct (fetched penv) as [|raw raws] eqn:Hraw; [done|].
  rewrite Hfile1. unfold PermitPipeline.process_permits.
  destruct (normalize_and_geocode_run env (raw :: raws) true (tick (tick w)))
    as (normalized & w1 & -> & Hlen).
  rewrite Hfile2.
  destruct normalized as [|p ps]; cbn [fmap list_fmap].
  { cbn [length] in Hlen. symmetry in Hlen. by apply length_zero_iff_nil in Hlen. }
  unfold PermitPipeline.upload_to_database, upload_permits_to_chroma.
  rewrite Hkey, Hstore. cbn [negb fst uploaded_of length].
  rewrite length_fmap. cbn [length] in Hlen. by rewrite Hlen.
Qed.

(** X20: the missing OpenAI key is found only at the upload: the pipeline
    fails after the permits have been processed and a write of the cache
    file has been made, which leaves the file with the processor's cache
    when it goes through. *)
Theorem missing_key_fails_after_processing penv env w :
  survivors (fetched penv) ≠ [] →
  raw_file_written penv = true →
  processed_file_written penv = true →
  key_usable (openai_api_key (store penv)) = false →
  ∃ w',
    PermitPipeline.run_pipeline float_text penv env w = (PipelineFailed, w')
    ∧ (0 < flushes (trace w'))%nat
    ∧ (cache_write env (Nat.pred (flushes (trace w'))) = Written →
       disk w' = Some (geocode_cache w')).
Proof.
  intros Hsome Hfile1 Hfile2 Hkey.
  unfold PermitPipeline.run_pipeline, PermitPipeline.fetch_permits. cbv zeta.
  destruct (fetched penv) as [|raw raws] eqn:Hraw; [done|].
  rewrite Hfile1. unfold PermitPipeline.process_permits.
  destruct (normalize_and_geocode_flushed env (raw :: raws) (tick (tick w)))
    as (normalized & w1 & Hrun & Hlen & Hdisk & Hflush).
  rewrite Hrun, Hfile2.
  destruct normalized as [|p ps]; cbn [fmap list_fmap].
  { cbn [length] in Hlen. symmetry in Hlen. by apply length_zero_iff_nil in Hlen. }
  unfold PermitPipeline.upload_to_database, upload_permits_to_chroma.
  rewrite Hkey. cbn [negb]. eexists. split; [reflexivity|].
  by cbn [tick disk geocode_cache trace].
Qed.

(** X21: no permit that the two fetchers bring is lost in the processing:
    each carries the name of its county as tag, which can be hashed, so
    that the pipeline never ends in ["processing_failed"] and a success
    counts as many permits processed as fetched. *)
Theorem fetched_permits_all_processed fuel arcgis existing_file max_records
    penv env w :
  miami_dade_permits penv = None
  ∨ miami_dade_permits penv
    = fetch_miamidade_permits fuel arcgis max_records →
  hillsborough_permits penv = None
  ∨ hillsborough_permits penv
    = Some (fetch_hillsborough_permits existing_file max_records) →
  survivors (fetched penv) = fetched penv
  ∧ match (PermitPipeline.run_pipeline float_text penv env w).1 with
    | ProcessingFailed => False
    | Success permits_fetched permits_processed _ _ =>
        permits_processed = permits_fetched
    | NoData | PipelineFailed => True
    end.
Proof.
  intros Hmiami Hhills.
  assert (survivors (fetched penv) = fetched penv) as Hall.
  { apply survivors_all, Forall_app. split.
    - destruct Hmiami as [->| ->]; [constructor|].
      destruct (fetch_miamidade_permits fuel arcgis max_records)
        as [records|] eqn:Hrun; [|constructor].
      cbn [default]. eapply Forall_impl; [by eapply fetch_miamidade_tagged|].
      by intros raw ->.
    - destruct Hhills as [->| ->]; [constructor|]. cbn [default].
      eapply Forall_impl; [apply fetch_hillsborough_tagged|].
      by intros raw ->. }
  split; [exact Hall|].
  unfold PermitPipeline.run_pipeline, PermitPipeline.fetch_permits. cbv zeta.
  destruct (fetched penv) as [|raw raws] eqn:Hraw; [done|].
  destruct (raw_file_written penv); cbn [fst]; [|done].
  unfold PermitPipeline.process_permits.
  destruct (normalize_and_geocode_run env (raw :: raws) true (tick (tick w)))
    as (normalized & w1 & -> & Hlen).
  rewrite Hall in Hlen.
  destruct (processed_file_written penv); cbn [fst]; [|done].
  destruct normalized as [|p ps]; [done|]. cbn [fmap list_fmap fst].
  destruct (PermitPipeline.upload_to_database _ _ _); cbn [fst]; [|done].
  cbn [length] in *. by rewrite length_fmap.
Qed.

End pipeline_properties.

Lemma store_error_is_success_witness :
  (PermitPipeline.run_pipeline sample_float_text (sample_pipeline broken_store)
     finding_env fresh_world).1
    = Success (length (fetched (sample_pipeline broken_store)))
        (length (survivors (fetched (sample_pipeline broken_store)))) 0
        (UploadError StoreException).
Proof.
  apply (store_error_is_success sample_float_text
           (sample_pipeline broken_store) finding_env fresh_world);
    [intros H; apply (f_equal length) in H; vm_compute in H;
     discriminate H|reflexivity..].
Defined.

Lemma missing_key_fails_after_processing_witness :
  ∃ w',
    PermitPipeline.run_pipeline sample_float_text
      (sample_pipeline keyless_store) finding_env fresh_world
      = (PipelineFailed, w')
    ∧ (0 < flushes (trace w'))%nat
    ∧ (cache_write finding_env (Nat.pred (flushes (trace w'))) = Written →
       disk w' = Some (geocode_cache w')).
Proof.
  apply (missing_key_fails_after_processing sample_float_text
           (sample_pipeline keyless_store) finding_env fresh_world);
    [intros H; apply (f_equal length) in H; vm_compute in H;
     discriminate H|reflexivity..].
Defined.

Lemma fetched_permits_all_processed_witness :
  survivors (fetched (sample_pipeline sample_store))
    = fetched (sample_pipeline sample_store)
  ∧ match (PermitPipeline.run_pipeline sample_float_text
             (sample_pipeline sample_store) finding_env fresh_world).1 with
    | ProcessingFailed => False
    | Success permits_fetched permits_processed _ _ =>
        permits_processed = permits_fetched
    | NoData | PipelineFailed => True
    end.
Proof.
  apply (fetched_permits_all_processed sample_float_text 2 sample_arcgis
           (Rows [numbered_permit]) None (sample_pipeline sample_store)
           finding_env fresh_world);
    right; reflexivity.
Defined.

(** The sample pipeline: three permits fetched and processed, of which the
    Hillsborough one, with a number as description, is skipped at the
    upload. *)
Example sample_pipeline_run :
  (PermitPipeline.run_pipeline sample_float_text (sample_pipeline sample_store)
     finding_env fresh_world).1
    = Success 3 3 2 (UploadSuccess 2 1 2).
Proof. vm_compute. reflexivity. Qed.
